(** * My_Business_Reviews: the review cache of the /reviews endpoint

    A shallow embedding of the caching code of the server
    (loadCache, saveCache, mergeReviews and the GET /reviews handler)
    together with the properties of the merge, of the derived
    response and of the failure paths. *)

From Stdlib Require Import List String Ascii ZArith QArith Bool Lia.
From Stdlib Require Import Permutation Sorted Arith Morphisms.
From AAC_tactics Require Import AAC.
Import ListNotations.
Local Open Scope string_scope.
Local Open Scope Z_scope.
Local Open Scope list_scope.

Set Implicit Arguments.

(** ** Review records

    A review is a JSON object of Google's reviews API.  The three
    fields the server reads are strings when present; [None] is an
    absent field (JavaScript [undefined]).  Everything else the object
    carries is [otherFields], never inspected. *)

Record review : Type := mkReview {
  reviewId   : option string;
  createTime : option string;
  starRating : option string;
  otherFields : list (string * string)
}.

(** [if (review.reviewId)]: a string is truthy when it is not empty,
    [undefined] is falsy. *)
Definition truthy (v : option string) : bool :=
  match v with
  | Some s => negb (String.eqb s "")
  | None => false
  end.

(** ** The JavaScript [Map] of [mergeReviews]

    A [Map] remembers insertion order: [set] on a key that is present
    replaces the value where it stands, [set] on a new key appends.
    [values()] lists the values in that order. *)

Module JsMap.

Definition t : Type := list (string * review).

Definition empty : t := [].

Fixpoint set (k : string) (v : review) (m : t) : t :=
  match m with
  | [] => [(k, v)]
  | (k', v') :: m' =>
      if String.eqb k' k then (k, v) :: m' else (k', v') :: set k v m'
  end.

Fixpoint get (k : string) (m : t) : option review :=
  match m with
  | [] => None
  | (k', v') :: m' => if String.eqb k' k then Some v' else get k m'
  end.

Definition keys (m : t) : list string := map fst m.
Definition values (m : t) : list review := map snd m.

End JsMap.

(** [list.forEach(review => { if (review.reviewId) reviewMap.set(review.reviewId, review) })] *)
Definition setReview (m : JsMap.t) (r : review) : JsMap.t :=
  match reviewId r with
  | Some k => if truthy (Some k) then JsMap.set k r m else m
  | None => m
  end.

Definition forEach_set (l : list review) (m : JsMap.t) : JsMap.t :=
  fold_left setReview l m.

(** ** [Array.prototype.sort]

    The comparator's result is a number or [NaN] ([None]); the sort
    reads [NaN] as [+0].  What the sort returns for a comparator that
    is no consistent order (as [byDateDesc] below, on records without a
    date) the language leaves to the engine, so the engine is
    modelled: the server runs on Node.js, whose V8 sorts with TimSort
    (third_party/v8/builtins/array-sort.tq).  The functions below
    follow that file, macro by macro, on the work array that
    [Array.prototype.sort] fills with the elements.  A part of the
    array is a list; each loop runs on a [fuel] that bounds its
    rounds (the lemmas on the sort never meet its end), and the
    overflow checks on offsets are left out, array lengths being far
    from the limit of a small integer. *)

Section ArraySort.
Variable A : Type.
Variable comparefn : A -> A -> option Z.

(** [sortState.Compare(x, y)]: the comparator's number, [NaN] read as
    [+0]. *)
Definition SortCompare (x y : A) : Z :=
  match comparefn x y with
  | Some v => v
  | None => 0
  end.

(** [array.objects[base + i]], for the elements [l] that start at
    [base].  The sort reads no index outside of them; [d] stands
    there. *)
Definition load (l : list A) (i : Z) (d : A) : A := nth (Z.to_nat i) l d.

(** The first loop of a gallop:
    [while (offset < maxOfs) { if (!further(offset)) break;
       lastOfs = offset; offset = (offset << 1) + 1; }]. *)
Fixpoint gallop_loop (further : Z -> bool) (maxOfs : Z) (fuel : nat)
    (lastOfs offset : Z) : Z * Z :=
  match fuel with
  | O => (lastOfs, offset)
  | S fuel =>
      if offset <? maxOfs then
        if further offset
        then gallop_loop further maxOfs fuel offset (Z.shiftl offset 1 + 1)
        else (lastOfs, offset)
      else (lastOfs, offset)
  end.

(** The binary search:
    [while (lastOfs < offset) { m = lastOfs + ((offset - lastOfs) >> 1);
       if (toRight(m)) lastOfs = m + 1; else offset = m; }]. *)
Fixpoint binary_loop (toRight : Z -> bool) (fuel : nat) (lastOfs offset : Z) : Z :=
  match fuel with
  | O => offset
  | S fuel =>
      if lastOfs <? offset then
        let m := lastOfs + Z.shiftr (offset - lastOfs) 1 in
        if toRight m
        then binary_loop toRight fuel (m + 1) offset
        else binary_loop toRight fuel lastOfs m
      else offset
  end.

(** [GallopLeft(array, key, base, length, hint)], [l] the [length]
    elements from [base]: the offset in front of the leftmost element
    not below [key]. *)
Definition GallopLeft (l : list A) (key : A) (hint : Z) : Z :=
  let length := Z.of_nat (List.length l) in
  let fuel := S (List.length l) in
  let below i := SortCompare (load l i key) key <? 0 in
  let '(lastOfs, offset) :=
    if below hint then
      let maxOfs := length - hint in
      let '(lastOfs, offset) :=
        gallop_loop (fun ofs => below (hint + ofs)) maxOfs fuel 0 1 in
      let offset := if maxOfs <? offset then maxOfs else offset in
      (lastOfs + hint, offset + hint)
    else
      let maxOfs := hint + 1 in
      let '(lastOfs, offset) :=
        gallop_loop (fun ofs => negb (below (hint - ofs))) maxOfs fuel 0 1 in
      let offset := if maxOfs <? offset then maxOfs else offset in
      (hint - offset, hint - lastOfs)
  in
  binary_loop below fuel (lastOfs + 1) offset.

(** [GallopRight]: the offset behind the rightmost element that [key]
    is not below. *)
Definition GallopRight (l : list A) (key : A) (hint : Z) : Z :=
  let length := Z.of_nat (List.length l) in
  let fuel := S (List.length l) in
  let above i := SortCompare key (load l i key) <? 0 in
  let '(lastOfs, offset) :=
    if above hint then
      let maxOfs := hint + 1 in
      let '(lastOfs, offset) :=
        gallop_loop (fun ofs => above (hint - ofs)) maxOfs fuel 0 1 in
      let offset := if maxOfs <? offset then maxOfs else offset in
      (hint - offset, hint - lastOfs)
    else
      let maxOfs := length - hint in
      let '(lastOfs, offset) :=
        gallop_loop (fun ofs => negb (above (hint + ofs))) maxOfs fuel 0 1 in
      let offset := if maxOfs <? offset then maxOfs else offset in
      (lastOfs + hint, offset + hint)
  in
  binary_loop (fun m => negb (above m)) fuel (lastOfs + 1) offset.

(** One round of [BinaryInsertionSort]: [pivot] is [a[start]], [run]
    the elements in front of it; the binary search for [left], then
    the shift. *)
Definition insertPivot (run : list A) (pivot : A) : list A :=
  let left :=
    binary_loop (fun mid => negb (SortCompare pivot (load run mid pivot) <? 0))
                (S (List.length run)) 0 (Z.of_nat (List.length run)) in
  firstn (Z.to_nat left) run ++ pivot :: skipn (Z.to_nat left) run.

(** [BinaryInsertionSort(low, start, high)]: [run] is [a[low..start)],
    [pending] is [a[start..high)]; with an empty run the first
    element starts it. *)
Definition BinaryInsertionSort (run pending : list A) : list A :=
  match run, pending with
  | [], pivot :: pending => fold_left insertPivot pending [pivot]
  | _, _ => fold_left insertPivot pending run
  end.

(** The loop of [CountAndMakeRun]: how many more elements go on with
    the run. *)
Fixpoint countRun (isDescending : bool) (previousElement : A) (l : list A) : nat :=
  match l with
  | [] => O
  | currentElement :: l' =>
      let order := SortCompare currentElement previousElement in
      if (if isDescending then 0 <=? order else order <? 0) then O
      else S (countRun isDescending currentElement l')
  end.

(** [CountAndMakeRun(low, high)] on [l = a[low..high)]: the run at the
    front, turned round when it descends, and the elements behind
    it. *)
Definition CountAndMakeRun (l : list A) : list A * list A :=
  match l with
  | elementHigh :: elementLow :: l' =>
      let isDescending := SortCompare elementLow elementHigh <? 0 in
      let runLength := (2 + countRun isDescending elementLow l')%nat in
      let run := firstn runLength l in
      (if isDescending then rev run else run, skipn runLength l)
  | _ => (l, [])
  end.

Definition kMinGallopWins : Z := 7.

(** The last element of a list and the elements in front of it. *)
Fixpoint unsnoc (l : list A) : option (list A * A) :=
  match l with
  | [] => None
  | x :: l' =>
      match unsnoc l' with
      | None => Some ([], x)
      | Some (front, z) => Some (x :: front, z)
      end
  end.

Definition isEmpty (l : list A) : bool :=
  match l with [] => true | _ => false end.

(** The loops of [MergeLow].  [out] holds the elements already at
    their place ([workArray[baseA..dest)]), [a] what is left of run A
    in [tempArray], [b] what is left of run B.  [galloping] tells the
    straightforward loop from the galloping one.  Label [Succeed]
    leaves [out ++ a ++ b], label [CopyB] leaves [out ++ b ++ a]. *)
Fixpoint MergeLow_loop (fuel : nat) (galloping firstIteration : bool)
    (minGallop nofWinsA nofWinsB : Z) (out a b : list A) : list A * Z :=
  match fuel with
  | O => (out ++ a ++ b, minGallop)
  | S fuel =>
      if negb galloping then
        match a, b with
        | x :: a', y :: b' =>
            if SortCompare y x <? 0 then
              let out := out ++ [y] in
              let nofWinsB := nofWinsB + 1 in
              if isEmpty b' then (out ++ a ++ b', minGallop)
              else if minGallop <=? nofWinsB
              then MergeLow_loop fuel true true (minGallop + 1) 0 nofWinsB out a b'
              else MergeLow_loop fuel false false minGallop 0 nofWinsB out a b'
            else
              let out := out ++ [x] in
              let nofWinsA := nofWinsA + 1 in
              if (List.length a' =? 1)%nat then (out ++ b ++ a', minGallop)
              else if minGallop <=? nofWinsA
              then MergeLow_loop fuel true true (minGallop + 1) nofWinsA 0 out a' b
              else MergeLow_loop fuel false false minGallop nofWinsA 0 out a' b
        | _, _ => (out ++ a ++ b, minGallop)
        end
      else if (kMinGallopWins <=? nofWinsA) || (kMinGallopWins <=? nofWinsB)
              || firstIteration then
        let minGallop := Z.max 1 (minGallop - 1) in
        match b with
        | [] => (out ++ a ++ b, minGallop)
        | y :: b' =>
            let nofWinsA := GallopRight a y 0 in
            let out := out ++ firstn (Z.to_nat nofWinsA) a in
            let a := skipn (Z.to_nat nofWinsA) a in
            if (0 <? nofWinsA) && (List.length a =? 1)%nat
            then (out ++ b ++ a, minGallop)
            else if (0 <? nofWinsA) && (List.length a =? 0)%nat
            then (out ++ a ++ b, minGallop)
            else
              let out := out ++ [y] in
              match a with
              | [] => (out ++ a ++ b', minGallop)
              | x :: a' =>
                  if isEmpty b' then (out ++ a ++ b', minGallop)
                  else
                    let nofWinsB := GallopLeft b' x 0 in
                    let out := out ++ firstn (Z.to_nat nofWinsB) b' in
                    let b' := skipn (Z.to_nat nofWinsB) b' in
                    if (0 <? nofWinsB) && isEmpty b'
                    then (out ++ a ++ b', minGallop)
                    else
                      let out := out ++ [x] in
                      if (List.length a' =? 1)%nat then (out ++ b' ++ a', minGallop)
                      else MergeLow_loop fuel true false minGallop nofWinsA nofWinsB
                                         out a' b'
              end
        end
      else MergeLow_loop fuel false false (minGallop + 1) 0 0 out a b
  end.

(** [MergeLow(baseA, lengthA, baseB, lengthB)] on the runs [a] and
    [b], with [sortState.minGallop]: the merged elements and the new
    [minGallop]. *)
Definition MergeLow (a b : list A) (minGallop : Z) : list A * Z :=
  match b with
  | [] => (a, minGallop)
  | y :: b' =>
      if isEmpty b' then ([y] ++ a ++ b', minGallop)
      else if (List.length a =? 1)%nat then ([y] ++ b' ++ a, minGallop)
      else MergeLow_loop (2 * (List.length a + List.length b') + 1)
                         false false minGallop 0 0 [y] a b'
  end.

(** The loops of [MergeHigh], which fills from the end: [out] holds
    the elements already at their place ([workArray(dest..]]), [a]
    what is left of run A, [b] what is left of run B in [tempArray].
    Label [Succeed] leaves [a ++ b ++ out], label [CopyA] leaves
    [b ++ a ++ out]. *)
Fixpoint MergeHigh_loop (fuel : nat) (galloping firstIteration : bool)
    (minGallop nofWinsA nofWinsB : Z) (a b out : list A) : list A * Z :=
  match fuel with
  | O => (a ++ b ++ out, minGallop)
  | S fuel =>
      if negb galloping then
        match unsnoc a, unsnoc b with
        | Some (a', x), Some (b', y) =>
            if SortCompare y x <? 0 then
              let out := x :: out in
              let nofWinsA := nofWinsA + 1 in
              if isEmpty a' then (a' ++ b ++ out, minGallop)
              else if minGallop <=? nofWinsA
              then MergeHigh_loop fuel true true (minGallop + 1) nofWinsA 0 a' b out
              else MergeHigh_loop fuel false false minGallop nofWinsA 0 a' b out
            else
              let out := y :: out in
              let nofWinsB := nofWinsB + 1 in
              if (List.length b' =? 1)%nat then (b' ++ a ++ out, minGallop)
              else if minGallop <=? nofWinsB
              then MergeHigh_loop fuel true true (minGallop + 1) 0 nofWinsB a b' out
              else MergeHigh_loop fuel false false minGallop 0 nofWinsB a b' out
        | _, _ => (a ++ b ++ out, minGallop)
        end
      else if (kMinGallopWins <=? nofWinsA) || (kMinGallopWins <=? nofWinsB)
              || firstIteration then
        let minGallop := Z.max 1 (minGallop - 1) in
        match unsnoc b with
        | None => (a ++ b ++ out, minGallop)
        | Some (b', y) =>
            let lengthA := Z.of_nat (List.length a) in
            let k := GallopRight a y (lengthA - 1) in
            let nofWinsA := lengthA - k in
            let out := skipn (Z.to_nat k) a ++ out in
            let a := firstn (Z.to_nat k) a in
            if (0 <? nofWinsA) && (List.length a =? 0)%nat
            then (a ++ b ++ out, minGallop)
            else
              let out := y :: out in
              if (List.length b' =? 1)%nat then (b' ++ a ++ out, minGallop)
              else
                match unsnoc a with
                | None => (a ++ b' ++ out, minGallop)
                | Some (a', x) =>
                    let lengthB := Z.of_nat (List.length b') in
                    let k := GallopLeft b' x (lengthB - 1) in
                    let nofWinsB := lengthB - k in
                    let out := skipn (Z.to_nat k) b' ++ out in
                    let b' := firstn (Z.to_nat k) b' in
                    if (0 <? nofWinsB) && (List.length b' =? 1)%nat
                    then (b' ++ a ++ out, minGallop)
                    else if (0 <? nofWinsB) && (List.length b' =? 0)%nat
                    then (a ++ b' ++ out, minGallop)
                    else
                      let out := x :: out in
                      if isEmpty a' then (a' ++ b' ++ out, minGallop)
                      else MergeHigh_loop fuel true false minGallop nofWinsA nofWinsB
                                          a' b' out
                end
        end
      else MergeHigh_loop fuel false false (minGallop + 1) 0 0 a b out
  end.

Definition MergeHigh (a b : list A) (minGallop : Z) : list A * Z :=
  match unsnoc a with
  | None => (b, minGallop)
  | Some (a', x) =>
      if isEmpty a' then (a' ++ b ++ [x], minGallop)
      else if (List.length b =? 1)%nat then (b ++ a' ++ [x], minGallop)
      else MergeHigh_loop (2 * (List.length a' + List.length b) + 1)
                          false false minGallop 0 0 a' b [x]
  end.

(** [MergeAt(i)] on run [i], here [a], and run [i + 1], here [b]: the
    run that replaces the two. *)
Definition MergeAt (a b : list A) (minGallop : Z) : list A * Z :=
  match b with
  | [] => (a, minGallop)
  | keyRight :: _ =>
      let k := Z.to_nat (GallopRight a keyRight 0) in
      let front := firstn k a in
      let a := skipn k a in
      match unsnoc a with
      | None => (front ++ b, minGallop)
      | Some (_, keyLeft) =>
          let lengthB :=
            Z.to_nat (GallopLeft b keyLeft (Z.of_nat (List.length b) - 1)) in
          let back := skipn lengthB b in
          let b := firstn lengthB b in
          if isEmpty b then (front ++ a ++ back, minGallop)
          else
            let '(merged, minGallop) :=
              if (List.length a <=? List.length b)%nat
              then MergeLow a b minGallop
              else MergeHigh a b minGallop in
            (front ++ merged ++ back, minGallop)
      end
  end.

(** [ComputeMinRunLength]:
    [while (n >= 64) { r = r | (n & 1); n = n >> 1; } return n + r]. *)
Fixpoint ComputeMinRunLength_loop (fuel : nat) (n r : Z) : Z :=
  match fuel with
  | O => n + r
  | S fuel =>
      if 64 <=? n
      then ComputeMinRunLength_loop fuel (Z.shiftr n 1) (Z.lor r (Z.land n 1))
      else n + r
  end.

Definition ComputeMinRunLength (n : Z) : Z :=
  ComputeMinRunLength_loop (Z.to_nat n) n 0.

(** The sort state: the stack of pending runs, the last pushed run in
    front (run [n + 1] of the source is the head, run [n] the second),
    each with its elements, and [minGallop]. *)
Definition SortState : Type := (list (list A) * Z)%type.

Definition runLength (r : list A) : Z := Z.of_nat (List.length r).

(** [MergeCollapse]: merges until the invariants of the stack hold
    again. *)
Fixpoint MergeCollapse (fuel : nat) (sortState : SortState) : SortState :=
  match fuel with
  | O => sortState
  | S fuel =>
      let '(pendingRuns, minGallop) := sortState in
      match pendingRuns with
      | r2 :: r1 :: r0 :: rest =>
          let established1 := runLength r1 + runLength r2 <? runLength r0 in
          let established :=
            match rest with
            | [] => true
            | r :: _ => runLength r0 + runLength r1 <? runLength r
            end in
          if negb established1 || negb established then
            if runLength r0 <? runLength r2 then
              let '(m, minGallop) := MergeAt r0 r1 minGallop in
              MergeCollapse fuel (r2 :: m :: rest, minGallop)
            else
              let '(m, minGallop) := MergeAt r1 r2 minGallop in
              MergeCollapse fuel (m :: r0 :: rest, minGallop)
          else if runLength r1 <=? runLength r2 then
            let '(m, minGallop) := MergeAt r1 r2 minGallop in
            MergeCollapse fuel (m :: r0 :: rest, minGallop)
          else sortState
      | [r2; r1] =>
          if runLength r1 <=? runLength r2 then
            let '(m, minGallop) := MergeAt r1 r2 minGallop in
            MergeCollapse fuel ([m], minGallop)
          else sortState
      | _ => sortState
      end
  end.

(** [MergeForceCollapse]: merges until one run is left. *)
Fixpoint MergeForceCollapse (fuel : nat) (sortState : SortState) : SortState :=
  match fuel with
  | O => sortState
  | S fuel =>
      let '(pendingRuns, minGallop) := sortState in
      match pendingRuns with
      | r2 :: r1 :: r0 :: rest =>
          if runLength r0 <? runLength r2 then
            let '(m, minGallop) := MergeAt r0 r1 minGallop in
            MergeForceCollapse fuel (r2 :: m :: rest, minGallop)
          else
            let '(m, minGallop) := MergeAt r1 r2 minGallop in
            MergeForceCollapse fuel (m :: r0 :: rest, minGallop)
      | [r2; r1] =>
          let '(m, minGallop) := MergeAt r1 r2 minGallop in
          MergeForceCollapse fuel ([m], minGallop)
      | _ => sortState
      end
  end.

(** The loop of [ArrayTimSortImpl] over the elements not yet in a
    run. *)
Fixpoint ArrayTimSortImpl_loop (fuel : nat) (minRunLength : Z) (remaining : list A)
    (sortState : SortState) : SortState :=
  match remaining, fuel with
  | [], _ => sortState
  | _ :: _, O => (remaining :: fst sortState, snd sortState)
  | _ :: _, S fuel =>
      let '(run, rest) := CountAndMakeRun remaining in
      let '(run, rest) :=
        if runLength run <? minRunLength then
          let forcedRunLength := Z.min minRunLength (runLength remaining) in
          let more := Z.to_nat (forcedRunLength - runLength run) in
          (BinaryInsertionSort run (firstn more rest), skipn more rest)
        else (run, rest) in
      let '(pendingRuns, minGallop) := sortState in
      let sortState :=
        MergeCollapse (S (List.length pendingRuns)) (run :: pendingRuns, minGallop) in
      ArrayTimSortImpl_loop fuel minRunLength rest sortState
  end.

Definition ArrayTimSortImpl (l : list A) : list A :=
  if (List.length l <? 2)%nat then l
  else
    let minRunLength := ComputeMinRunLength (runLength l) in
    let sortState :=
      ArrayTimSortImpl_loop (List.length l) minRunLength l ([], kMinGallopWins) in
    let '(pendingRuns, _) :=
      MergeForceCollapse (List.length (fst sortState)) sortState in
    List.concat (rev pendingRuns).

Definition Array_sort (l : list A) : list A := ArrayTimSortImpl l.

End ArraySort.

(** ** mergeReviews *)

Section Merge.
(** [new Date(s)] for a string [s]: the time value in milliseconds,
    or [None] for an Invalid Date. *)
Variable Date_parse : string -> option Z.

(** [new Date(r.createTime)]; [new Date(undefined)] is invalid. *)
Definition dateOf (r : review) : option Z :=
  match createTime r with
  | Some s => Date_parse s
  | None => None
  end.

(** [(a, b) => dateB - dateA]; [NaN] when either date is invalid. *)
Definition byDateDesc (a b : review) : option Z :=
  match dateOf a, dateOf b with
  | Some ta, Some tb => Some (tb - ta)
  | _, _ => None
  end.

Definition mergeReviews (cachedReviews newReviews : list review) : list review :=
  let reviewMap := forEach_set cachedReviews JsMap.empty in
  let reviewMap := forEach_set newReviews reviewMap in
  let merged := JsMap.values reviewMap in
  Array_sort byDateDesc merged.

End Merge.

(** ** Rating aggregation

    [starValues[review.starRating] || 0].  The table is an object
    literal, so a lookup that misses its five own keys goes on to
    [Object.prototype], whose members are functions (one is an
    object): truthy values that the fallback to [0] lets
    through. *)

Definition starValues : list (string * Z) :=
  [("FIVE", 5); ("FOUR", 4); ("THREE", 3); ("TWO", 2); ("ONE", 1)].

Definition Object_prototype_names : list string :=
  ["constructor"; "hasOwnProperty"; "isPrototypeOf"; "propertyIsEnumerable";
   "toLocaleString"; "toString"; "valueOf"; "__proto__";
   "__defineGetter__"; "__defineSetter__"; "__lookupGetter__"; "__lookupSetter__"].

Fixpoint own_property (key : string) (o : list (string * Z)) : option Z :=
  match o with
  | [] => None
  | (k, v) :: o' => if String.eqb k key then Some v else own_property key o'
  end.

(** The key of a property access is the string of the value;
    [undefined] reads the key ["undefined"]. *)
Definition propertyKey (v : option string) : string :=
  match v with
  | Some s => s
  | None => "undefined"
  end.

(** The right operand of [acc + (...)]: a number, or a function or
    object inherited from the prototype. *)
Inductive operand : Type :=
| Num (n : Z)
| Obj.

Definition starOperand (r : review) : operand :=
  let key := propertyKey (starRating r) in
  match own_property key starValues with
  | Some n => Num n
  | None =>
      if existsb (String.eqb key) Object_prototype_names then Obj else Num 0
  end.

(** The accumulator of [reduce]: a number, or, once [+] has met a
    function or an object, a string that every later [+] extends.
    Such a string starts with the digits of the sum so far followed by
    the text of the function or object, and is no numeral. *)
Inductive accumulator : Type :=
| ANumber (n : Z)
| AString.

Definition js_add (acc : accumulator) (v : operand) : accumulator :=
  match acc, v with
  | ANumber a, Num n => ANumber (a + n)
  | _, _ => AString
  end.

Definition ratingSum (allReviews : list review) : accumulator :=
  fold_left (fun acc review => js_add acc (starOperand review)) allReviews (ANumber 0).

(** A JavaScript number of the response: the quotient is kept exact
    (the engine rounds it to the nearest double), [NaN] apart. *)
Inductive number : Type :=
| Finite (q : Q)
| NaN.

Definition js_div (sum : accumulator) (n : nat) : number :=
  match sum with
  | ANumber s => Finite (inject_Z s / inject_Z (Z.of_nat n))
  | AString => NaN
  end.

Definition averageRatingOf (allReviews : list review) : number :=
  if (0 <? List.length allReviews)%nat
  then js_div (ratingSum allReviews) (List.length allReviews)
  else Finite 0.

(** ** The cache file

    The text of the file is kept up to what [JSON.parse] makes of it:
    either it does not parse, or it parses to a document.  A document
    is the value [null], or a value whose [reviews] property is an
    array of reviews or is missing; [lastUpdated] is a string or
    null. *)

Inductive cacheDoc : Type :=
| DocNull
| DocObject (reviews : option (list review)) (lastUpdated : option string).

Inductive fileText : Type :=
| Malformed
| Json (doc : cacheDoc).

Inductive FileState : Type :=
| NoFile
| Unreadable
| Content (text : fileText).

(** ** Exceptions and the file system: a state and error monad

    A computation reads and writes the cache file and either returns
    or throws; what it wrote before throwing stays written. *)

Inductive error : Type :=
| Error (message : string).

Definition message (e : error) : string :=
  match e with Error m => m end.

Inductive result (A : Type) : Type :=
| Ok (a : A)
| Throw (e : error).
Arguments Ok {A} a.
Arguments Throw {A} e.

Definition M (A : Type) : Type := FileState -> result A * FileState.

Definition ret {A} (a : A) : M A := fun fs => (Ok a, fs).
Definition throw {A} (e : error) : M A := fun fs => (Throw e, fs).
Definition bind {A B} (c : M A) (k : A -> M B) : M B :=
  fun fs =>
    match c fs with
    | (Ok a, fs') => k a fs'
    | (Throw e, fs') => (Throw e, fs')
    end.
Definition try_catch {A} (body : M A) (handler : error -> M A) : M A :=
  fun fs =>
    match body fs with
    | (Ok a, fs') => (Ok a, fs')
    | (Throw e, fs') => handler e fs'
    end.

Notation "x <- c ;; k" := (bind c (fun x => k))
  (at level 61, c at next level, right associativity).
Notation "c ;;; k" := (bind c (fun _ => k))
  (at level 61, right associativity).

Definition existsSync : M bool :=
  fun fs => (Ok (match fs with NoFile => false | _ => true end), fs).

Definition readFileSync : M fileText :=
  fun fs =>
    match fs with
    | Content text => (Ok text, fs)
    | NoFile => (Throw (Error "ENOENT: no such file or directory"), fs)
    | Unreadable => (Throw (Error "EACCES: permission denied"), fs)
    end.

(** [writable] tells whether the write goes through.  The file is
    opened with truncation, so a write can fail in two ways: before
    the file is opened ([truncates = false]: the file is as it was),
    or after ([truncates = true]: the file is left empty or with the
    beginning of the text, which does not parse). *)
Definition writeFileSync (writable truncates : bool) (text : fileText) : M unit :=
  fun fs =>
    if writable then (Ok tt, Content text)
    else if truncates then (Throw (Error "ENOSPC: no space left on device"), Content Malformed)
    else (Throw (Error "EROFS: read-only file system"), fs).

Definition JSON_parse (text : fileText) : M cacheDoc :=
  match text with
  | Json doc => ret doc
  | Malformed => throw (Error "Unexpected token in JSON")
  end.

Definition JSON_stringify (doc : cacheDoc) : fileText := Json doc.

Definition emptySnapshot : cacheDoc := DocObject (Some []) None.

(** [loadCache]: the [return] inside [try] leaves with the parsed
    document; every other way out reaches the last line. *)
Definition loadCache : M cacheDoc :=
  early <- try_catch
             (present <- existsSync ;;
              if (present : bool) then
                data <- readFileSync ;;
                doc <- JSON_parse data ;;
                ret (Some doc)
              else ret None)
             (fun err => ret None) ;;
  match early with
  | Some doc => ret doc
  | None => ret emptySnapshot
  end.

Definition saveCache (writable truncates : bool) (cache : cacheDoc) : M unit :=
  try_catch (writeFileSync writable truncates (JSON_stringify cache)) (fun err => ret tt).

(** Property reads on the loaded document: reading a property of
    [null] throws a TypeError. *)
Definition get_reviews (cache : cacheDoc) : M (option (list review)) :=
  match cache with
  | DocNull => throw (Error "Cannot read properties of null (reading 'reviews')")
  | DocObject reviews _ => ret reviews
  end.

Definition get_lastUpdated (cache : cacheDoc) : M (option string) :=
  match cache with
  | DocNull => throw (Error "Cannot read properties of null (reading 'lastUpdated')")
  | DocObject _ lastUpdated => ret lastUpdated
  end.

(** ** GET /reviews *)

(** What [businessInfoClient.locations.get] answers: [title] and
    [metadata.placeId], each possibly absent. *)
Record locationInfo : Type := mkLocationInfo {
  title : option string;
  metadata_placeId : option string
}.

(** What one request finds around it: the environment variables, the
    clock at the moment the cache is saved, the outcome of the two
    calls to Google (the access token and the reviews request count as
    one), whether the disk takes the write and, when it does not,
    whether the write fails after truncating the file. *)
Record Request : Type := mkRequest {
  LOCATION_NAME : option string;
  PLACE_ID : option string;
  now : string;
  fetched : result (option (list review));
  location : result locationInfo;
  diskWritable : bool;
  writeTruncates : bool
}.

Record cacheInfo : Type := mkCacheInfo {
  totalCached : nat;
  newFromGoogle : nat;
  lastUpdated : option string
}.

(** The JSON object of a 200 or 500 answer.  [p_error], [name] and
    [placeId] are [None] when the key is not in the object;
    [placeId = Some None] is the key with value null. *)
Record payload : Type := mkPayload {
  p_error : option string;
  reviews : list review;
  averageRating : number;
  totalReviewCount : nat;
  name : option string;
  placeId : option (option string);
  cached : bool;
  info : cacheInfo
}.

Inductive content : Type :=
| ErrorOnly (msg : string)
| Payload (p : payload).

Record response : Type := mkResponse {
  status : nat;
  json : content
}.

(** [x || []] *)
Definition orEmpty (x : option (list review)) : list review :=
  match x with
  | Some l => l
  | None => []
  end.

(** [a || b] on strings that may be absent. *)
Definition orElse (a b : option string) : option string :=
  if truthy a then a else b.

Section Server.
Variable Date_parse : string -> option Z.

(** The call [mergeReviews(cache.reviews, newReviews)]: with
    [cache.reviews] undefined the first [forEach] throws. *)
Definition call_mergeReviews (cachedReviews : option (list review))
    (newReviews : list review) : M (list review) :=
  match cachedReviews with
  | Some l => ret (mergeReviews Date_parse l newReviews)
  | None => throw (Error "Cannot read properties of undefined (reading 'forEach')")
  end.

(** The body of the outer [try]. *)
Definition reviews_try (q : Request) : M response :=
  if negb (truthy (LOCATION_NAME q)) then
    ret (mkResponse 400 (ErrorOnly "LOCATION_NAME not configured"))
  else
    cache <- loadCache ;;
    let newReviews :=
      match fetched q with Ok data => orEmpty data | Throw _ => [] end in
    let fetchError :=
      match fetched q with Ok _ => None | Throw err => Some err end in
    cachedReviews <- get_reviews cache ;;
    allReviews <- call_mergeReviews cachedReviews newReviews ;;
    saveCache (diskWritable q) (writeTruncates q)
      (DocObject (Some allReviews) (Some (now q))) ;;;
    let locationInfo :=
      match location q with
      | Ok data => data
      | Throw _ => mkLocationInfo None None
      end in
    let totalReviewCount := List.length allReviews in
    let averageRating := averageRatingOf allReviews in
    let placeId := orElse (PLACE_ID q) (orElse (metadata_placeId locationInfo) None) in
    let businessName := orElse (title locationInfo) (Some "Our Business") in
    cache_lastUpdated <- get_lastUpdated cache ;;
    ret (mkResponse 200 (Payload {|
      p_error := None;
      reviews := allReviews;
      averageRating := averageRating;
      totalReviewCount := totalReviewCount;
      name := businessName;
      placeId := Some placeId;
      cached := match fetchError with Some _ => true | None => false end;
      info := {| totalCached := List.length allReviews;
                 newFromGoogle := List.length newReviews;
                 lastUpdated := cache_lastUpdated |}
    |})).

(** The outer [catch]. *)
Definition reviews_catch (err : error) : M response :=
  cache <- loadCache ;;
  cache_reviews <- get_reviews cache ;;
  cache_lastUpdated <- get_lastUpdated cache ;;
  ret (mkResponse 500 (Payload {|
    p_error := Some (message err);
    reviews := orEmpty cache_reviews;
    averageRating := Finite 0;
    totalReviewCount := List.length (orEmpty cache_reviews);
    name := None;
    placeId := None;
    cached := true;
    info := {| totalCached := List.length (orEmpty cache_reviews);
               newFromGoogle := 0;
               lastUpdated := cache_lastUpdated |}
  |})).

(** The handler: [(Ok r, fs)] is the response [r] sent with the file
    left as [fs]; [(Throw e, fs)] is the handler's promise rejected
    with no response of its own. *)
Definition reviews_route (q : Request) : M response :=
  try_catch (reviews_try q) reviews_catch.

(** The snapshot on disk after a request, as [loadCache] would read it
    next. *)
Definition persisted (fs : FileState) : cacheDoc :=
  match loadCache fs with
  | (Ok doc, _) => doc
  | (Throw _, _) => emptySnapshot
  end.

End Server.

(** ** Dates of the form YYYY-MM-DD

    The date-only form of the ECMAScript date-time string format, read
    as midnight UTC; used for the worked examples.  Any other text is
    outside this reader and gives [None]. *)

Definition digit (c : ascii) : option Z :=
  let n := Z.of_nat (nat_of_ascii c) in
  if (48 <=? n) && (n <=? 57) then Some (n - 48) else None.

Fixpoint number_of (cs : list ascii) (acc : Z) : option Z :=
  match cs with
  | [] => Some acc
  | c :: cs' =>
      match digit c with
      | Some d => number_of cs' (10 * acc + d)
      | None => None
      end
  end.

Definition isLeap (y : Z) : bool :=
  ((y mod 4 =? 0) && negb (y mod 100 =? 0)) || (y mod 400 =? 0).

Definition daysInMonth (y m : Z) : Z :=
  if m =? 2 then (if isLeap y then 29 else 28)
  else if (m =? 4) || (m =? 6) || (m =? 9) || (m =? 11) then 30
  else 31.

(** Days from 1970-01-01 to the civil date [y]-[m]-[d]. *)
Definition daysFromCivil (y m d : Z) : Z :=
  let y' := if m <=? 2 then y - 1 else y in
  let era := y' / 400 in
  let yoe := y' - era * 400 in
  let mp := if m <=? 2 then m + 9 else m - 3 in
  let doy := (153 * mp + 2) / 5 + d - 1 in
  let doe := yoe * 365 + yoe / 4 - yoe / 100 + doy in
  era * 146097 + doe - 719468.

Definition msPerDay : Z := 86400000.

Definition Date_parse_ymd (s : string) : option Z :=
  match list_ascii_of_string s with
  | [y1; y2; y3; y4; "-"%char; m1; m2; "-"%char; d1; d2] =>
      match number_of [y1; y2; y3; y4] 0, number_of [m1; m2] 0, number_of [d1; d2] 0 with
      | Some y, Some m, Some d =>
          if (1 <=? m) && (m <=? 12) && (1 <=? d) && (d <=? daysInMonth y m)
          then Some (daysFromCivil y m d * msPerDay)
          else None
      | _, _, _ => None
      end
  | _ => None
  end.

(** ** Vocabulary of the statements *)

(** [hasId k r]: the record [r] carries the id [k]. *)
Definition hasId (k : string) (r : review) : bool :=
  match reviewId r with
  | Some k' => String.eqb k' k
  | None => false
  end.

(** The record found at id [k] in a list of records. *)
Definition findById (k : string) (l : list review) : option review :=
  find (hasId k) l.

(** The last record of [l] that carries the id [k]. *)
Definition lastWithId (k : string) (l : list review) : option review :=
  find (hasId k) (rev l).

(** The non-empty ids of a list of records. *)
Definition idsOf (l : list review) : list (option string) :=
  filter truthy (map reviewId l).

(** A snapshot as the merge leaves it: every record has a non-empty
    id and no id occurs twice. *)
Definition wellKeyed (l : list review) : Prop :=
  Forall (fun r => truthy (reviewId r) = true) l /\ NoDup (map reviewId l).

(** The entries a well-keyed list stands for. *)
Definition entryOf (r : review) : string * review :=
  (propertyKey (reviewId r), r).

(** What the loops keep true of the map: an entry sits under its own
    record's id, that id is not empty, and no key occurs twice. *)
Definition keyed (m : JsMap.t) : Prop :=
  Forall (fun e => reviewId (snd e) = Some (fst e) /\ fst e <> "") m
  /\ NoDup (JsMap.keys m).

(** The map as it stands when the second loop is over. *)
Definition mapOf (cachedReviews newReviews : list review) : JsMap.t :=
  forEach_set newReviews (forEach_set cachedReviews JsMap.empty).

Section SearchVocabulary.
Variable A : Type.
Variable comparefn : A -> A -> option Z.
(** [inOrder x y]: with [x] in front of [y] the sort sees no descent,
    [Compare(y, x) >= 0]. *)
Definition inOrder (x y : A) : Prop := 0 <= SortCompare comparefn y x.

(** [key] may stand behind the elements [front], and in front of the
    elements [back]. *)
Definition allowsAfter (front : list A) (key : A) : Prop :=
  forall f z, front = f ++ [z] -> inOrder z key.
Definition allowsBefore (key : A) (back : list A) : Prop :=
  forall x t, back = x :: t -> inOrder key x.
Definition fits (l : list A) (key : A) (k : Z) : Prop :=
  0 <= k <= Z.of_nat (List.length l)
  /\ allowsAfter (firstn (Z.to_nat k) l) key
  /\ allowsBefore key (skipn (Z.to_nat k) l).
End SearchVocabulary.

Section MergeVocabulary.
Variable A : Type.
Variable comparefn : A -> A -> option Z.
(** What holds of [MergeLow] between two steps: [placed] are the
    elements in front of [dest], [a] and [b] what is left of the two
    runs, [back] the elements behind run B. *)
Definition lowInv (placed a b back : list A) : Prop :=
  Sorted (inOrder comparefn) (placed ++ a)
  /\ Sorted (inOrder comparefn) (placed ++ b)
  /\ Sorted (inOrder comparefn) (a ++ back)
  /\ Sorted (inOrder comparefn) (b ++ back)
  /\ (forall a' z, a = a' ++ [z] -> Sorted (inOrder comparefn) (b ++ [z])).
(** And of [MergeHigh]: [front] are the elements in front of run A,
    [placed] those behind [dest]. *)
Definition highInv (front a b placed : list A) : Prop :=
  Sorted (inOrder comparefn) (a ++ placed)
  /\ Sorted (inOrder comparefn) (b ++ placed)
  /\ Sorted (inOrder comparefn) (front ++ a)
  /\ Sorted (inOrder comparefn) (front ++ b)
  /\ (forall y b', b = y :: b' -> Sorted (inOrder comparefn) (y :: a)).
End MergeVocabulary.

Section StackVocabulary.
Variable A : Type.
Variable comparefn : A -> A -> option Z.
(** A pending run: some elements with no descent. *)
Definition isRun (r : list A) : Prop := r <> [] /\ Sorted (inOrder comparefn) r.
(** The elements of the array that the pending runs cover, in the
    order of the array. *)
Definition covered (pendingRuns : list (list A)) : list A := List.concat (rev pendingRuns).
End StackVocabulary.

Section SortVocabulary.
Variable A : Type.
Variable comparefn : A -> A -> option Z.
Variable key : A -> Z.

(** On the elements of [l] the comparator is the difference of a
    numeric key, larger keys first. *)
Definition keyed_on (l : list A) : Prop :=
  forall x y, In x l -> In y l -> comparefn x y = Some (key y - key x).

Definition descending (x y : A) : Prop := key y <= key x.
End SortVocabulary.

(** A run of merges from a cached list. *)
Definition mergeAll (Date_parse : string -> option Z)
    (cached : list review) (batches : list (list review)) : list review :=
  fold_left (mergeReviews Date_parse) batches cached.

(** The time value the comparator sees for a record with a valid
    date. *)
Definition timeOf (Date_parse : string -> option Z) (r : review) : Z :=
  match dateOf Date_parse r with
  | Some t => t
  | None => 0
  end.

(** Newest first, as far as dates can be read: of two records with
    valid dates the one in front is not the older. *)
Definition parseableDescending (Date_parse : string -> option Z)
    (l : list review) : Prop :=
  ForallOrdPairs
    (fun a b => forall ta tb,
       dateOf Date_parse a = Some ta -> dateOf Date_parse b = Some tb -> tb <= ta)
    l.

(** The star mapping and the average as the specification words
    them: FIVE to 5, FOUR to 4, THREE to 3, TWO to 2, ONE to 1, any
    other value to 0; the sum over the records divided by their
    number, and 0 for no records. *)
Definition spec_starValue (r : review) : Z :=
  match starRating r with
  | Some s =>
      if String.eqb s "FIVE" then 5
      else if String.eqb s "FOUR" then 4
      else if String.eqb s "THREE" then 3
      else if String.eqb s "TWO" then 2
      else if String.eqb s "ONE" then 1
      else 0
  | None => 0
  end.

Definition spec_ratingSum (l : list review) : Z :=
  fold_right Z.add 0 (map spec_starValue l).

Definition spec_averageRating (l : list review) : Q :=
  match l with
  | [] => 0%Q
  | _ :: _ => (inject_Z (spec_ratingSum l) / inject_Z (Z.of_nat (List.length l)))%Q
  end.

(** The rating of [r] names a member of [Object.prototype]. *)
Definition inheritedRating (r : review) : bool :=
  existsb (String.eqb (propertyKey (starRating r))) Object_prototype_names.

(** What a run of the handler sent: the status and the payload, if a
    payload was sent. *)
Definition sent (outcome : result response * FileState) : option (nat * payload) :=
  match outcome with
  | (Ok (mkResponse st (Payload p)), _) => Some (st, p)
  | _ => None
  end.

(** ** Worked inputs *)

Module Sample.

(** One review, first as cached and then as edited upstream. *)
Definition r1_four : review :=
  mkReview (Some "r1") (Some "2024-05-01") (Some "FOUR") [("comment", "good")].
Definition r1_five : review :=
  mkReview (Some "r1") (Some "2024-05-01") (Some "FIVE") [("comment", "great")].

Definition a : review := mkReview (Some "a") (Some "2024-01-01") (Some "FIVE") [].
Definition b : review := mkReview (Some "b") (Some "2025-06-01") (Some "FIVE") [].
Definition c : review := mkReview (Some "c") (Some "2023-03-03") (Some "ONE") [].

(** Records with a date that cannot be read, and with no id. *)
Definition undated : review := mkReview (Some "u") None (Some "THREE") [].
Definition anonymous : review := mkReview None (Some "2024-01-01") (Some "FIVE") [].

(** A rating that names a member of [Object.prototype]. *)
Definition odd : review := mkReview (Some "o") (Some "2024-01-01") (Some "constructor") [].

(** A request with the location configured, Google's location lookup
    failing, the disk writable, at a fixed instant. *)
Definition request (fetched : result (option (list review))) : Request :=
  mkRequest (Some "locations/123") None "2026-02-01T00:00:00.000Z"
            fetched (Throw (Error "location lookup failed")) true false.

Definition fetchFailure : result (option (list review)) :=
  Throw (Error "Request failed with status code 503").

(** A cache file holding the given records, last stamped in January. *)
Definition cacheFile (l : list review) : FileState :=
  Content (Json (DocObject (Some l) (Some "2026-01-01T00:00:00.000Z"))).

End Sample.

(** ** The key check and the pass-through routes

    [/accounts] and [/locations] sit behind [requireApiKey] and hand
    on what Google answers. *)

(** A query parameter as Express parses it: absent, a string, or an
    array or object ([?key[]=...]). *)
Inductive queryValue : Type :=
| QueryAbsent
| QueryString (s : string)
| QueryStructured.

Definition default_API_KEY : string := "change-me-in-vercel".

(** [const API_KEY = process.env.API_KEY || "change-me-in-vercel"] *)
Definition API_KEY (env_API_KEY : option string) : string :=
  match env_API_KEY with
  | Some k => if truthy (Some k) then k else default_API_KEY
  | None => default_API_KEY
  end.

(** [key === API_KEY]: only a string is strictly equal to a string. *)
Definition strictEq (key : queryValue) (s : string) : bool :=
  match key with
  | QueryString k => String.eqb k s
  | QueryAbsent | QueryStructured => false
  end.

(** The requests a route sends to Google. *)
Inductive apiCall : Type :=
| AccountsList
| LocationsList (parent : string) (pageSize : nat) (readMask : string).

(** An error thrown by a client call: [err.response.data] when the
    server answered, and [err.message]. *)
Record apiFailure : Type := mkApiFailure {
  response_data : option string;
  err_message : string
}.

(** Google's side: each call answers with [response.data] or throws. *)
Definition Upstream : Type := apiCall -> apiFailure + string.

Inductive apiBody : Type :=
| ApiError (msg : string)
| ApiData (data : string).

Record apiResponse : Type := mkApiResponse {
  api_status : nat;
  api_body : apiBody
}.

(** A route's outcome: the response and the calls made to Google, in
    order. *)
Definition Routed : Type := (apiResponse * list apiCall)%type.

(** [err.response?.data || err.message] *)
Definition errorDetail (e : apiFailure) : string :=
  match response_data e with
  | Some d => if truthy (Some d) then d else err_message e
  | None => err_message e
  end.

Definition requireApiKey (env_API_KEY : option string) (key : queryValue)
    (next : Routed) : Routed :=
  if negb (strictEq key (API_KEY env_API_KEY))
  then (mkApiResponse 403 (ApiError "Access denied"), [])
  else next.

(** [await client...list(...)] inside [try], with the [catch] of the
    two routes. *)
Definition passThrough (upstream : Upstream) (call : apiCall) : Routed :=
  match upstream call with
  | inr data => (mkApiResponse 200 (ApiData data), [call])
  | inl err => (mkApiResponse 500 (ApiError (errorDetail err)), [call])
  end.

Definition accounts_route (env_API_KEY : option string) (key : queryValue)
    (upstream : Upstream) : Routed :=
  requireApiKey env_API_KEY key (passThrough upstream AccountsList).

Definition locations_route (env_API_KEY ACCOUNT_NAME : option string)
    (key : queryValue) (upstream : Upstream) : Routed :=
  requireApiKey env_API_KEY key
    (match ACCOUNT_NAME with
     | Some parent =>
         if negb (truthy (Some parent))
         then (mkApiResponse 400 (ApiError "ACCOUNT_NAME not configured"), [])
         else passThrough upstream
                (LocationsList parent 100 "name,title,storefrontAddress")
     | None => (mkApiResponse 400 (ApiError "ACCOUNT_NAME not configured"), [])
     end).

(** ** The /reviews handler before the cache

    The version of the handler with the calculated metrics and no
    cache file: a failed fetch goes to the outer [catch].  There the
    [message] of the error stands for what
    [err.response?.data || err.message] gives. *)




(** ** More vocabulary *)

(** The records of a cache document, none when it has no array. *)
Definition docReviews (doc : cacheDoc) : list review :=
  match doc with
  | DocObject (Some l) _ => l
  | DocObject None _ => []
  | DocNull => []
  end.

(** The status of the response a run sent, if it sent one. *)
Definition statusOf (outcome : result response * FileState) : option nat :=
  match outcome with
  | (Ok r, _) => Some (status r)
  | (Throw _, _) => None
  end.

(** The reviews of the payload a run sent. *)
Definition reviewsOf (outcome : result response * FileState) : option (list review) :=
  option_map (fun sp => reviews (snd sp)) (sent outcome).

(** A payload without the two fields the location lookup supplies. *)
Definition withoutLocation (p : payload) : payload :=
  {| p_error := p_error p;
     reviews := reviews p;
     averageRating := averageRating p;
     totalReviewCount := totalReviewCount p;
     name := None;
     placeId := None;
     cached := cached p;
     info := info p |}.

(** The same request with another disk, another location answer,
    another fetch. *)
Definition withDisk (w : bool) (q : Request) : Request :=
  mkRequest (LOCATION_NAME q) (PLACE_ID q) (now q) (fetched q) (location q) w
            (writeTruncates q).

Definition withLocation (loc : result locationInfo) (q : Request) : Request :=
  mkRequest (LOCATION_NAME q) (PLACE_ID q) (now q) (fetched q) loc (diskWritable q)
            (writeTruncates q).

Definition withFetched (f : result (option (list review))) (q : Request) : Request :=
  mkRequest (LOCATION_NAME q) (PLACE_ID q) (now q) f (location q) (diskWritable q)
            (writeTruncates q).

(** The file after a series of requests. *)
Definition serveAll (Date_parse : string -> option Z)
    (requests : list Request) (fs : FileState) : FileState :=
  fold_left (fun fs q => snd (reviews_route Date_parse q fs)) requests fs.

(** The non-empty ids of a list in order of first appearance, those
    in [seen] left out. *)
Fixpoint firstSeen (seen : list string) (l : list review) : list string :=
  match l with
  | [] => []
  | r :: l' =>
      match reviewId r with
      | Some k =>
          if truthy (Some k) && negb (existsb (String.eqb k) seen)
          then k :: firstSeen (k :: seen) l'
          else firstSeen seen l'
      | None => firstSeen seen l'
      end
  end.

(** The number of distinct non-empty ids of a list. *)
Definition distinctIds (l : list review) : nat :=
  List.length (nodup string_dec (map propertyKey (idsOf l))).

(** The file after the write of [text]. *)
Definition fileAfterWrite (q : Request) (text : fileText) (fs : FileState) : FileState :=
  if diskWritable q then Content text
  else if writeTruncates q then Content Malformed
  else fs.

(** The same request with another outcome of the write. *)
Definition withWrite (writable truncates : bool) (q : Request) : Request :=
  mkRequest (LOCATION_NAME q) (PLACE_ID q) (now q) (fetched q) (location q)
            writable truncates.

(** The handler from the merge on, for a request that loaded [cache]
    and then awaited Google: [saveCache] meets the file as it is when
    the fetch is back, which another request may have written in the
    meantime.  [reviews_route] is the case where nothing was written
    in between. *)
Definition reviews_resume (Date_parse : string -> option Z) (q : Request)
    (cache : cacheDoc) : M response :=
  let newReviews :=
    match fetched q with Ok data => orEmpty data | Throw _ => [] end in
  let fetchError :=
    match fetched q with Ok _ => None | Throw err => Some err end in
  cachedReviews <- get_reviews cache ;;
  allReviews <- call_mergeReviews Date_parse cachedReviews newReviews ;;
  saveCache (diskWritable q) (writeTruncates q)
    (DocObject (Some allReviews) (Some (now q))) ;;;
  let locationInfo :=
    match location q with
    | Ok data => data
    | Throw _ => mkLocationInfo None None
    end in
  let totalReviewCount := List.length allReviews in
  let averageRating := averageRatingOf allReviews in
  let placeId := orElse (PLACE_ID q) (orElse (metadata_placeId locationInfo) None) in
  let businessName := orElse (title locationInfo) (Some "Our Business") in
  cache_lastUpdated <- get_lastUpdated cache ;;
  ret (mkResponse 200 (Payload {|
    p_error := None;
    reviews := allReviews;
    averageRating := averageRating;
    totalReviewCount := totalReviewCount;
    name := businessName;
    placeId := Some placeId;
    cached := match fetchError with Some _ => true | None => false end;
    info := {| totalCached := List.length allReviews;
               newFromGoogle := List.length newReviews;
               lastUpdated := cache_lastUpdated |}
  |})).

Definition reviews_overlapped (Date_parse : string -> option Z) (q : Request)
    (cache : cacheDoc) : M response :=
  try_catch (reviews_resume Date_parse q cache) reviews_catch.

(** The write of the request does not fail after truncating the
    file. *)
Definition writeIsClean (q : Request) : Prop :=
  diskWritable q = false -> writeTruncates q = false.

(** A cache file as the handler leaves it: it loads as a document with
    a [reviews] array whose records have non-empty, distinct ids. *)
Definition handlerWritten (fs : FileState) : Prop :=
  exists l lu, persisted fs = DocObject (Some l) lu /\ wellKeyed l.

(** What the fetch contributed to a request: the fetched records, none
    when the fetch threw or the answer had no [reviews]. *)
Definition newReviewsOf (q : Request) : list review :=
  match fetched q with
  | Ok data => orEmpty data
  | Throw _ => []
  end.

(** The payload of the 200 answer for a cache holding [l], stamped
    [lu]. *)
Definition servedPayload (Date_parse : string -> option Z) (q : Request)
    (l : list review) (lu : option string) : payload :=
  let allReviews := mergeReviews Date_parse l (newReviewsOf q) in
  let locationInfo :=
    match location q with
    | Ok data => data
    | Throw _ => mkLocationInfo None None
    end in
  {| p_error := None;
     reviews := allReviews;
     averageRating := averageRatingOf allReviews;
     totalReviewCount := List.length allReviews;
     name := orElse (title locationInfo) (Some "Our Business");
     placeId := Some (orElse (PLACE_ID q) (orElse (metadata_placeId locationInfo) None));
     cached := match fetched q with Ok _ => false | Throw _ => true end;
     info := {| totalCached := List.length allReviews;
                newFromGoogle := List.length (newReviewsOf q);
                lastUpdated := lu |} |}.

(** The payload of the 500 answer. *)
Definition degradedPayload (msg : string) (rv : option (list review))
    (lu : option string) : payload :=
  {| p_error := Some msg;
     reviews := orEmpty rv;
     averageRating := Finite 0;
     totalReviewCount := List.length (orEmpty rv);
     name := None;
     placeId := None;
     cached := true;
     info := {| totalCached := List.length (orEmpty rv);
                newFromGoogle := 0;
                lastUpdated := lu |} |}.

(** The handler's outcome read off the configuration and the cache
    document: the table the handler is proved to follow. *)
Definition reviews_outcome (Date_parse : string -> option Z) (q : Request)
    (fs : FileState) : result response * FileState :=
  if negb (truthy (LOCATION_NAME q)) then
    (Ok (mkResponse 400 (ErrorOnly "LOCATION_NAME not configured")), fs)
  else
    match persisted fs with
    | DocNull =>
        (Throw (Error "Cannot read properties of null (reading 'reviews')"), fs)
    | DocObject None lu =>
        (Ok (mkResponse 500 (Payload (degradedPayload
               "Cannot read properties of undefined (reading 'forEach')" None lu))),
         fs)
    | DocObject (Some l) lu =>
        (Ok (mkResponse 200 (Payload (servedPayload Date_parse q l lu))),
         fileAfterWrite q
           (Json (DocObject (Some (mergeReviews Date_parse l (newReviewsOf q)))
                            (Some (now q))))
           fs)
    end.

Module Sample2.

Definition u1 : review := mkReview (Some "u1") None (Some "FOUR") [].
Definition u2 : review := mkReview (Some "u2") (Some "soon") (Some "TWO") [].
Definition u1_edited : review := mkReview (Some "u1") None (Some "ONE") [("comment", "changed")].

(** Google answering every call with a fixed text. *)
Definition answering (data : string) : Upstream := fun _ => inr data.

End Sample2.

(** * Properties *)

Unset Implicit Arguments.

(** ** The map *)

Module JsMapFacts.
Import JsMap.

Lemma get_set_same k v m : get k (set k v m) = Some v.
Proof.
  induction m as [|[k' v'] m IH]; simpl.
  - now rewrite String.eqb_refl.
  - destruct (String.eqb k' k) eqn:E; simpl.
    + now rewrite String.eqb_refl.
    + now rewrite E.
Qed.

Lemma get_set_other k k' v m : k <> k' -> get k' (set k v m) = get k' m.
Proof.
  intros Hne.
  induction m as [|[k0 v0] m IH]; simpl.
  - destruct (String.eqb_spec k k'); [contradiction|reflexivity].
  - destruct (String.eqb_spec k0 k) as [->|Hk]; simpl.
    + destruct (String.eqb_spec k k'); [contradiction|reflexivity].
    + now rewrite IH.
Qed.

Lemma keys_set_present k v m : In k (keys m) -> keys (set k v m) = keys m.
Proof.
  induction m as [|[k0 v0] m IH]; simpl; [tauto|].
  intros H. destruct (String.eqb_spec k0 k) as [->|Hk]; simpl; [reflexivity|].
  f_equal. apply IH. destruct H; [contradiction|assumption].
Qed.

Lemma keys_set_absent k v m : ~ In k (keys m) -> keys (set k v m) = keys m ++ [k].
Proof.
  induction m as [|[k0 v0] m IH]; simpl; [reflexivity|].
  intros H. destruct (String.eqb_spec k0 k) as [->|Hk]; simpl.
  - exfalso. apply H. now left.
  - f_equal. apply IH. tauto.
Qed.

Lemma keys_set_incl k v m : incl (keys m) (keys (set k v m)).
Proof.
  destruct (in_dec string_dec k (keys m)) as [Hin|Hout].
  - rewrite keys_set_present by assumption. apply incl_refl.
  - rewrite keys_set_absent by assumption. apply incl_appl, incl_refl.
Qed.

Lemma keys_set_in k v m : In k (keys (set k v m)).
Proof.
  destruct (in_dec string_dec k (keys m)) as [Hin|Hout].
  - now rewrite keys_set_present.
  - rewrite keys_set_absent by assumption. apply in_or_app. right. now left.
Qed.

Lemma NoDup_keys_set k v m : NoDup (keys m) -> NoDup (keys (set k v m)).
Proof.
  intros Hnd.
  destruct (in_dec string_dec k (keys m)) as [Hin|Hout].
  - now rewrite keys_set_present.
  - rewrite keys_set_absent by assumption.
    apply NoDup_app; [assumption| repeat constructor; simpl; tauto |].
    intros x Hx [<-|[]]. contradiction.
Qed.

Lemma get_None_iff k m : get k m = None <-> ~ In k (keys m).
Proof.
  induction m as [|[k0 v0] m IH]; simpl; [tauto|].
  destruct (String.eqb_spec k0 k) as [->|Hk].
  - split; [discriminate|]. intros H. exfalso. apply H. now left.
  - rewrite IH. tauto.
Qed.

Lemma get_Some_In k v m : get k m = Some v -> In (k, v) m.
Proof.
  induction m as [|[k0 v0] m IH]; simpl; [discriminate|].
  destruct (String.eqb_spec k0 k) as [->|Hk].
  - intros [= ->]. now left.
  - intros H. right. now apply IH.
Qed.

Lemma In_get k v m : NoDup (keys m) -> In (k, v) m -> get k m = Some v.
Proof.
  induction m as [|[k0 v0] m IH]; simpl; [tauto|].
  intros Hnd [[= -> ->]|Hin].
  - now rewrite String.eqb_refl.
  - inversion Hnd as [|? ? Hout Hnd']; subst.
    destruct (String.eqb_spec k0 k) as [->|Hk].
    + exfalso. apply Hout. change k with (fst (k, v)). now apply in_map.
    + now apply IH.
Qed.

(** Two maps with the same keys in the same order and the same value
    at each key are the same map. *)
Lemma ext m m' :
  keys m = keys m' -> NoDup (keys m) ->
  (forall k, In k (keys m) -> get k m = get k m') -> m = m'.
Proof.
  revert m'. induction m as [|[k v] m IH]; intros [|[k' v'] m']; simpl;
    try discriminate; [reflexivity|].
  intros [= <- Hk] Hnd Hget. inversion Hnd as [|? ? Hout Hnd']; subst.
  assert (v = v') as <-.
  { specialize (Hget k (or_introl eq_refl)). rewrite String.eqb_refl in Hget.
    now injection Hget. }
  f_equal. apply IH; [assumption|assumption|].
  intros k0 Hin. specialize (Hget k0 (or_intror Hin)).
  destruct (String.eqb_spec k k0) as [->|Hne]; [contradiction|assumption].
Qed.

End JsMapFacts.

(** ** The two [forEach] loops *)

Section Loops.
Import JsMap JsMapFacts.

Lemma truthy_Some k : truthy (Some k) = true <-> k <> "".
Proof.
  simpl. destruct (String.eqb_spec k ""); simpl; split; congruence.
Qed.

Lemma truthy_inv v : truthy v = true -> exists k, v = Some k /\ k <> "".
Proof.
  destruct v as [k|]; [|discriminate].
  intros H. exists k. split; [reflexivity|now apply truthy_Some].
Qed.

Lemma hasId_true k r : hasId k r = true <-> reviewId r = Some k.
Proof.
  unfold hasId. destruct (reviewId r) as [k'|].
  - destruct (String.eqb_spec k' k); split; congruence.
  - split; discriminate.
Qed.

Lemma setReview_skip m r : truthy (reviewId r) = false -> setReview m r = m.
Proof.
  unfold setReview. destruct (reviewId r); [|reflexivity]. now intros ->.
Qed.

Lemma setReview_set m r k :
  reviewId r = Some k -> k <> "" -> setReview m r = set k r m.
Proof.
  intros Hid Hk. unfold setReview. rewrite Hid.
  now rewrite (proj2 (truthy_Some k) Hk).
Qed.

Lemma Forall_set (P : string * review -> Prop) k v m :
  P (k, v) -> Forall P m -> Forall P (set k v m).
Proof.
  intros Hp. induction 1 as [|[k0 v0] m H0 Hm IH]; simpl.
  - now constructor.
  - destruct (String.eqb k0 k); constructor; assumption.
Qed.

Lemma keyed_empty : keyed empty.
Proof. split; constructor. Qed.

Lemma keyed_setReview m r : keyed m -> keyed (setReview m r).
Proof.
  intros [Hall Hnd].
  destruct (truthy (reviewId r)) eqn:Ht.
  - destruct (truthy_inv _ Ht) as (k & Hid & Hk).
    rewrite (setReview_set m r k Hid Hk). split.
    + apply Forall_set; [simpl; tauto|assumption].
    + now apply NoDup_keys_set.
  - now rewrite setReview_skip.
Qed.

Lemma keyed_forEach l : forall m, keyed m -> keyed (forEach_set l m).
Proof.
  induction l as [|r l IH]; intros m Hm; simpl; [assumption|].
  apply IH. now apply keyed_setReview.
Qed.

Lemma get_setReview k r m :
  k <> "" ->
  get k (setReview m r) = if hasId k r then Some r else get k m.
Proof.
  intros Hk.
  destruct (truthy (reviewId r)) eqn:Ht.
  - destruct (truthy_inv _ Ht) as (k' & Hid & Hk').
    rewrite (setReview_set m r k' Hid Hk'). unfold hasId. rewrite Hid.
    destruct (String.eqb_spec k' k) as [->|Hne].
    + apply get_set_same.
    + now apply get_set_other.
  - rewrite setReview_skip by assumption.
    destruct (hasId k r) eqn:Hh; [|reflexivity].
    apply hasId_true in Hh. rewrite Hh in Ht.
    now rewrite (proj2 (truthy_Some k) Hk) in Ht.
Qed.

Lemma find_app (A : Type) (f : A -> bool) (l1 l2 : list A) :
  find f (l1 ++ l2) = match find f l1 with Some x => Some x | None => find f l2 end.
Proof.
  induction l1 as [|a l1 IH]; simpl; [reflexivity|].
  now destruct (f a).
Qed.

Lemma lastWithId_cons k r l :
  lastWithId k (r :: l) =
  match lastWithId k l with
  | Some x => Some x
  | None => if hasId k r then Some r else None
  end.
Proof.
  unfold lastWithId. simpl. rewrite find_app. simpl.
  now destruct (hasId k r).
Qed.

(** After a loop over [l], the entry at a non-empty key is the last
    record of [l] with that id, or what the map held before. *)
Lemma get_forEach k l : forall m,
  k <> "" ->
  get k (forEach_set l m) =
  match lastWithId k l with
  | Some r => Some r
  | None => get k m
  end.
Proof.
  induction l as [|r l IH]; intros m Hk; simpl; [reflexivity|].
  change (fold_left setReview l (setReview m r)) with (forEach_set l (setReview m r)).
  rewrite IH by assumption. rewrite lastWithId_cons.
  destruct (lastWithId k l); [reflexivity|].
  rewrite get_setReview by assumption. now destruct (hasId k r).
Qed.

Lemma keys_setReview_incl m r : incl (keys m) (keys (setReview m r)).
Proof.
  unfold setReview. destruct (reviewId r) as [k|]; [|apply incl_refl].
  destruct (truthy (Some k)); [apply keys_set_incl|apply incl_refl].
Qed.

Lemma keys_forEach_incl l : forall m, incl (keys m) (keys (forEach_set l m)).
Proof.
  induction l as [|r l IH]; intros m; simpl; [apply incl_refl|].
  eapply incl_tran; [apply keys_setReview_incl|apply IH].
Qed.

(** A loop over records whose ids are all in the map already leaves
    the keys, and their order, as they were. *)
Lemma keys_forEach_present l : forall m,
  (forall r k, In r l -> reviewId r = Some k -> k <> "" -> In k (keys m)) ->
  keys (forEach_set l m) = keys m.
Proof.
  induction l as [|r l IH]; intros m H; simpl; [reflexivity|].
  change (fold_left setReview l (setReview m r)) with (forEach_set l (setReview m r)).
  assert (Hk : keys (setReview m r) = keys m).
  { destruct (truthy (reviewId r)) eqn:Ht.
    - destruct (truthy_inv _ Ht) as (k & Hid & Hk).
      rewrite (setReview_set m r k Hid Hk). apply keys_set_present.
      apply (H r k); [now left|assumption|assumption].
    - now rewrite setReview_skip. }
  rewrite IH; [assumption|].
  intros r' k Hin Hid Hne. rewrite Hk. apply (H r' k); [now right|assumption|assumption].
Qed.

Lemma lastWithId_Some k l r :
  lastWithId k l = Some r -> In r l /\ reviewId r = Some k.
Proof.
  unfold lastWithId. intros H. apply find_some in H as [Hin Hh].
  split; [now apply in_rev|now apply hasId_true].
Qed.

Lemma lastWithId_None k l :
  lastWithId k l = None <-> (forall r, In r l -> reviewId r <> Some k).
Proof.
  unfold lastWithId. split.
  - intros H r Hin Hid.
    pose proof (find_none _ _ H r (proj1 (in_rev l r) Hin)) as Hf.
    apply hasId_true in Hid. congruence.
  - intros H. destruct (find (hasId k) (rev l)) as [r|] eqn:E; [|reflexivity].
    apply find_some in E as [Hin Hh]. apply hasId_true in Hh.
    exfalso. apply (H r); [now apply in_rev|assumption].
Qed.

(** Every record of the loop with a non-empty id has its id among the
    keys afterwards. *)
Lemma keys_forEach_in l m r k :
  In r l -> reviewId r = Some k -> k <> "" -> In k (keys (forEach_set l m)).
Proof.
  intros Hin Hid Hk.
  destruct (get k (forEach_set l m)) eqn:E.
  - apply get_Some_In in E. change k with (fst (k, r0)). now apply in_map.
  - rewrite get_forEach in E by assumption.
    destruct (lastWithId k l) eqn:El; [discriminate|].
    exfalso. exact (proj1 (lastWithId_None k l) El r Hin Hid).
Qed.

End Loops.

(** ** The sort *)

Section SortChains.
Context {A : Type} {R : A -> A -> Prop}.

Lemma Sorted_app_l p q : Sorted R (p ++ q) -> Sorted R p.
Proof.
  induction p as [|x p IH]; intros H; [constructor|].
  inversion H as [|? ? Hs Hd]; subst. constructor; [now apply IH|].
  destruct p; [constructor|]. inversion Hd; subst. now constructor.
Qed.

Lemma Sorted_app_r p q : Sorted R (p ++ q) -> Sorted R q.
Proof.
  induction p as [|x p IH]; intros H; [assumption|].
  inversion H; subst. now apply IH.
Qed.

Lemma Sorted_join p x q : Sorted R (p ++ [x]) -> Sorted R (x :: q) -> Sorted R (p ++ x :: q).
Proof.
  induction p as [|y p IH]; intros Hp Hq; [assumption|].
  simpl in *. inversion Hp as [|? ? Hs Hd]; subst.
  constructor; [now apply IH|].
  destruct p; simpl in *; inversion Hd; subst; now constructor.
Qed.

Lemma Sorted_overlap p a q :
  a <> [] -> Sorted R (p ++ a) -> Sorted R (a ++ q) -> Sorted R (p ++ a ++ q).
Proof.
  intros Ha Hp Hq. destruct a as [|x a]; [congruence|].
  simpl. apply Sorted_join; [|assumption].
  apply Sorted_app_l with a. now rewrite <- app_assoc.
Qed.

Lemma Sorted_cons2 x y l : R x y -> Sorted R (y :: l) -> Sorted R (x :: y :: l).
Proof. intros. constructor; [assumption|now constructor]. Qed.

Lemma Sorted_cons2_inv x y l : Sorted R (x :: y :: l) -> R x y.
Proof. intros H. inversion H as [|? ? _ Hd]; subst. now inversion Hd. Qed.

Lemma Sorted_tail x l : Sorted R (x :: l) -> Sorted R l.
Proof. intros H. now inversion H. Qed.

Lemma Sorted_snoc2_inv p x y : Sorted R (p ++ [x; y]) -> R x y.
Proof. intros H. apply Sorted_app_r in H. now apply Sorted_cons2_inv in H. Qed.

End SortChains.

Section SortLists.
Context {A : Type}.

Lemma unsnoc_app (l : list A) z : unsnoc (l ++ [z]) = Some (l, z).
Proof.
  induction l as [|x l IH]; [reflexivity|].
  simpl. now rewrite IH.
Qed.

Lemma unsnoc_Some (l f : list A) z : unsnoc l = Some (f, z) -> l = f ++ [z].
Proof.
  revert f. induction l as [|x l IH]; intros f H; [discriminate|].
  simpl in H. destruct (unsnoc l) as [[f' z']|] eqn:E.
  - injection H as <- <-. simpl. f_equal. now apply IH.
  - injection H as <- <-. destruct l; [reflexivity|].
    simpl in E. destruct (unsnoc l) as [[? ?]|]; discriminate.
Qed.

Lemma unsnoc_None (l : list A) : unsnoc l = None -> l = [].
Proof.
  destruct l as [|x l]; [reflexivity|].
  simpl. destruct (unsnoc l) as [[? ?]|]; discriminate.
Qed.

Lemma snoc_cases (l : list A) : l = [] \/ exists f z, l = f ++ [z].
Proof.
  destruct (unsnoc l) as [[f z]|] eqn:E.
  - right. exists f, z. now apply unsnoc_Some.
  - left. now apply unsnoc_None.
Qed.

Lemma unsnoc_cases (l : list A) :
  (l = [] /\ unsnoc l = None) \/ exists f z, l = f ++ [z] /\ unsnoc l = Some (f, z).
Proof.
  destruct (unsnoc l) as [[f z]|] eqn:E.
  - right. exists f, z. split; [now apply unsnoc_Some|reflexivity].
  - left. split; [now apply unsnoc_None|reflexivity].
Qed.

Lemma firstn_snoc_nth (l f : list A) z d k :
  (k <= List.length l)%nat ->
  firstn k l = f ++ [z] -> nth (k - 1) l d = z /\ (1 <= k)%nat.
Proof.
  revert l f. induction k as [|k IH]; intros l f Hk H.
  - simpl in H. destruct f; discriminate.
  - destruct l as [|x l]; [destruct f; discriminate|].
    simpl in H, Hk. destruct f as [|y f].
    + injection H as <- H. destruct k.
      * split; [reflexivity|lia].
      * destruct l; [simpl in Hk; lia|discriminate].
    + injection H as <- H. destruct (IH l f ltac:(lia) H) as [Hn Hk'].
      split; [|lia]. replace (S k - 1)%nat with (S (k - 1)) by lia. exact Hn.
Qed.

Lemma skipn_cons_nth (l t : list A) x d k : skipn k l = x :: t -> nth k l d = x.
Proof.
  revert l. induction k as [|k IH]; intros l H.
  - simpl in H. now subst.
  - destruct l as [|y l]; [discriminate|]. simpl in *. now apply IH.
Qed.

End SortLists.

Section SortSearches.

Lemma half_bounds lo hi : lo < hi ->
  lo <= lo + Z.shiftr (hi - lo) 1 < hi.
Proof.
  intros H. rewrite Z.shiftr_div_pow2 by lia. change (2 ^ 1) with 2.
  pose proof (Z.div_mod (hi - lo) 2 ltac:(lia)).
  pose proof (Z.mod_pos_bound (hi - lo) 2 ltac:(lia)). lia.
Qed.

Lemma binary_loop_spec (toRight : Z -> bool) (PL PR : Z -> Prop) fuel :
  forall lo hi,
    lo <= hi -> hi - lo < Z.of_nat fuel ->
    (forall m, lo <= m < hi -> toRight m = true -> PL (m + 1)) ->
    (forall m, lo <= m < hi -> toRight m = false -> PR m) ->
    PL lo -> PR hi ->
    lo <= binary_loop toRight fuel lo hi <= hi
    /\ PL (binary_loop toRight fuel lo hi)
    /\ PR (binary_loop toRight fuel lo hi).
Proof.
  induction fuel as [|fuel IH]; intros lo hi Hle Hfuel HL HR Hlo Hhi; [simpl in Hfuel; lia|].
  cbn [binary_loop].
  destruct (Z.ltb_spec lo hi) as [Hlt|Hge].
  - pose proof (half_bounds lo hi Hlt) as Hm.
    set (m := lo + Z.shiftr (hi - lo) 1) in *.
    destruct (toRight m) eqn:E.
    + destruct (IH (m + 1) hi) as (H1 & H2 & H3); try lia.
      * intros m' Hm'. apply HL. lia.
      * intros m' Hm'. apply HR. lia.
      * now apply HL.
      * assumption.
      * repeat split; try assumption; lia.
    + destruct (IH lo m) as (H1 & H2 & H3); try lia.
      * intros m' Hm'. apply HL. lia.
      * intros m' Hm'. apply HR. lia.
      * assumption.
      * now apply HR.
      * repeat split; try assumption; lia.
  - assert (lo = hi) by lia. subst. repeat split; try assumption; lia.
Qed.

Lemma gallop_loop_spec (further : Z -> bool) maxOfs fuel :
  forall lastOfs offset,
    0 <= lastOfs < offset ->
    maxOfs - offset < Z.of_nat fuel ->
    let r := gallop_loop further maxOfs fuel lastOfs offset in
    lastOfs <= fst r < snd r
    /\ (fst r = lastOfs \/ (fst r < maxOfs /\ further (fst r) = true))
    /\ (maxOfs <= snd r \/ further (snd r) = false).
Proof.
  induction fuel as [|fuel IH]; intros lastOfs offset Hlo Hfuel; cbn [gallop_loop].
  - simpl in Hfuel. simpl. repeat split; try lia; auto.
  - destruct (Z.ltb_spec offset maxOfs) as [Hlt|Hge].
    + destruct (further offset) eqn:E.
      * rewrite Z.shiftl_mul_pow2 by lia. change (2 ^ 1) with 2.
        destruct (IH offset (offset * 2 + 1)) as (H1 & H2 & H3); try lia.
        cbv zeta. repeat split; try lia; [|assumption].
        destruct H2 as [->|H2]; [right; now split|now right].
      * simpl. repeat split; try lia; auto.
    + simpl. repeat split; try lia; auto.
Qed.

End SortSearches.

Section SortGallops.
Variable A : Type.
Variable comparefn : A -> A -> option Z.
Local Notation "'cmp'" := (SortCompare comparefn).
Local Notation "'ord'" := (inOrder comparefn).

(** What a search leaves: the answers it got at the two neighbours of
    the offset it returns. *)
Lemma search_fits (l : list A) (key : A) (toRight : Z -> bool) (k : Z) :
  0 <= k <= Z.of_nat (List.length l) ->
  (k = 0 \/ toRight (k - 1) = true) ->
  (k = Z.of_nat (List.length l) \/ toRight k = false) ->
  (forall i, 0 <= i < Z.of_nat (List.length l) ->
     toRight i = true -> ord (load l i key) key) ->
  (forall i, 0 <= i < Z.of_nat (List.length l) ->
     toRight i = false -> ord key (load l i key)) ->
  fits comparefn l key k.
Proof.
  intros Hk HL HR Ht Hf. split; [assumption|]. split.
  - intros f z E.
    destruct (firstn_snoc_nth l f z key (Z.to_nat k) ltac:(lia) E) as [Hn H1].
    destruct HL as [->|HL]; [simpl in H1; lia|].
    specialize (Ht (k - 1) ltac:(lia) HL). unfold load in Ht.
    replace (Z.to_nat (k - 1)) with (Z.to_nat k - 1)%nat in Ht by lia.
    now rewrite Hn in Ht.
  - intros x t E.
    pose proof (skipn_cons_nth l t x key (Z.to_nat k) E) as Hn.
    destruct HR as [->|HR].
    + rewrite Nat2Z.id, skipn_all in E. discriminate.
    + assert (k < Z.of_nat (List.length l)).
      { destruct (Z.eq_dec k (Z.of_nat (List.length l))) as [->|]; [|lia].
        rewrite Nat2Z.id, skipn_all in E. discriminate. }
      specialize (Hf k ltac:(lia) HR). unfold load in Hf. now rewrite Hn in Hf.
Qed.

Section Antisymmetric.
Hypothesis anti : forall x y, cmp x y < 0 -> 0 <= cmp y x.

Lemma GallopRight_fits (l : list A) (key : A) (hint : Z) :
  0 <= hint < Z.of_nat (List.length l) ->
  fits comparefn l key (GallopRight comparefn l key hint).
Proof.
  intros Hhint. unfold GallopRight. cbv zeta.
  set (len := Z.of_nat (List.length l)) in *.
  set (above := fun i => cmp key (load l i key) <? 0).
  set (toRight := fun m => negb (above m)).
  assert (Hgoal : forall lo hi,
            0 <= lo <= hi -> hi <= len ->
            (lo = 0 \/ above (lo - 1) = false) ->
            (hi = len \/ above hi = true) ->
            fits comparefn l key (binary_loop toRight (S (List.length l)) lo hi)).
  { intros lo hi Hlo Hhi HL HR.
    destruct (binary_loop_spec toRight
                (fun k => k = 0 \/ above (k - 1) = false)
                (fun k => k = len \/ above k = true)
                (S (List.length l)) lo hi) as (Hk & HPL & HPR); try lia; try assumption.
    - intros m _ Hm. right. replace (m + 1 - 1) with m by lia.
      unfold toRight in Hm. now destruct (above m).
    - intros m _ Hm. right. unfold toRight in Hm. now destruct (above m).
    - set (k := binary_loop toRight (S (List.length l)) lo hi) in *.
      apply search_fits with toRight; fold len; try lia.
      + destruct HPL as [?|HPL]; [now left|right]. unfold toRight. now rewrite HPL.
      + destruct HPR as [?|HPR]; [now left|right]. unfold toRight. now rewrite HPR.
      + intros i _ Hi. unfold toRight, above in Hi. unfold inOrder.
        destruct (Z.ltb_spec (cmp key (load l i key)) 0); [discriminate|assumption].
      + intros i _ Hi. unfold toRight, above in Hi. unfold inOrder. apply anti.
        destruct (Z.ltb_spec (cmp key (load l i key)) 0); [assumption|discriminate]. }
  destruct (cmp key (load l hint key) <? 0) eqn:Ehint;
    change (cmp key (load l hint key) <? 0) with (above hint) in Ehint.
  - pose proof (gallop_loop_spec (fun ofs => above (hint - ofs)) (hint + 1)
                  (S (List.length l)) 0 1 ltac:(lia) ltac:(lia)) as Hg.
    destruct (gallop_loop _ _ _ _ _) as [lastOfs offset]. cbn [fst snd] in Hg. cbv beta iota.
    destruct Hg as (H1 & H2 & H3).
    assert (Hlast : lastOfs < hint + 1 /\ above (hint - lastOfs) = true).
    { destruct H2 as [->|[? ?]]; [|now split].
      split; [lia|]. now replace (hint - 0) with hint by lia. }
    destruct Hlast as [Hl1 Hl2].
    destruct (Z.ltb_spec (hint + 1) offset) as [Hclip|Hclip]; cbv beta iota.
    + apply Hgoal; try lia; auto.
    + assert (HL : hint - offset + 1 = 0 \/ above (hint - offset + 1 - 1) = false).
      { destruct H3 as [H3|H3]; [left; lia|right].
        now replace (hint - offset + 1 - 1) with (hint - offset) by lia. }
      apply Hgoal; try lia; auto.
  - pose proof (gallop_loop_spec (fun ofs => negb (above (hint + ofs))) (len - hint)
                  (S (List.length l)) 0 1 ltac:(lia) ltac:(lia)) as Hg.
    destruct (gallop_loop _ _ _ _ _) as [lastOfs offset]. cbn [fst snd] in Hg. cbv beta iota.
    destruct Hg as (H1 & H2 & H3).
    assert (Hlast : lastOfs < len - hint /\ above (hint + lastOfs) = false).
    { destruct H2 as [->|[? H2]].
      - split; [lia|]. now replace (hint + 0) with hint by lia.
      - split; [assumption|]. now destruct (above (hint + lastOfs)). }
    destruct Hlast as [Hl1 Hl2].
    assert (HL : lastOfs + hint + 1 = 0 \/ above (lastOfs + hint + 1 - 1) = false).
    { right. now replace (lastOfs + hint + 1 - 1) with (hint + lastOfs) by lia. }
    destruct (Z.ltb_spec (len - hint) offset) as [Hclip|Hclip]; cbv beta iota.
    + apply Hgoal; try lia; auto.
    + assert (HR : offset + hint = len \/ above (offset + hint) = true).
      { destruct H3 as [H3|H3]; [left; lia|right].
        replace (offset + hint) with (hint + offset) by lia.
        now destruct (above (hint + offset)). }
      apply Hgoal; try lia; auto.
Qed.

Lemma GallopLeft_fits (l : list A) (key : A) (hint : Z) :
  0 <= hint < Z.of_nat (List.length l) ->
  fits comparefn l key (GallopLeft comparefn l key hint).
Proof.
  intros Hhint. unfold GallopLeft. cbv zeta.
  set (len := Z.of_nat (List.length l)) in *.
  set (below := fun i => cmp (load l i key) key <? 0).
  assert (Hgoal : forall lo hi,
            0 <= lo <= hi -> hi <= len ->
            (lo = 0 \/ below (lo - 1) = true) ->
            (hi = len \/ below hi = false) ->
            fits comparefn l key (binary_loop below (S (List.length l)) lo hi)).
  { intros lo hi Hlo Hhi HL HR.
    destruct (binary_loop_spec below
                (fun k => k = 0 \/ below (k - 1) = true)
                (fun k => k = len \/ below k = false)
                (S (List.length l)) lo hi) as (Hk & HPL & HPR); try lia; try assumption.
    - intros m _ Hm. right. now replace (m + 1 - 1) with m by lia.
    - intros m _ Hm. now right.
    - apply search_fits with below; fold len; try lia; try assumption.
      + intros i _ Hi. unfold below in Hi. unfold inOrder. apply anti.
        destruct (Z.ltb_spec (cmp (load l i key) key) 0); [assumption|discriminate].
      + intros i _ Hi. unfold below in Hi. unfold inOrder.
        destruct (Z.ltb_spec (cmp (load l i key) key) 0); [discriminate|assumption]. }
  destruct (cmp (load l hint key) key <? 0) eqn:Ehint;
    change (cmp (load l hint key) key <? 0) with (below hint) in Ehint.
  - pose proof (gallop_loop_spec (fun ofs => below (hint + ofs)) (len - hint)
                  (S (List.length l)) 0 1 ltac:(lia) ltac:(lia)) as Hg.
    destruct (gallop_loop _ _ _ _ _) as [lastOfs offset]. cbn [fst snd] in Hg. cbv beta iota.
    destruct Hg as (H1 & H2 & H3).
    assert (Hlast : lastOfs < len - hint /\ below (hint + lastOfs) = true).
    { destruct H2 as [->|[? ?]]; [|now split].
      split; [lia|]. now replace (hint + 0) with hint by lia. }
    destruct Hlast as [Hl1 Hl2].
    assert (HL : lastOfs + hint + 1 = 0 \/ below (lastOfs + hint + 1 - 1) = true).
    { right. now replace (lastOfs + hint + 1 - 1) with (hint + lastOfs) by lia. }
    destruct (Z.ltb_spec (len - hint) offset) as [Hclip|Hclip]; cbv beta iota.
    + apply Hgoal; try lia; auto.
    + assert (HR : offset + hint = len \/ below (offset + hint) = false).
      { destruct H3 as [H3|H3]; [left; lia|right].
        now replace (offset + hint) with (hint + offset) by lia. }
      apply Hgoal; try lia; auto.
  - pose proof (gallop_loop_spec (fun ofs => negb (below (hint - ofs))) (hint + 1)
                  (S (List.length l)) 0 1 ltac:(lia) ltac:(lia)) as Hg.
    destruct (gallop_loop _ _ _ _ _) as [lastOfs offset]. cbn [fst snd] in Hg. cbv beta iota.
    destruct Hg as (H1 & H2 & H3).
    assert (Hlast : lastOfs < hint + 1 /\ below (hint - lastOfs) = false).
    { destruct H2 as [->|[? H2]].
      - split; [lia|]. now replace (hint - 0) with hint by lia.
      - split; [assumption|]. now destruct (below (hint - lastOfs)). }
    destruct Hlast as [Hl1 Hl2].
    destruct (Z.ltb_spec (hint + 1) offset) as [Hclip|Hclip]; cbv beta iota.
    + apply Hgoal; try lia; auto.
    + assert (HL : hint - offset + 1 = 0 \/ below (hint - offset + 1 - 1) = true).
      { destruct H3 as [H3|H3]; [left; lia|right].
        replace (hint - offset + 1 - 1) with (hint - offset) by lia.
        now destruct (below (hint - offset)). }
      apply Hgoal; try lia; auto.
Qed.

End Antisymmetric.
End SortGallops.

Section SortRuns.
Variable A : Type.
Variable comparefn : A -> A -> option Z.
Local Notation "'cmp'" := (SortCompare comparefn).
Local Notation "'ord'" := (inOrder comparefn).
Local Notation "'chain'" := (Sorted (inOrder comparefn)).

Lemma chain_after p f key q :
  chain (p ++ f) -> chain (p ++ key :: q) -> allowsAfter comparefn f key ->
  chain (p ++ f ++ key :: q).
Proof.
  intros Hf Hq Hfit. destruct (snoc_cases f) as [->|(f' & z & ->)]; [assumption|].
  rewrite <- app_assoc, app_assoc. cbn [app]. apply Sorted_join.
  - now rewrite <- app_assoc.
  - apply Sorted_cons2; [now apply (Hfit f' z)|now apply Sorted_app_r in Hq].
Qed.

Lemma chain_before p key t :
  chain (p ++ [key]) -> chain t -> allowsBefore comparefn key t ->
  chain (p ++ key :: t).
Proof.
  intros Hp Ht Hfit. destruct t as [|x t]; [assumption|].
  apply Sorted_join; [assumption|].
  apply Sorted_cons2; [now apply (Hfit x t)|assumption].
Qed.

Lemma chain_insert f key t :
  chain (f ++ t) -> allowsAfter comparefn f key -> allowsBefore comparefn key t ->
  chain (f ++ key :: t).
Proof.
  intros H Ha Hb. apply chain_before; [| now apply Sorted_app_r in H | assumption].
  apply (chain_after [] f key []); [now apply Sorted_app_l in H| |assumption].
  repeat constructor.
Qed.

Lemma Sorted_rev (R R' : A -> A -> Prop) l :
  (forall x y, R x y -> R' y x) -> Sorted R l -> Sorted R' (rev l).
Proof.
  intros HR. induction 1 as [|x l Hs IH Hd]; [constructor|].
  cbn [rev]. destruct Hd as [|y l Hxy]; [simpl; repeat constructor|].
  cbn [rev] in *. rewrite <- app_assoc. cbn [app].
  apply Sorted_join; [assumption|]. repeat constructor. now apply HR.
Qed.

(** ** Binary insertion *)

Lemma insertPivot_perm run pivot : Permutation (insertPivot comparefn run pivot) (pivot :: run).
Proof.
  unfold insertPivot. rewrite <- Permutation_middle.
  now rewrite firstn_skipn.
Qed.

Lemma BinaryInsertionSort_fold_perm pending : forall run,
  Permutation (fold_left (insertPivot comparefn) pending run) (run ++ pending).
Proof.
  induction pending as [|x pending IH]; intros run; cbn [fold_left].
  - now rewrite app_nil_r.
  - rewrite IH, insertPivot_perm. cbn [app]. apply Permutation_middle.
Qed.

Lemma BinaryInsertionSort_perm run pending :
  Permutation (BinaryInsertionSort comparefn run pending) (run ++ pending).
Proof.
  unfold BinaryInsertionSort. destruct run as [|x run].
  - destruct pending as [|y pending]; [reflexivity|].
    apply (BinaryInsertionSort_fold_perm pending [y]).
  - apply BinaryInsertionSort_fold_perm.
Qed.

(** ** Natural runs *)

Lemma countRun_le d : forall l prev, (countRun comparefn d prev l <= List.length l)%nat.
Proof.
  induction l as [|x l IH]; intros prev; cbn [countRun List.length]; [lia|].
  destruct (if d then _ else _); [lia|]. specialize (IH x). lia.
Qed.

Lemma CountAndMakeRun_perm l :
  Permutation (fst (CountAndMakeRun comparefn l) ++ snd (CountAndMakeRun comparefn l)) l.
Proof.
  unfold CountAndMakeRun. destruct l as [|x [|y l]]; cbn [fst snd]; try now rewrite app_nil_r.
  destruct (cmp y x <? 0).
  - rewrite <- Permutation_rev. now rewrite firstn_skipn.
  - now rewrite firstn_skipn.
Qed.

Lemma CountAndMakeRun_length l :
  l <> [] -> (1 <= List.length (fst (CountAndMakeRun comparefn l)))%nat.
Proof.
  unfold CountAndMakeRun. destruct l as [|x [|y l]]; cbn [fst]; intros H;
    [congruence|simpl; lia|].
  destruct (cmp y x <? 0); [rewrite length_rev|]; simpl; lia.
Qed.

Lemma countRun_fixed : forall l prev,
  chain (prev :: l) -> countRun comparefn false prev l = List.length l.
Proof.
  induction l as [|x l IH]; intros prev H; cbn [countRun List.length]; [reflexivity|].
  pose proof (Sorted_cons2_inv _ _ _ H) as Hord. unfold inOrder in Hord.
  destruct (Z.ltb_spec (cmp x prev) 0); [lia|].
  f_equal. apply IH. now apply Sorted_tail in H.
Qed.

(** A list with no descent is one run, which stays as it is. *)
Lemma CountAndMakeRun_fixed l : chain l -> CountAndMakeRun comparefn l = (l, []).
Proof.
  intros H. unfold CountAndMakeRun. destruct l as [|x [|y l]]; try reflexivity.
  pose proof (Sorted_cons2_inv _ _ _ H) as Hord. unfold inOrder in Hord.
  destruct (Z.ltb_spec (cmp y x) 0); [lia|].
  rewrite countRun_fixed by now apply Sorted_tail in H.
  change (2 + List.length l)%nat with (List.length (x :: y :: l)).
  now rewrite firstn_all, skipn_all.
Qed.

Lemma countRun_ascending : forall l prev,
  chain (firstn (S (countRun comparefn false prev l)) (prev :: l)).
Proof.
  induction l as [|x l IH]; intros prev; cbn [countRun]; [repeat constructor|].
  destruct (Z.ltb_spec (cmp x prev) 0); [repeat constructor|].
  specialize (IH x). cbn [firstn] in *. now apply Sorted_cons2.
Qed.

Lemma countRun_descending : forall l prev,
  Sorted (fun a b => cmp b a < 0) (firstn (S (countRun comparefn true prev l)) (prev :: l)).
Proof.
  induction l as [|x l IH]; intros prev; cbn [countRun]; [repeat constructor|].
  destruct (Z.leb_spec 0 (cmp x prev)); [repeat constructor|].
  specialize (IH x). cbn [firstn] in *. now apply Sorted_cons2.
Qed.

Section Antisymmetric.
Hypothesis anti : forall x y, cmp x y < 0 -> 0 <= cmp y x.

Lemma insertPivot_chain run pivot : chain run -> chain (insertPivot comparefn run pivot).
Proof.
  intros H. unfold insertPivot.
  set (toRight := fun mid => negb (cmp pivot (load run mid pivot) <? 0)).
  set (len := Z.of_nat (List.length run)).
  destruct (binary_loop_spec toRight
              (fun k => k = 0 \/ toRight (k - 1) = true)
              (fun k => k = len \/ toRight k = false)
              (S (List.length run)) 0 len) as (Hk & HPL & HPR); try lia; auto.
  - intros m _ Hm. right. now replace (m + 1 - 1) with m by lia.
  - set (k := binary_loop toRight (S (List.length run)) 0 len) in *.
    assert (Hfit : fits comparefn run pivot k).
    { apply search_fits with toRight; fold len; try lia; try assumption.
      - intros i _ Hi. unfold toRight in Hi. unfold inOrder.
        destruct (Z.ltb_spec (cmp pivot (load run i pivot)) 0); [discriminate|assumption].
      - intros i _ Hi. unfold toRight in Hi. unfold inOrder. apply anti.
        destruct (Z.ltb_spec (cmp pivot (load run i pivot)) 0); [assumption|discriminate]. }
    destruct Hfit as (_ & Ha & Hb).
    apply chain_insert; [now rewrite firstn_skipn|assumption|assumption].
Qed.

Lemma BinaryInsertionSort_fold_chain pending : forall run,
  chain run -> chain (fold_left (insertPivot comparefn) pending run).
Proof.
  induction pending as [|x pending IH]; intros run H; cbn [fold_left]; [assumption|].
  apply IH. now apply insertPivot_chain.
Qed.

Lemma BinaryInsertionSort_chain run pending :
  chain run -> chain (BinaryInsertionSort comparefn run pending).
Proof.
  intros H. unfold BinaryInsertionSort. destruct run as [|x run].
  - destruct pending as [|y pending]; [constructor|].
    apply BinaryInsertionSort_fold_chain. repeat constructor.
  - now apply BinaryInsertionSort_fold_chain.
Qed.

Lemma CountAndMakeRun_chain l : chain (fst (CountAndMakeRun comparefn l)).
Proof.
  unfold CountAndMakeRun. destruct l as [|x [|y l]]; cbn [fst]; try repeat constructor.
  destruct (Z.ltb_spec (cmp y x) 0) as [Hlt|Hge].
  - apply Sorted_rev with (R := fun a b => cmp b a < 0).
    + intros a b Hab. unfold inOrder. now apply anti.
    + pose proof (countRun_descending l y) as Hrun.
      cbn [firstn Nat.add] in *. now apply Sorted_cons2.
  - pose proof (countRun_ascending l y) as Hrun.
    cbn [firstn Nat.add] in *. now apply Sorted_cons2.
Qed.

End Antisymmetric.
End SortRuns.

Section SortPieces.
Context {A : Type}.
#[export] Instance app_perm_assoc : Associative (@Permutation A) (@app A).
Proof. intros x y z. now rewrite app_assoc. Qed.
#[export] Instance app_perm_comm : Commutative (@Permutation A) (@app A).
Proof. intros x y. apply Permutation_app_comm. Qed.
#[export] Instance app_perm_unit : Unit (@Permutation A) (@app A) (@nil A).
Proof. split; intros x; [reflexivity|now rewrite app_nil_r]. Qed.
End SortPieces.

Ltac uncons :=
  repeat match goal with
  | |- context [?x :: ?l] =>
      lazymatch l with
      | [] => fail
      | _ => change (x :: l) with ([x] ++ l)
      end
  end.
(** Two lists made of the same pieces. *)
Ltac same_pieces := uncons; aac_reflexivity.

(** Two lists that differ in their brackets only. *)
Ltac same_list := repeat first [rewrite <- app_assoc | progress (cbn [app])]; reflexivity.
Ltac by_chain H :=
  match type of H with
  | Sorted _ ?l' =>
      match goal with
      | |- Sorted _ ?l => replace l with l' by same_list; exact H
      end
  end.

Section SortMerges.
Variable A : Type.
Variable comparefn : A -> A -> option Z.
Local Notation "'cmp'" := (SortCompare comparefn).
Local Notation "'ord'" := (inOrder comparefn).
Local Notation "'chain'" := (Sorted (inOrder comparefn)).

(** ** MergeLow rearranges *)

Lemma MergeLow_loop_perm fuel : forall g f mg wa wb out a b,
  Permutation (fst (MergeLow_loop comparefn fuel g f mg wa wb out a b)) (out ++ a ++ b).
Proof.
  induction fuel as [|fuel IH]; intros g f mg wa wb out a b; [reflexivity|].
  cbn [MergeLow_loop]. destruct g; cbn [negb].
  - destruct (_ || _ || f); [|apply IH].
    destruct b as [|y b']; [reflexivity|].
    generalize (GallopRight comparefn a y 0). intros nofWinsA.
    assert (Ea : a = firstn (Z.to_nat nofWinsA) a ++ skipn (Z.to_nat nofWinsA) a)
      by now rewrite firstn_skipn.
    remember (firstn (Z.to_nat nofWinsA) a) as fa.
    remember (skipn (Z.to_nat nofWinsA) a) as a1. rewrite Ea.
    destruct (_ && (_ =? 1)%nat); [cbn [fst]; same_pieces|].
    destruct (_ && (_ =? 0)%nat); [cbn [fst]; same_pieces|].
    destruct a1 as [|x a']; [cbn [fst]; same_pieces|].
    destruct (isEmpty b'); [cbn [fst]; same_pieces|].
    generalize (GallopLeft comparefn b' x 0). intros nofWinsB.
    assert (Eb : b' = firstn (Z.to_nat nofWinsB) b' ++ skipn (Z.to_nat nofWinsB) b')
      by now rewrite firstn_skipn.
    remember (firstn (Z.to_nat nofWinsB) b') as fb.
    remember (skipn (Z.to_nat nofWinsB) b') as b2. rewrite Eb.
    destruct (_ && isEmpty _); [cbn [fst]; same_pieces|].
    destruct (_ =? 1)%nat; [cbn [fst]; same_pieces|].
    rewrite IH. same_pieces.
  - destruct a as [|x a']; [reflexivity|]. destruct b as [|y b']; [reflexivity|].
    destruct (cmp y x <? 0).
    + destruct (isEmpty b'); [cbn [fst]; same_pieces|].
      destruct (mg <=? wb + 1); rewrite IH; same_pieces.
    + destruct (_ =? 1)%nat; [cbn [fst]; same_pieces|].
      destruct (mg <=? wa + 1); rewrite IH; same_pieces.
Qed.

Lemma MergeLow_perm a b mg : Permutation (fst (MergeLow comparefn a b mg)) (a ++ b).
Proof.
  unfold MergeLow. destruct b as [|y b']; [cbn [fst]; now rewrite app_nil_r|].
  destruct (isEmpty b'); [cbn [fst]; same_pieces|].
  destruct (_ =? 1)%nat; [cbn [fst]; same_pieces|].
  rewrite MergeLow_loop_perm. same_pieces.
Qed.

(** ** MergeHigh rearranges *)

Lemma MergeHigh_loop_perm fuel : forall g f mg wa wb a b out,
  Permutation (fst (MergeHigh_loop comparefn fuel g f mg wa wb a b out)) (a ++ b ++ out).
Proof.
  induction fuel as [|fuel IH]; intros g f mg wa wb a b out; [reflexivity|].
  cbn [MergeHigh_loop]. destruct g; cbn [negb].
  - destruct (_ || _ || f); [|apply IH].
    destruct (unsnoc_cases b) as [[-> ->]|(b' & y & -> & ->)]; [reflexivity|].
    generalize (GallopRight comparefn a y (Z.of_nat (List.length a) - 1)). intros k.
    assert (Ea : a = firstn (Z.to_nat k) a ++ skipn (Z.to_nat k) a) by now rewrite firstn_skipn.
    remember (firstn (Z.to_nat k) a) as a1. remember (skipn (Z.to_nat k) a) as ta.
    apply Permutation_trans with ((a1 ++ ta) ++ (b' ++ [y]) ++ out); [|now rewrite <- Ea].
    destruct (_ && (_ =? 0)%nat); [cbn [fst]; same_pieces|].
    destruct (_ =? 1)%nat; [cbn [fst]; same_pieces|].
    destruct (unsnoc_cases a1) as [[-> ->]|(a' & x & -> & ->)];
      [cbn [fst]; same_pieces|].
    generalize (GallopLeft comparefn b' x (Z.of_nat (List.length b') - 1)). intros kb.
    assert (Eb : b' = firstn (Z.to_nat kb) b' ++ skipn (Z.to_nat kb) b')
      by now rewrite firstn_skipn.
    remember (firstn (Z.to_nat kb) b') as b2. remember (skipn (Z.to_nat kb) b') as tb.
    apply Permutation_trans with (((a' ++ [x]) ++ ta) ++ ((b2 ++ tb) ++ [y]) ++ out);
      [|now rewrite <- Eb].
    destruct (_ && (_ =? 1)%nat); [cbn [fst]; same_pieces|].
    destruct (_ && (_ =? 0)%nat); [cbn [fst]; same_pieces|].
    destruct (isEmpty a'); [cbn [fst]; same_pieces|].
    rewrite IH. same_pieces.
  - destruct (unsnoc_cases a) as [[-> ->]|(a' & x & -> & ->)]; [reflexivity|].
    destruct (unsnoc_cases b) as [[-> ->]|(b' & y & -> & ->)]; [reflexivity|].
    destruct (cmp y x <? 0).
    + destruct (isEmpty a'); [cbn [fst]; same_pieces|].
      destruct (mg <=? wa + 1); rewrite IH; same_pieces.
    + destruct (_ =? 1)%nat; [cbn [fst]; same_pieces|].
      destruct (mg <=? wb + 1); rewrite IH; same_pieces.
Qed.

Lemma MergeHigh_perm a b mg : Permutation (fst (MergeHigh comparefn a b mg)) (a ++ b).
Proof.
  unfold MergeHigh.
  destruct (unsnoc_cases a) as [[-> ->]|(a' & x & -> & ->)]; [reflexivity|].
  destruct (isEmpty a'); [cbn [fst]; same_pieces|].
  destruct (_ =? 1)%nat; [cbn [fst]; same_pieces|].
  rewrite MergeHigh_loop_perm. same_pieces.
Qed.

(** ** MergeLow keeps the order *)

Lemma lowInv_A P x a' b back :
  lowInv comparefn P (x :: a') b back -> allowsBefore comparefn x b ->
  lowInv comparefn (P ++ [x]) a' b back.
Proof.
  intros (H1 & H2 & H3 & H4 & H5) Hx.
  assert (H1' : chain ((P ++ [x]) ++ a')) by now rewrite <- app_assoc.
  repeat split; try assumption.
  - rewrite <- app_assoc. cbn [app]. apply chain_before; [|now apply Sorted_app_r in H2|exact Hx].
    now apply Sorted_app_l in H1'.
  - now apply Sorted_tail in H3.
  - intros a'' z E. apply (H5 (x :: a'') z). now subst.
Qed.

Lemma lowInv_B P a y b' back :
  lowInv comparefn P a (y :: b') back -> allowsBefore comparefn y a ->
  lowInv comparefn (P ++ [y]) a b' back.
Proof.
  intros (H1 & H2 & H3 & H4 & H5) Hy.
  assert (H2' : chain ((P ++ [y]) ++ b')) by now rewrite <- app_assoc.
  repeat split; try assumption.
  - rewrite <- app_assoc. cbn [app]. apply chain_before; [|now apply Sorted_app_r in H1|exact Hy].
    now apply Sorted_app_l in H2'.
  - now apply Sorted_tail in H4.
  - intros a' z E. specialize (H5 a' z E). now apply Sorted_tail in H5.
Qed.

Lemma lowInv_As P fa a1 b back :
  lowInv comparefn P (fa ++ a1) b back ->
  (forall y b', b = y :: b' -> allowsAfter comparefn fa y) ->
  lowInv comparefn (P ++ fa) a1 b back.
Proof.
  intros (H1 & H2 & H3 & H4 & H5) Hfa.
  assert (H1' : chain ((P ++ fa) ++ a1)) by now rewrite <- app_assoc.
  repeat split; try assumption.
  - destruct b as [|y b']; [rewrite app_nil_r; now apply Sorted_app_l in H1'|].
    rewrite <- app_assoc. apply chain_after; [now apply Sorted_app_l in H1'|assumption|].
    now apply (Hfa y b').
  - rewrite <- app_assoc in H3. now apply Sorted_app_r in H3.
  - intros a' z E. apply (H5 (fa ++ a') z). subst. now rewrite app_assoc.
Qed.

Lemma lowInv_Bs P a fb b2 back :
  lowInv comparefn P a (fb ++ b2) back ->
  (forall x a', a = x :: a' -> allowsAfter comparefn fb x) ->
  lowInv comparefn (P ++ fb) a b2 back.
Proof.
  intros (H1 & H2 & H3 & H4 & H5) Hfb.
  assert (H2' : chain ((P ++ fb) ++ b2)) by now rewrite <- app_assoc.
  repeat split; try assumption.
  - destruct a as [|x a']; [rewrite app_nil_r; now apply Sorted_app_l in H2'|].
    rewrite <- app_assoc. apply chain_after; [now apply Sorted_app_l in H2'|assumption|].
    now apply (Hfb x a').
  - rewrite <- app_assoc in H4. now apply Sorted_app_r in H4.
  - intros a' z E. specialize (H5 a' z E). rewrite <- app_assoc in H5.
    now apply Sorted_app_r in H5.
Qed.

Lemma lowInv_Succeed P a b back :
  lowInv comparefn P a b back -> a = [] \/ b = [] -> a <> [] \/ b <> [] ->
  chain (P ++ a ++ b ++ back).
Proof.
  intros (H1 & H2 & H3 & H4 & H5) Hcase Hne. destruct Hcase as [Ea|Eb]; subst; cbn [app].
  - apply Sorted_overlap; try assumption. now destruct Hne.
  - apply Sorted_overlap; try assumption. now destruct Hne.
Qed.

Lemma lowInv_CopyB P z b back :
  lowInv comparefn P [z] b back -> b <> [] -> chain (P ++ b ++ [z] ++ back).
Proof.
  intros (H1 & H2 & H3 & H4 & H5) Hne.
  specialize (H5 [] z eq_refl).
  pose proof (Sorted_overlap P b [z] Hne H2 H5) as H.
  rewrite app_assoc in H. rewrite app_assoc. cbn [app].
  apply Sorted_join; assumption.
Qed.

(** ** MergeHigh keeps the order *)

Lemma highInv_A front a' x b placed :
  highInv comparefn front (a' ++ [x]) b placed -> allowsAfter comparefn b x ->
  highInv comparefn front a' b (x :: placed).
Proof.
  intros (H1 & H2 & H3 & H4 & H5) Hx.
  assert (H1' : chain (a' ++ x :: placed)) by now rewrite <- app_assoc in H1.
  repeat split; try assumption.
  - apply (chain_after A comparefn [] b x placed);
      [now apply Sorted_app_l in H2|now apply Sorted_app_r in H1'|exact Hx].
  - rewrite app_assoc in H3. now apply Sorted_app_l in H3.
  - intros y b' E. specialize (H5 y b' E).
    change (chain ((y :: a') ++ [x])) in H5. now apply Sorted_app_l in H5.
Qed.

Lemma highInv_B front a b' y placed :
  highInv comparefn front a (b' ++ [y]) placed -> allowsAfter comparefn a y ->
  highInv comparefn front a b' (y :: placed).
Proof.
  intros (H1 & H2 & H3 & H4 & H5) Hy.
  assert (H2' : chain (b' ++ y :: placed)) by now rewrite <- app_assoc in H2.
  repeat split; try assumption.
  - apply (chain_after A comparefn [] a y placed);
      [now apply Sorted_app_l in H1|now apply Sorted_app_r in H2'|exact Hy].
  - rewrite app_assoc in H4. now apply Sorted_app_l in H4.
  - intros y0 b'' E. apply (H5 y0 (b'' ++ [y])). now subst.
Qed.

Lemma highInv_As front a1 ta b placed :
  highInv comparefn front (a1 ++ ta) b placed ->
  (forall b' y, b = b' ++ [y] -> allowsBefore comparefn y ta) ->
  highInv comparefn front a1 b (ta ++ placed).
Proof.
  intros (H1 & H2 & H3 & H4 & H5) Hta.
  assert (H1' : chain (a1 ++ ta ++ placed)) by now rewrite <- app_assoc in H1.
  repeat split; try assumption.
  - destruct ta as [|x ta']; [assumption|].
    destruct (snoc_cases b) as [->|(b' & y & ->)]; [now apply Sorted_app_r in H1'|].
    rewrite <- app_assoc. cbn [app]. apply chain_before.
    + now apply Sorted_app_l in H2.
    + now apply Sorted_app_r in H1'.
    + intros x0 t0 E. injection E as <- <-. now apply (Hta b' y eq_refl x ta').
  - rewrite app_assoc in H3. now apply Sorted_app_l in H3.
  - intros y b' E. specialize (H5 y b' E).
    change (chain ((y :: a1) ++ ta)) in H5. now apply Sorted_app_l in H5.
Qed.

Lemma highInv_Bs front a b2 tb placed :
  highInv comparefn front a (b2 ++ tb) placed ->
  (forall a' x, a = a' ++ [x] -> allowsBefore comparefn x tb) ->
  highInv comparefn front a b2 (tb ++ placed).
Proof.
  intros (H1 & H2 & H3 & H4 & H5) Htb.
  assert (H2' : chain (b2 ++ tb ++ placed)) by now rewrite <- app_assoc in H2.
  repeat split; try assumption.
  - destruct tb as [|y tb']; [assumption|].
    destruct (snoc_cases a) as [->|(a' & x & ->)]; [now apply Sorted_app_r in H2'|].
    rewrite <- app_assoc. cbn [app]. apply chain_before.
    + now apply Sorted_app_l in H1.
    + now apply Sorted_app_r in H2'.
    + intros y0 t0 E. injection E as <- <-. now apply (Htb a' x eq_refl y tb').
  - rewrite app_assoc in H4. now apply Sorted_app_l in H4.
  - intros y b'' E. apply (H5 y (b'' ++ tb)). now subst.
Qed.

Lemma highInv_Succeed front a b placed :
  highInv comparefn front a b placed -> a = [] \/ b = [] -> a <> [] \/ b <> [] ->
  chain (front ++ a ++ b ++ placed).
Proof.
  intros (H1 & H2 & H3 & H4 & H5) Hcase Hne. destruct Hcase as [Ea|Eb]; subst; cbn [app].
  - apply Sorted_overlap; try assumption. now destruct Hne.
  - apply Sorted_overlap; try assumption. now destruct Hne.
Qed.

Lemma highInv_CopyA front a y placed :
  highInv comparefn front a [y] placed -> a <> [] -> chain (front ++ [y] ++ a ++ placed).
Proof.
  intros (H1 & H2 & H3 & H4 & H5) Hne.
  specialize (H5 y [] eq_refl).
  pose proof (Sorted_join front y a H4 H5) as H.
  rewrite app_assoc. apply Sorted_overlap; try assumption.
  rewrite <- app_assoc. exact H.
Qed.

Lemma allowsAfter_snoc (f : list A) (z key : A) :
  inOrder comparefn z key -> allowsAfter comparefn (f ++ [z]) key.
Proof. intros H f' z' E. apply app_inj_tail in E as [_ <-]. exact H. Qed.

Ltac by_inv H :=
  match type of H with
  | lowInv _ ?p' _ _ _ =>
      match goal with
      | |- lowInv _ ?p _ _ _ => replace p with p' by same_list; exact H
      end
  | highInv _ _ _ _ ?p' =>
      match goal with
      | |- highInv _ _ _ _ ?p => replace p with p' by same_list; exact H
      end
  end.

Section Antisymmetric.
Hypothesis anti : forall x y, cmp x y < 0 -> 0 <= cmp y x.

Lemma allowsBefore_direct (x y : A) (t : list A) : 0 <= cmp y x -> allowsBefore comparefn x (y :: t).
Proof. intros H y' t' E. injection E as <- <-. exact H. Qed.

Lemma allowsBefore_anti (x y : A) (t : list A) : cmp x y < 0 -> allowsBefore comparefn x (y :: t).
Proof. intros H y' t' E. injection E as <- <-. now apply anti. Qed.

Lemma MergeLow_loop_chain fuel : forall (g f : bool) mg wa wb out a b pre back,
  (2 * (List.length a + List.length b) + (if g then 1 else 0) <= fuel)%nat ->
  (2 <= List.length a)%nat -> (1 <= List.length b)%nat ->
  lowInv comparefn (pre ++ out) a b back ->
  chain (pre ++ fst (MergeLow_loop comparefn fuel g f mg wa wb out a b) ++ back).
Proof.
  induction fuel as [|fuel IH]; intros g f mg wa wb out a b pre back Hfuel Ha Hb Hinv; [lia|].
  cbn [MergeLow_loop]. destruct g; cbn [negb].
  - destruct (_ || _ || f); [|apply IH; try assumption; lia].
    destruct b as [|y b']; [simpl in Hb; lia|].
    destruct (GallopRight_fits A comparefn anti a y 0 ltac:(lia)) as (Hk & Hfa & Hfy).
    revert Hk Hfa Hfy. generalize (GallopRight comparefn a y 0). intros nofWinsA Hk Hfa Hfy.
    assert (Ea : a = firstn (Z.to_nat nofWinsA) a ++ skipn (Z.to_nat nofWinsA) a)
      by now rewrite firstn_skipn.
    assert (Hlen : List.length (firstn (Z.to_nat nofWinsA) a) = Z.to_nat nofWinsA)
      by (apply firstn_length_le; lia).
    revert Hfa Hfy Ea Hlen.
    generalize (firstn (Z.to_nat nofWinsA) a) (skipn (Z.to_nat nofWinsA) a).
    intros fa a1 Hfa Hfy Ea Hlen. subst a. rewrite length_app in *.
    apply lowInv_As in Hinv; [|intros y0 b0 E; now injection E as <- <-].
    destruct (_ && (_ =? 1)%nat) eqn:C1.
    { apply andb_true_iff in C1 as [_ C1]. apply Nat.eqb_eq in C1.
      destruct a1 as [|z [|? ?]]; try discriminate. cbn [fst].
      pose proof (lowInv_CopyB _ _ _ _ Hinv ltac:(discriminate)) as H. by_chain H. }
    destruct (_ && (_ =? 0)%nat) eqn:C0.
    { apply andb_true_iff in C0 as [_ C0]. apply Nat.eqb_eq in C0.
      destruct a1; [|discriminate]. cbn [fst].
      pose proof (lowInv_Succeed _ _ _ _ Hinv ltac:(now left) ltac:(right; discriminate)) as H.
      by_chain H. }
    assert (Ha1 : (2 <= List.length a1)%nat).
    { destruct (Z.ltb_spec 0 nofWinsA); cbn [andb] in C1, C0.
      - apply Nat.eqb_neq in C1, C0. lia.
      - lia. }
    clear C1 C0.
    apply lowInv_B in Hinv; [|assumption].
    destruct a1 as [|x a1']; [simpl in Ha1; lia|].
    destruct b' as [|y2 b2']; cbn [isEmpty].
    { cbn [fst].
      pose proof (lowInv_Succeed _ _ _ _ Hinv ltac:(now right) ltac:(left; discriminate)) as H.
      by_chain H. }
    set (b' := y2 :: b2') in *.
    destruct (GallopLeft_fits A comparefn anti b' x 0 ltac:(simpl; lia)) as (Hkb & Hfb & Hfx).
    revert Hkb Hfb Hfx. generalize (GallopLeft comparefn b' x 0). intros nofWinsB Hkb Hfb Hfx.
    assert (Eb : b' = firstn (Z.to_nat nofWinsB) b' ++ skipn (Z.to_nat nofWinsB) b')
      by now rewrite firstn_skipn.
    assert (Hlenb : List.length (firstn (Z.to_nat nofWinsB) b') = Z.to_nat nofWinsB)
      by (apply firstn_length_le; lia).
    assert (Hb' : (1 <= List.length b')%nat) by (simpl; lia).
    assert (Hfuel' : (2 * (List.length fa + List.length (x :: a1') + S (List.length b')) + 1
                      <= S fuel)%nat) by exact Hfuel.
    revert Hfb Hfx Eb Hlenb Hinv.
    generalize (firstn (Z.to_nat nofWinsB) b') (skipn (Z.to_nat nofWinsB) b').
    intros fb b2 Hfb Hfx Eb Hlenb Hinv. clearbody b'. subst b'. rewrite length_app in *.
    apply lowInv_Bs in Hinv; [|intros x0 a0 E; now injection E as <- <-].
    destruct (_ && isEmpty _) eqn:C2.
    { apply andb_true_iff in C2 as [_ C2]. destruct b2; [|discriminate]. cbn [fst].
      pose proof (lowInv_Succeed _ _ _ _ Hinv ltac:(now right) ltac:(left; discriminate)) as H.
      by_chain H. }
    assert (Hb2 : (1 <= List.length b2)%nat).
    { destruct (Z.ltb_spec 0 nofWinsB); cbn [andb] in C2.
      - destruct b2; [discriminate|simpl; lia].
      - lia. }
    clear C2.
    apply lowInv_A in Hinv; [|assumption].
    destruct (Nat.eqb_spec (List.length a1') 1) as [H1|H1].
    { destruct a1' as [|z [|? ?]]; try discriminate. cbn [fst].
      assert (Hne : b2 <> []) by (destruct b2; [simpl in Hb2; lia|discriminate]).
      pose proof (lowInv_CopyB _ _ _ _ Hinv Hne) as H. by_chain H. }
    apply IH.
    + cbn [List.length] in *. lia.
    + cbn [List.length] in *. lia.
    + assumption.
    + by_inv Hinv.
  - destruct a as [|x a']; [simpl in Ha; lia|]. destruct b as [|y b']; [simpl in Hb; lia|].
    cbn [List.length] in *.
    destruct (Z.ltb_spec (cmp y x) 0) as [Hlt|Hge].
    + apply lowInv_B in Hinv; [|now apply allowsBefore_anti].
      destruct b' as [|y2 b2']; cbn [isEmpty].
      { cbn [fst].
        pose proof (lowInv_Succeed _ _ _ _ Hinv ltac:(now right) ltac:(left; discriminate)) as H.
        by_chain H. }
      destruct (mg <=? wb + 1); apply IH; cbn [List.length] in *; try lia; by_inv Hinv.
    + apply lowInv_A in Hinv; [|now apply allowsBefore_direct].
      destruct (Nat.eqb_spec (List.length a') 1) as [H1|H1].
      { destruct a' as [|z [|? ?]]; try discriminate. cbn [fst].
        pose proof (lowInv_CopyB _ _ _ _ Hinv ltac:(discriminate)) as H. by_chain H. }
      destruct (mg <=? wa + 1); apply IH; cbn [List.length] in *; try lia; by_inv Hinv.
Qed.

Lemma MergeHigh_loop_chain fuel : forall (g f : bool) mg wa wb a b out front back,
  (2 * (List.length a + List.length b) + (if g then 1 else 0) <= fuel)%nat ->
  (1 <= List.length a)%nat -> (2 <= List.length b)%nat ->
  highInv comparefn front a b (out ++ back) ->
  chain (front ++ fst (MergeHigh_loop comparefn fuel g f mg wa wb a b out) ++ back).
Proof.
  induction fuel as [|fuel IH]; intros g f mg wa wb a b out front back Hfuel Ha Hb Hinv; [lia|].
  cbn [MergeHigh_loop]. destruct g; cbn [negb].
  - destruct (_ || _ || f); [|apply IH; try assumption; lia].
    destruct (unsnoc_cases b) as [[-> _]|(b' & y & -> & ->)]; [simpl in Hb; lia|].
    rewrite length_app in Hb, Hfuel. cbn [List.length] in Hb, Hfuel.
    destruct (GallopRight_fits A comparefn anti a y (Z.of_nat (List.length a) - 1) ltac:(lia))
      as (Hk & Hfy & Hta).
    revert Hk Hfy Hta.
    generalize (GallopRight comparefn a y (Z.of_nat (List.length a) - 1)). intros k Hk Hfy Hta.
    assert (Ea : a = firstn (Z.to_nat k) a ++ skipn (Z.to_nat k) a) by now rewrite firstn_skipn.
    assert (Hlen : List.length (firstn (Z.to_nat k) a) = Z.to_nat k)
      by (apply firstn_length_le; lia).
    assert (HlenA : Z.of_nat (List.length a)
                    = Z.of_nat (List.length (firstn (Z.to_nat k) a))
                      + Z.of_nat (List.length (skipn (Z.to_nat k) a))).
    { rewrite <- Nat2Z.inj_add, <- length_app. now rewrite firstn_skipn. }
    revert Hfy Hta Ea Hlen HlenA.
    generalize (firstn (Z.to_nat k) a) (skipn (Z.to_nat k) a).
    intros a1 ta Hfy Hta Ea Hlen HlenA. rewrite HlenA. clear HlenA.
    subst a. rewrite length_app in *.
    apply highInv_As in Hinv;
      [|intros b0 y0 E; apply app_inj_tail in E as [_ <-]; assumption].
    destruct (_ && (_ =? 0)%nat) eqn:C0.
    { apply andb_true_iff in C0 as [_ C0]. apply Nat.eqb_eq in C0.
      destruct a1; [|discriminate]. cbn [fst].
      assert (Hne : b' ++ [y] <> []) by (destruct b'; discriminate).
      pose proof (highInv_Succeed _ _ _ _ Hinv ltac:(now left) ltac:(now right)) as H.
      by_chain H. }
    assert (Ha1 : (1 <= List.length a1)%nat).
    { destruct (Z.ltb_spec 0 (Z.of_nat (List.length a1) + Z.of_nat (List.length ta) - k));
        cbn [andb] in C0.
      - apply Nat.eqb_neq in C0. lia.
      - lia. }
    clear C0.
    apply highInv_B in Hinv; [|assumption].
    destruct (Nat.eqb_spec (List.length b') 1) as [H1|H1].
    { destruct b' as [|y1 [|? ?]]; try discriminate. cbn [fst].
      assert (Hne : a1 <> []) by (destruct a1; [simpl in Ha1; lia|discriminate]).
      pose proof (highInv_CopyA _ _ _ _ Hinv Hne) as H. by_chain H. }
    destruct (unsnoc_cases a1) as [[-> _]|(a' & x & -> & ->)]; [simpl in Ha1; lia|].
    rewrite length_app in Ha1, Hfuel. cbn [List.length] in Ha1, Hfuel.
    destruct (GallopLeft_fits A comparefn anti b' x (Z.of_nat (List.length b') - 1) ltac:(lia))
      as (Hkb & Hfx & Htb).
    revert Hkb Hfx Htb.
    generalize (GallopLeft comparefn b' x (Z.of_nat (List.length b') - 1)).
    intros kb Hkb Hfx Htb.
    assert (Eb : b' = firstn (Z.to_nat kb) b' ++ skipn (Z.to_nat kb) b')
      by now rewrite firstn_skipn.
    assert (Hlenb : List.length (firstn (Z.to_nat kb) b') = Z.to_nat kb)
      by (apply firstn_length_le; lia).
    assert (HlenB : Z.of_nat (List.length b')
                    = Z.of_nat (List.length (firstn (Z.to_nat kb) b'))
                      + Z.of_nat (List.length (skipn (Z.to_nat kb) b'))).
    { rewrite <- Nat2Z.inj_add, <- length_app. now rewrite firstn_skipn. }
    revert Hfx Htb Eb Hlenb HlenB.
    generalize (firstn (Z.to_nat kb) b') (skipn (Z.to_nat kb) b').
    intros b2 tb Hfx Htb Eb Hlenb HlenB. rewrite HlenB. clear HlenB.
    subst b'. rewrite length_app in *.
    apply highInv_Bs in Hinv;
      [|intros a0 x0 E; apply app_inj_tail in E as [_ <-]; assumption].
    destruct (_ && (_ =? 1)%nat) eqn:C1.
    { apply andb_true_iff in C1 as [_ C1]. apply Nat.eqb_eq in C1.
      destruct b2 as [|y1 [|? ?]]; try discriminate. cbn [fst].
      assert (Hne : a' ++ [x] <> []) by (destruct a'; discriminate).
      pose proof (highInv_CopyA _ _ _ _ Hinv Hne) as H. by_chain H. }
    destruct (_ && (_ =? 0)%nat) eqn:C0.
    { apply andb_true_iff in C0 as [_ C0]. apply Nat.eqb_eq in C0.
      destruct b2; [|discriminate]. cbn [fst].
      assert (Hne : a' ++ [x] <> []) by (destruct a'; discriminate).
      pose proof (highInv_Succeed _ _ _ _ Hinv ltac:(now right) ltac:(now left)) as H.
      by_chain H. }
    assert (Hb2 : (2 <= List.length b2)%nat).
    { destruct (Z.ltb_spec 0 (Z.of_nat (List.length b2) + Z.of_nat (List.length tb) - kb));
        cbn [andb] in C1, C0.
      - apply Nat.eqb_neq in C1, C0. lia.
      - lia. }
    clear C1 C0.
    apply highInv_A in Hinv; [|assumption].
    destruct a' as [|x1 a'']; cbn [isEmpty].
    { cbn [fst].
      assert (Hne : b2 <> []) by (destruct b2; [simpl in Hb2; lia|discriminate]).
      pose proof (highInv_Succeed _ _ _ _ Hinv ltac:(now left) ltac:(now right)) as H.
      by_chain H. }
    apply IH.
    + cbn [List.length] in *. lia.
    + cbn [List.length] in *. lia.
    + assumption.
    + by_inv Hinv.
  - destruct (unsnoc_cases a) as [[-> _]|(a' & x & -> & ->)]; [simpl in Ha; lia|].
    destruct (unsnoc_cases b) as [[-> _]|(b' & y & -> & ->)]; [simpl in Hb; lia|].
    rewrite !length_app in *. cbn [List.length] in *.
    destruct (Z.ltb_spec (cmp y x) 0) as [Hlt|Hge].
    + apply highInv_A in Hinv; [|apply allowsAfter_snoc; now apply anti].
      destruct a' as [|x1 a'']; cbn [isEmpty].
      { cbn [fst].
        assert (Hne : b' ++ [y] <> []) by (destruct b'; discriminate).
        pose proof (highInv_Succeed _ _ _ _ Hinv ltac:(now left) ltac:(now right)) as H.
        by_chain H. }
      destruct (mg <=? wa + 1); apply IH; rewrite ?length_app; cbn [List.length] in *;
        try lia; by_inv Hinv.
    + apply highInv_B in Hinv; [|apply allowsAfter_snoc; exact Hge].
      destruct (Nat.eqb_spec (List.length b') 1) as [H1|H1].
      { destruct b' as [|y1 [|? ?]]; try discriminate. cbn [fst].
        assert (Hne : a' ++ [x] <> []) by (destruct a'; discriminate).
        pose proof (highInv_CopyA _ _ _ _ Hinv Hne) as H. by_chain H. }
      destruct (mg <=? wb + 1); apply IH; rewrite ?length_app; cbn [List.length] in *;
        try lia; by_inv Hinv.
Qed.

End Antisymmetric.

End SortMerges.

Section SortFacts.
Variable A : Type.
Variable comparefn : A -> A -> option Z.
Local Notation "'cmp'" := (SortCompare comparefn).
Local Notation "'ord'" := (inOrder comparefn).
Local Notation "'chain'" := (Sorted (inOrder comparefn)).
Local Notation "'sort'" := (Array_sort comparefn).

Lemma MergeAt_perm a b mg : Permutation (fst (MergeAt comparefn a b mg)) (a ++ b).
Proof.
  unfold MergeAt. destruct b as [|keyRight b0]; [cbn [fst]; now rewrite app_nil_r|].
  generalize (Z.to_nat (GallopRight comparefn a keyRight 0)). intros k.
  apply Permutation_trans with ((firstn k a ++ skipn k a) ++ keyRight :: b0);
    [|now rewrite firstn_skipn].
  generalize (firstn k a) (skipn k a). intros front a'.
  destruct (unsnoc a') as [[a'' keyLeft]|] eqn:E.
  - apply unsnoc_Some in E. subst a'.
    set (b := keyRight :: b0).
    generalize (Z.to_nat (GallopLeft comparefn b keyLeft (Z.of_nat (List.length b) - 1))).
    intros lengthB.
    apply Permutation_trans
      with ((front ++ a'' ++ [keyLeft]) ++ firstn lengthB b ++ skipn lengthB b);
      [|now rewrite firstn_skipn].
    generalize (firstn lengthB b) (skipn lengthB b). intros b' back.
    destruct (isEmpty b') eqn:Eb.
    + destruct b'; [|discriminate]. cbn [fst]. same_pieces.
    + destruct (_ <=? _)%nat.
      * pose proof (MergeLow_perm A comparefn (a'' ++ [keyLeft]) b' mg) as H.
        destruct (MergeLow _ _ _ _) as [merged mg']. cbn [fst] in *. rewrite H. same_pieces.
      * pose proof (MergeHigh_perm A comparefn (a'' ++ [keyLeft]) b' mg) as H.
        destruct (MergeHigh _ _ _ _) as [merged mg']. cbn [fst] in *. rewrite H. same_pieces.
  - apply unsnoc_None in E. subst a'. cbn [fst]. same_pieces.
Qed.

Lemma ComputeMinRunLength_loop_le fuel : forall n r,
  0 <= n -> 0 <= r <= 1 -> ComputeMinRunLength_loop fuel n r <= n + r.
Proof.
  induction fuel as [|fuel IH]; intros n r Hn Hr; cbn [ComputeMinRunLength_loop]; [lia|].
  destruct (Z.leb_spec 64 n); [|lia].
  assert (Hhalf : 0 <= Z.shiftr n 1 /\ Z.shiftr n 1 + 1 <= n).
  { rewrite Z.shiftr_div_pow2 by lia. change (2 ^ 1) with 2.
    pose proof (Z.div_mod n 2 ltac:(lia)). pose proof (Z.mod_pos_bound n 2 ltac:(lia)). lia. }
  assert (Hbit : 0 <= Z.lor r (Z.land n 1) <= 1).
  { assert (Hl : Z.land n 1 = 0 \/ Z.land n 1 = 1).
    { assert (E : Z.land n 1 = n mod 2) by (apply (Z.land_ones n 1); lia).
      rewrite E. pose proof (Z.mod_pos_bound n 2 ltac:(lia)). lia. }
    assert (Hr' : r = 0 \/ r = 1) by lia.
    destruct Hl as [-> | ->], Hr' as [-> | ->]; cbn; lia. }
  specialize (IH (Z.shiftr n 1) (Z.lor r (Z.land n 1)) ltac:(lia) Hbit). lia.
Qed.

Lemma ComputeMinRunLength_le n : 0 <= n -> ComputeMinRunLength n <= n.
Proof.
  intros Hn. unfold ComputeMinRunLength.
  pose proof (ComputeMinRunLength_loop_le (Z.to_nat n) n 0 Hn ltac:(lia)). lia.
Qed.

Lemma covered_cons (r : list A) runs : covered (r :: runs) = covered runs ++ r.
Proof. unfold covered. cbn [rev]. rewrite concat_app. cbn [List.concat]. now rewrite app_nil_r. Qed.

Lemma MergeCollapse_perm fuel : forall runs mg,
  Permutation (covered (fst (MergeCollapse comparefn fuel (runs, mg)))) (covered runs).
Proof.
  induction fuel as [|fuel IH]; intros runs mg; [reflexivity|].
  cbn [MergeCollapse].
  destruct runs as [|r2 [|r1 [|r0 rest]]]; try reflexivity.
  - destruct (_ <=? _); [|reflexivity].
    pose proof (MergeAt_perm r1 r2 mg) as H. destruct (MergeAt _ _ _ _) as [m mg'].
    cbn [fst] in H. rewrite IH, !covered_cons, H. same_pieces.
  - destruct (_ || _).
    + destruct (_ <? _).
      * pose proof (MergeAt_perm r0 r1 mg) as H. destruct (MergeAt _ _ _ _) as [m mg'].
        cbn [fst] in H. rewrite IH, !covered_cons, H. same_pieces.
      * pose proof (MergeAt_perm r1 r2 mg) as H. destruct (MergeAt _ _ _ _) as [m mg'].
        cbn [fst] in H. rewrite IH, !covered_cons, H. same_pieces.
    + destruct (_ <=? _); [|reflexivity].
      pose proof (MergeAt_perm r1 r2 mg) as H. destruct (MergeAt _ _ _ _) as [m mg'].
      cbn [fst] in H. rewrite IH, !covered_cons, H. same_pieces.
Qed.

Lemma MergeForceCollapse_perm fuel : forall runs mg,
  Permutation (covered (fst (MergeForceCollapse comparefn fuel (runs, mg)))) (covered runs).
Proof.
  induction fuel as [|fuel IH]; intros runs mg; [reflexivity|].
  cbn [MergeForceCollapse].
  destruct runs as [|r2 [|r1 [|r0 rest]]]; try reflexivity.
  - pose proof (MergeAt_perm r1 r2 mg) as H. destruct (MergeAt _ _ _ _) as [m mg'].
    cbn [fst] in H. rewrite IH, !covered_cons, H. same_pieces.
  - destruct (_ <? _).
    + pose proof (MergeAt_perm r0 r1 mg) as H. destruct (MergeAt _ _ _ _) as [m mg'].
      cbn [fst] in H. rewrite IH, !covered_cons, H. same_pieces.
    + pose proof (MergeAt_perm r1 r2 mg) as H. destruct (MergeAt _ _ _ _) as [m mg'].
      cbn [fst] in H. rewrite IH, !covered_cons, H. same_pieces.
Qed.

Lemma MergeForceCollapse_one fuel : forall runs mg,
  (List.length runs <= S fuel)%nat ->
  (List.length (fst (MergeForceCollapse comparefn fuel (runs, mg))) <= 1)%nat.
Proof.
  induction fuel as [|fuel IH]; intros runs mg Hlen; [exact Hlen|].
  cbn [MergeForceCollapse].
  destruct runs as [|r2 [|r1 [|r0 rest]]]; cbn [fst List.length] in *; try lia.
  - destruct (MergeAt _ _ _ _) as [m mg']. apply IH. simpl. lia.
  - destruct (_ <? _); destruct (MergeAt _ _ _ _) as [m mg']; apply IH; simpl; lia.
Qed.

(** The step of the main loop: the next run and what is left. *)
Lemma nextRun_perm minRunLength remaining :
  let '(run, rest) := CountAndMakeRun comparefn remaining in
  let '(run', rest') :=
    if runLength run <? minRunLength then
      let forcedRunLength := Z.min minRunLength (runLength remaining) in
      let more := Z.to_nat (forcedRunLength - runLength run) in
      (BinaryInsertionSort comparefn run (firstn more rest), skipn more rest)
    else (run, rest) in
  Permutation (run' ++ rest') remaining
  /\ (remaining <> [] -> run' <> []).
Proof.
  pose proof (CountAndMakeRun_perm A comparefn remaining) as Hp.
  pose proof (CountAndMakeRun_length A comparefn remaining) as Hl.
  destruct (CountAndMakeRun comparefn remaining) as [run rest]. cbn [fst snd] in *.
  assert (Hne : remaining <> [] -> run <> []).
  { intros H E. specialize (Hl H). subst run. simpl in Hl. lia. }
  destruct (_ <? _); [|now split].
  set (more := Z.to_nat _). split.
  - rewrite BinaryInsertionSort_perm, <- app_assoc, firstn_skipn. exact Hp.
  - intros H E. specialize (Hne H).
    pose proof (BinaryInsertionSort_perm A comparefn run (firstn more rest)) as Hb.
    rewrite E in Hb. apply Permutation_nil in Hb. destruct run; [congruence|discriminate].
Qed.

Lemma ArrayTimSortImpl_loop_perm fuel minRunLength : forall remaining runs mg,
  Permutation
    (covered (fst (ArrayTimSortImpl_loop comparefn fuel minRunLength remaining (runs, mg))))
    (covered runs ++ remaining).
Proof.
  induction fuel as [|fuel IH]; intros remaining runs mg.
  - destruct remaining; cbn [ArrayTimSortImpl_loop fst];
      [now rewrite app_nil_r|now rewrite covered_cons].
  - destruct remaining as [|x remaining']; [cbn [ArrayTimSortImpl_loop fst]; now rewrite app_nil_r|].
    cbn [ArrayTimSortImpl_loop].
    set (remaining := x :: remaining').
    pose proof (nextRun_perm minRunLength remaining) as Hn.
    destruct (CountAndMakeRun comparefn remaining) as [run rest].
    destruct (if runLength run <? minRunLength then _ else _) as [run' rest'].
    destruct Hn as [Hp _].
    pose proof (MergeCollapse_perm (S (List.length runs)) (run' :: runs) mg) as Hc.
    destruct (MergeCollapse _ _ _) as [runs' mg']. cbn [fst] in Hc.
    rewrite IH, Hc, covered_cons, <- Hp. same_pieces.
Qed.

(** The sort always ends and only rearranges. *)
Lemma sort_perm l : Permutation (Array_sort comparefn l) l.
Proof.
  unfold Array_sort, ArrayTimSortImpl.
  destruct (_ <? _)%nat; [reflexivity|].
  pose proof (ArrayTimSortImpl_loop_perm (List.length l)
                (ComputeMinRunLength (runLength l)) l [] kMinGallopWins) as H.
  destruct (ArrayTimSortImpl_loop _ _ _ _ _) as [runs mg]. cbn [fst] in *.
  pose proof (MergeForceCollapse_perm (List.length runs) runs mg) as Hf.
  destruct (MergeForceCollapse _ _ _) as [runs' mg']. cbn [fst] in Hf.
  fold (covered runs'). now rewrite Hf, H.
Qed.

(** A list with no descent is left as it is. *)
Lemma sort_fixed l : chain l -> Array_sort comparefn l = l.
Proof.
  intros H. unfold Array_sort, ArrayTimSortImpl.
  destruct (Nat.ltb_spec (List.length l) 2) as [Hlt|Hge]; [reflexivity|].
  destruct l as [|x l']; [simpl in Hge; lia|].
  set (l := x :: l') in *.
  assert (Hmin : (runLength l <? ComputeMinRunLength (runLength l)) = false).
  { apply Z.ltb_ge. apply ComputeMinRunLength_le. unfold runLength. lia. }
  destruct (List.length l) as [|[|n]] eqn:El; try lia.
  cbn [ArrayTimSortImpl_loop]. unfold l at 1.
  fold l. rewrite (CountAndMakeRun_fixed A comparefn l H), Hmin.
  cbn [MergeCollapse List.length ArrayTimSortImpl_loop fst MergeForceCollapse rev app List.concat].
  apply app_nil_r.
Qed.

Section Antisymmetric.
Hypothesis anti : forall x y, cmp x y < 0 -> 0 <= cmp y x.

Lemma MergeLow_chain front a y b' back mg :
  a <> [] ->
  lowInv comparefn (front ++ [y]) a b' back ->
  chain (front ++ fst (MergeLow comparefn a (y :: b') mg) ++ back).
Proof.
  intros Ha Hinv. unfold MergeLow.
  destruct b' as [|y2 b2]; cbn [isEmpty].
  { cbn [fst].
    pose proof (lowInv_Succeed _ _ _ _ _ _ Hinv ltac:(now right) ltac:(now left)) as H.
    by_chain H. }
  destruct (Nat.eqb_spec (List.length a) 1) as [H1|H1].
  { destruct a as [|z [|? ?]]; try discriminate. cbn [fst].
    pose proof (lowInv_CopyB _ _ _ _ _ _ Hinv ltac:(discriminate)) as H. by_chain H. }
  apply MergeLow_loop_chain; try assumption.
  - lia.
  - destruct a as [|? [|? ?]]; simpl in *; try congruence; lia.
  - simpl. lia.
Qed.

Lemma MergeHigh_chain front a' x b back mg :
  b <> [] ->
  highInv comparefn front a' b (x :: back) ->
  chain (front ++ fst (MergeHigh comparefn (a' ++ [x]) b mg) ++ back).
Proof.
  intros Hb Hinv. unfold MergeHigh. rewrite unsnoc_app.
  destruct a' as [|x1 a'']; cbn [isEmpty].
  { cbn [fst].
    pose proof (highInv_Succeed _ _ _ _ _ _ Hinv ltac:(now left) ltac:(now right)) as H.
    by_chain H. }
  destruct (Nat.eqb_spec (List.length b) 1) as [H1|H1].
  { destruct b as [|z [|? ?]]; try discriminate. cbn [fst].
    pose proof (highInv_CopyA _ _ _ _ _ _ Hinv ltac:(discriminate)) as H. by_chain H. }
  apply MergeHigh_loop_chain; try assumption.
  - lia.
  - simpl. lia.
  - destruct b as [|? [|? ?]]; simpl in *; try congruence; lia.
Qed.

Lemma MergeAt_chain a b mg :
  a <> [] -> chain a -> chain b -> chain (fst (MergeAt comparefn a b mg)).
Proof.
  intros Hne Ha Hb. unfold MergeAt. destruct b as [|keyRight b0]; [exact Ha|].
  assert (Hlen : 0 <= 0 < Z.of_nat (List.length a)).
  { destruct a; [congruence|]. simpl. lia. }
  destruct (GallopRight_fits A comparefn anti a keyRight 0 Hlen) as (_ & Hfront & Hkey).
  revert Hfront Hkey. generalize (Z.to_nat (GallopRight comparefn a keyRight 0)). intros k.
  rewrite <- (firstn_skipn k a) in Ha. revert Ha.
  generalize (firstn k a) (skipn k a). clear a Hne Hlen. intros front a Ha Hfront Hkey.
  assert (Hfb : chain (front ++ keyRight :: b0)).
  { apply (chain_after A comparefn [] front keyRight b0);
      [now apply Sorted_app_l in Ha|assumption|assumption]. }
  destruct (unsnoc_cases a) as [[-> ->]|(a' & keyLeft & -> & ->)]; [exact Hfb|].
  set (b := keyRight :: b0) in *.
  assert (Hlenb : 0 <= Z.of_nat (List.length b) - 1 < Z.of_nat (List.length b))
    by (unfold b; cbn [List.length]; lia).
  destruct (GallopLeft_fits A comparefn anti b keyLeft _ Hlenb) as (_ & Hb' & Hback).
  revert Hb' Hback.
  generalize (Z.to_nat (GallopLeft comparefn b keyLeft (Z.of_nat (List.length b) - 1))).
  intros lengthB.
  assert (Eb : b = firstn lengthB b ++ skipn lengthB b) by now rewrite firstn_skipn.
  revert Eb. generalize (firstn lengthB b) (skipn lengthB b). intros b' back Eb Hb' Hback.
  assert (Haback : chain ((a' ++ [keyLeft]) ++ back)).
  { rewrite <- app_assoc. cbn [app]. apply chain_before.
    - now apply Sorted_app_r in Ha.
    - rewrite Eb in Hb. now apply Sorted_app_r in Hb.
    - assumption. }
  destruct b' as [|y b'']; cbn [isEmpty].
  { cbn [fst].
    pose proof (Sorted_overlap front (a' ++ [keyLeft]) back
                  ltac:(destruct a'; discriminate) Ha Haback) as H. exact H. }
  assert (Ey : y = keyRight) by (unfold b in Eb; cbn [app] in Eb; congruence).
  subst y.
  assert (Hbk : chain ((keyRight :: b'') ++ [keyLeft])).
  { apply (chain_after A comparefn [] (keyRight :: b'') keyLeft []);
      [|repeat constructor|assumption].
    rewrite Eb in Hb. now apply Sorted_app_l in Hb. }
  assert (Hfb' : chain (front ++ keyRight :: b'')).
  { rewrite Eb in Hfb. change (chain (front ++ (keyRight :: b'') ++ back)) in Hfb.
    rewrite app_assoc in Hfb. now apply Sorted_app_l in Hfb. }
  assert (Hbb : chain ((keyRight :: b'') ++ back)) by now rewrite <- Eb.
  destruct (_ <=? _)%nat.
  - pose proof (MergeLow_chain front (a' ++ [keyLeft]) keyRight b'' back mg
                  ltac:(destruct a'; discriminate)) as H.
    destruct (MergeLow _ _ _ _) as [merged mg']. cbn [fst] in *. apply H.
    repeat split.
    + rewrite <- app_assoc. cbn [app]. apply chain_before; [|now apply Sorted_app_r in Ha|assumption].
      change (chain (front ++ [keyRight] ++ b'')) in Hfb'. rewrite app_assoc in Hfb'.
      now apply Sorted_app_l in Hfb'.
    + now rewrite <- app_assoc.
    + assumption.
    + now apply Sorted_tail in Hbb.
    + intros a0 z E. apply app_inj_tail in E as [_ <-]. now apply Sorted_tail in Hbk.
  - pose proof (MergeHigh_chain front a' keyLeft (keyRight :: b'') back mg
                  ltac:(discriminate)) as H.
    destruct (MergeHigh _ _ _ _) as [merged mg']. cbn [fst] in *. apply H.
    repeat split.
    + now rewrite <- app_assoc in Haback.
    + change (chain ((keyRight :: b'') ++ keyLeft :: back)).
      apply Sorted_join; [exact Hbk|].
      rewrite <- app_assoc in Haback. now apply Sorted_app_r in Haback.
    + rewrite app_assoc in Ha. now apply Sorted_app_l in Ha.
    + assumption.
    + intros y0 b1 E. injection E as <- <-.
      destruct a' as [|x1 a'']; [repeat constructor|].
      apply Sorted_cons2; [now apply (Hkey x1 (a'' ++ [keyLeft]))|].
      apply Sorted_app_r in Ha. change (chain ((x1 :: a'') ++ [keyLeft])) in Ha.
      now apply Sorted_app_l in Ha.
Qed.

Lemma MergeAt_isRun a b mg :
  isRun comparefn a -> isRun comparefn b -> isRun comparefn (fst (MergeAt comparefn a b mg)).
Proof.
  intros [Hna Ha] [Hnb Hb]. split; [|now apply MergeAt_chain].
  intros E. pose proof (MergeAt_perm a b mg) as H. rewrite E in H.
  apply Permutation_nil in H. destruct a; [congruence|discriminate].
Qed.

Lemma MergeCollapse_runs fuel : forall runs mg,
  Forall (isRun comparefn) runs ->
  Forall (isRun comparefn) (fst (MergeCollapse comparefn fuel (runs, mg))).
Proof.
  induction fuel as [|fuel IH]; intros runs mg H; [exact H|].
  cbn [MergeCollapse].
  destruct runs as [|r2 [|r1 [|r0 rest]]]; try exact H.
  - inversion H as [|? ? H2 H']; subst. inversion H' as [|? ? H1 _]; subst.
    destruct (_ <=? _); [|exact H].
    pose proof (MergeAt_isRun r1 r2 mg H1 H2) as Hm. destruct (MergeAt _ _ _ _) as [m mg'].
    apply IH. cbn [fst] in Hm. repeat first [assumption | constructor].
  - inversion H as [|? ? H2 H']; subst. inversion H' as [|? ? H1 H'']; subst.
    inversion H'' as [|? ? H0 Hrest]; subst.
    destruct (_ || _).
    + destruct (_ <? _).
      * pose proof (MergeAt_isRun r0 r1 mg H0 H1) as Hm. destruct (MergeAt _ _ _ _) as [m mg'].
        apply IH. cbn [fst] in Hm. repeat first [assumption | constructor].
      * pose proof (MergeAt_isRun r1 r2 mg H1 H2) as Hm. destruct (MergeAt _ _ _ _) as [m mg'].
        apply IH. cbn [fst] in Hm. repeat first [assumption | constructor].
    + destruct (_ <=? _); [|exact H].
      pose proof (MergeAt_isRun r1 r2 mg H1 H2) as Hm. destruct (MergeAt _ _ _ _) as [m mg'].
      apply IH. cbn [fst] in Hm. repeat first [assumption | constructor].
Qed.

Lemma MergeForceCollapse_runs fuel : forall runs mg,
  Forall (isRun comparefn) runs ->
  Forall (isRun comparefn) (fst (MergeForceCollapse comparefn fuel (runs, mg))).
Proof.
  induction fuel as [|fuel IH]; intros runs mg H; [exact H|].
  cbn [MergeForceCollapse].
  destruct runs as [|r2 [|r1 [|r0 rest]]]; try exact H.
  - inversion H as [|? ? H2 H']; subst. inversion H' as [|? ? H1 _]; subst.
    pose proof (MergeAt_isRun r1 r2 mg H1 H2) as Hm. destruct (MergeAt _ _ _ _) as [m mg'].
    apply IH. cbn [fst] in Hm. repeat first [assumption | constructor].
  - inversion H as [|? ? H2 H']; subst. inversion H' as [|? ? H1 H'']; subst.
    inversion H'' as [|? ? H0 Hrest]; subst.
    destruct (_ <? _).
    + pose proof (MergeAt_isRun r0 r1 mg H0 H1) as Hm. destruct (MergeAt _ _ _ _) as [m mg'].
      apply IH. cbn [fst] in Hm. repeat first [assumption | constructor].
    + pose proof (MergeAt_isRun r1 r2 mg H1 H2) as Hm. destruct (MergeAt _ _ _ _) as [m mg'].
      apply IH. cbn [fst] in Hm. repeat first [assumption | constructor].
Qed.

Lemma nextRun_chain minRunLength remaining :
  let '(run, rest) := CountAndMakeRun comparefn remaining in
  let '(run', rest') :=
    if runLength run <? minRunLength then
      let forcedRunLength := Z.min minRunLength (runLength remaining) in
      let more := Z.to_nat (forcedRunLength - runLength run) in
      (BinaryInsertionSort comparefn run (firstn more rest), skipn more rest)
    else (run, rest) in
  chain run'.
Proof.
  pose proof (CountAndMakeRun_chain A comparefn anti remaining) as Hc.
  destruct (CountAndMakeRun comparefn remaining) as [run rest]. cbn [fst] in Hc.
  destruct (_ <? _); [|exact Hc].
  now apply BinaryInsertionSort_chain.
Qed.

Lemma ArrayTimSortImpl_loop_runs fuel minRunLength : forall remaining runs mg,
  (List.length remaining <= fuel)%nat ->
  Forall (isRun comparefn) runs ->
  Forall (isRun comparefn)
    (fst (ArrayTimSortImpl_loop comparefn fuel minRunLength remaining (runs, mg))).
Proof.
  induction fuel as [|fuel IH]; intros remaining runs mg Hfuel Hruns.
  - destruct remaining; [exact Hruns|simpl in Hfuel; lia].
  - destruct remaining as [|x remaining']; [exact Hruns|].
    cbn [ArrayTimSortImpl_loop].
    set (remaining := x :: remaining') in *.
    pose proof (nextRun_perm minRunLength remaining) as Hn.
    pose proof (nextRun_chain minRunLength remaining) as Hc.
    destruct (CountAndMakeRun comparefn remaining) as [run rest].
    destruct (if runLength run <? minRunLength then _ else _) as [run' rest'].
    destruct Hn as [Hp Hne]. specialize (Hne ltac:(discriminate)).
    pose proof (MergeCollapse_runs (S (List.length runs)) (run' :: runs) mg
                  ltac:(constructor; [now split|assumption])) as Hm.
    destruct (MergeCollapse _ _ _) as [runs' mg']. cbn [fst] in Hm.
    apply IH; [|assumption].
    apply Permutation_length in Hp. rewrite length_app in Hp.
    destruct run'; [congruence|]. unfold remaining in *. cbn [List.length app] in *. lia.
Qed.

(** Under such a comparator the outcome has no descent. *)
Lemma sort_chain l : chain (Array_sort comparefn l).
Proof.
  unfold Array_sort, ArrayTimSortImpl.
  destruct (Nat.ltb_spec (List.length l) 2) as [Hlt|Hge].
  { destruct l as [|x [|y l]]; [constructor|repeat constructor|simpl in Hlt; lia]. }
  pose proof (ArrayTimSortImpl_loop_runs (List.length l)
                (ComputeMinRunLength (runLength l)) l [] kMinGallopWins
                ltac:(lia) ltac:(constructor)) as H.
  destruct (ArrayTimSortImpl_loop _ _ _ _ _) as [runs mg]. cbn [fst] in *.
  pose proof (MergeForceCollapse_runs (List.length runs) runs mg H) as Hf.
  pose proof (MergeForceCollapse_one (List.length runs) runs mg ltac:(lia)) as H1.
  destruct (MergeForceCollapse _ _ _) as [runs' mg']. cbn [fst] in *.
  destruct runs' as [|r [|? ?]]; [constructor| |simpl in H1; lia].
  cbn [rev app List.concat]. rewrite app_nil_r. inversion Hf as [|? ? [_ Hr] _]; subst. exact Hr.
Qed.

(** Sorting what is sorted changes nothing. *)
Lemma sort_idempotent l : Array_sort comparefn (Array_sort comparefn l) = Array_sort comparefn l.
Proof. apply sort_fixed, sort_chain. Qed.

Section ByKey.
Variable key : A -> Z.

Lemma cmp_key l x y : keyed_on comparefn key l -> In x l -> In y l -> cmp x y = key y - key x.
Proof. intros H Hx Hy. unfold SortCompare. now rewrite (H x y Hx Hy). Qed.

Lemma chain_descending l :
  keyed_on comparefn key l -> chain l -> StronglySorted (descending key) l.
Proof.
  intros Hk Hc. apply Sorted_StronglySorted.
  - intros x y z Hxy Hyz. unfold descending in *. lia.
  - induction Hc as [|x l Hs IH Hd]; constructor.
    + apply IH. intros a b Ha Hb. apply Hk; now right.
    + destruct Hd as [|y l Hxy]; constructor.
      unfold inOrder in Hxy. rewrite (cmp_key (x :: y :: l)) in Hxy; simpl; auto.
      unfold descending. lia.
Qed.

(** With a comparator that is the difference of a key the outcome is
    in descending key order throughout. *)
Lemma sort_descending l : keyed_on comparefn key l -> StronglySorted (descending key) (sort l).
Proof.
  intros Hk. apply chain_descending; [|apply sort_chain].
  intros a b Ha Hb. apply Hk; now apply (Permutation_in _ (sort_perm l)).
Qed.

End ByKey.
End Antisymmetric.
End SortFacts.

(** ** The merge *)

Section Lookup.
Import JsMap JsMapFacts.

Lemma keyed_mapOf c n : keyed (mapOf c n).
Proof. apply keyed_forEach, keyed_forEach, keyed_empty. Qed.

Lemma ids_of_values m : keyed m -> map reviewId (values m) = map Some (keys m).
Proof.
  intros [Hall _]. unfold values, keys. rewrite !map_map.
  apply map_ext_in. intros e He.
  rewrite Forall_forall in Hall. now destruct (Hall e He).
Qed.

Lemma NoDup_map_Some (l : list string) : NoDup l -> NoDup (map Some l).
Proof.
  induction 1 as [|x l Hout Hnd IH]; simpl; constructor; [|assumption].
  rewrite in_map_iff. intros (y & [= ->] & Hin). contradiction.
Qed.

Lemma wellKeyed_values m : keyed m -> wellKeyed (values m).
Proof.
  intros Hm. split.
  - destruct Hm as [Hall _]. unfold values. apply Forall_map.
    eapply Forall_impl; [|exact Hall].
    intros [k v] [Hid Hk]; simpl in *. rewrite Hid. now apply truthy_Some.
  - rewrite ids_of_values by assumption. apply NoDup_map_Some. apply Hm.
Qed.

Lemma wellKeyed_perm l l' : Permutation l l' -> wellKeyed l -> wellKeyed l'.
Proof.
  intros Hp [Hall Hnd]. split.
  - eapply Permutation_Forall; eassumption.
  - eapply Permutation_NoDup; [|exact Hnd]. now apply Permutation_map.
Qed.


Lemma findById_Some k l r : findById k l = Some r -> In r l /\ reviewId r = Some k.
Proof.
  unfold findById. intros H. apply find_some in H as [Hin Hh].
  split; [assumption|now apply hasId_true].
Qed.

Lemma findById_unique k l r :
  NoDup (map reviewId l) -> In r l -> reviewId r = Some k -> findById k l = Some r.
Proof.
  unfold findById. induction l as [|a l IH]; simpl; [tauto|].
  intros Hnd [->|Hin] Hid.
  - now rewrite (proj2 (hasId_true k r) Hid).
  - inversion Hnd as [|? ? Hout Hnd']; subst.
    destruct (hasId k a) eqn:E; [|now apply IH].
    apply hasId_true in E. exfalso. apply Hout.
    rewrite E, <- Hid. now apply in_map.
Qed.

Lemma findById_None k l :
  findById k l = None <-> (forall r, In r l -> reviewId r <> Some k).
Proof.
  unfold findById. split.
  - intros H r Hin Hid. pose proof (find_none _ _ H r Hin) as Hf.
    apply hasId_true in Hid. congruence.
  - intros H. destruct (find (hasId k) l) as [r|] eqn:E; [|reflexivity].
    apply find_some in E as [Hin Hh]. apply hasId_true in Hh.
    exfalso. now apply (H r).
Qed.

Lemma in_values_get m r :
  keyed m -> In r (values m) -> exists k, reviewId r = Some k /\ k <> "" /\ get k m = Some r.
Proof.
  intros [Hall Hnd] Hin. unfold values in Hin. apply in_map_iff in Hin as ([k v] & <- & He).
  rewrite Forall_forall in Hall. destruct (Hall _ He) as [Hid Hk]. simpl in *.
  exists k. repeat split; [assumption|assumption|now apply In_get].
Qed.

Lemma get_in_values m k r : get k m = Some r -> In r (values m).
Proof.
  intros H. apply get_Some_In in H. unfold values.
  change r with (snd (k, r)). now apply in_map.
Qed.

(** Looking a record up by id in a rearrangement of the map's values
    is reading the map. *)
Lemma findById_get m l k :
  keyed m -> Permutation l (values m) -> findById k l = get k m.
Proof.
  intros Hm Hp.
  assert (Hl : wellKeyed l)
    by (eapply wellKeyed_perm; [symmetry; exact Hp|now apply wellKeyed_values]).
  destruct (get k m) as [r|] eqn:E.
  - apply findById_unique; [apply Hl| |].
    + apply (Permutation_in _ (Permutation_sym Hp)). now apply get_in_values with k.
    + apply get_Some_In in E. destruct Hm as [Hall _].
      rewrite Forall_forall in Hall. now destruct (Hall _ E).
  - apply findById_None. intros r Hin Hid.
    apply (Permutation_in _ Hp) in Hin.
    destruct (in_values_get m r Hm Hin) as (k' & Hid' & _ & Hg).
    congruence.
Qed.

Lemma get_mapOf c n k :
  k <> "" ->
  get k (mapOf c n) =
  match lastWithId k n with
  | Some r => Some r
  | None => lastWithId k c
  end.
Proof.
  intros Hk. unfold mapOf. rewrite !get_forEach by assumption.
  simpl. now destruct (lastWithId k n), (lastWithId k c).
Qed.

End Lookup.

Section MergeFacts.
Import JsMap JsMapFacts.
Variable Date_parse : string -> option Z.

Local Notation "'merge'" := (mergeReviews Date_parse).

Lemma merge_perm c n : Permutation (merge c n) (values (mapOf c n)).
Proof. apply sort_perm. Qed.

Lemma wellKeyed_merge c n : wellKeyed (merge c n).
Proof.
  eapply wellKeyed_perm; [symmetry; apply merge_perm|].
  apply wellKeyed_values, keyed_mapOf.
Qed.

Lemma findById_merge c n k :
  k <> "" ->
  findById k (merge c n) =
  match lastWithId k n with
  | Some r => Some r
  | None => lastWithId k c
  end.
Proof.
  intros Hk.
  rewrite (findById_get (mapOf c n)); [now apply get_mapOf|apply keyed_mapOf|apply merge_perm].
Qed.

End MergeFacts.
(** ** Merging twice *)

Section Reload.
Import JsMap JsMapFacts.

Lemma set_absent k v m : ~ In k (keys m) -> set k v m = m ++ [(k, v)].
Proof.
  induction m as [|[k0 v0] m IH]; simpl; [reflexivity|].
  intros H. destruct (String.eqb_spec k0 k) as [->|Hk].
  - exfalso. apply H. now left.
  - f_equal. apply IH. tauto.
Qed.

Lemma key_of_entry r k : reviewId r = Some k -> entryOf r = (k, r).
Proof. intros H. unfold entryOf. now rewrite H. Qed.

(** Loading a well-keyed list into a map that has none of its ids
    appends its records one by one. *)
Lemma forEach_append s : forall m,
  wellKeyed s ->
  (forall r k, In r s -> reviewId r = Some k -> ~ In k (keys m)) ->
  forEach_set s m = m ++ map entryOf s.
Proof.
  induction s as [|r s IH]; intros m [Hall Hnd] Hfresh; simpl.
  - now rewrite app_nil_r.
  - change (fold_left setReview s (setReview m r)) with (forEach_set s (setReview m r)).
    inversion Hall as [|? ? Hr Hall']; subst.
    inversion Hnd as [|? ? Hout Hnd']; subst.
    destruct (truthy_inv _ Hr) as (k & Hid & Hk).
    rewrite (setReview_set m r k Hid Hk).
    rewrite set_absent by (apply (Hfresh r k); [now left|assumption]).
    rewrite IH.
    + rewrite <- app_assoc. simpl. now rewrite (key_of_entry r k Hid).
    + now split.
    + intros r' k' Hin Hid' Hin'.
      unfold keys in Hin'. rewrite map_app in Hin'. apply in_app_or in Hin' as [Hin'|[<-|[]]].
      * apply (Hfresh r' k'); [now right|assumption|assumption].
      * simpl in Hid'. apply Hout. rewrite Hid, <- Hid'. now apply in_map.
Qed.

Lemma forEach_wellKeyed s : wellKeyed s -> forEach_set s empty = map entryOf s.
Proof.
  intros Hs. rewrite (forEach_append s empty Hs); [reflexivity|].
  intros r k _ _ [].
Qed.

Lemma values_entries s : values (map entryOf s) = s.
Proof.
  unfold values. rewrite map_map. simpl. apply map_id.
Qed.

End Reload.

Section Repeat.
Import JsMap JsMapFacts.
Variable Date_parse : string -> option Z.

Local Notation "'merge'" := (mergeReviews Date_parse).

Lemma byDateDesc_anti x y :
  SortCompare (byDateDesc Date_parse) x y < 0 ->
  0 <= SortCompare (byDateDesc Date_parse) y x.
Proof.
  unfold SortCompare, byDateDesc.
  destruct (dateOf Date_parse x), (dateOf Date_parse y); lia.
Qed.

Lemma mapOf_merge c n : mapOf (merge c n) n = map entryOf (merge c n).
Proof.
  pose proof (wellKeyed_merge Date_parse c n) as Hs.
  set (s := merge c n) in *.
  assert (Hload : forEach_set s empty = map entryOf s) by now apply forEach_wellKeyed.
  assert (HM : keyed (map entryOf s)).
  { rewrite <- Hload. apply keyed_forEach, keyed_empty. }
  unfold mapOf. rewrite Hload.
  assert (Hfind : forall k, findById k s = get k (map entryOf s)).
  { intros k. apply (findById_get (map entryOf s) s k HM). now rewrite values_entries. }
  assert (Hkeys : keys (forEach_set n (map entryOf s)) = keys (map entryOf s)).
  { apply keys_forEach_present. intros r k Hin Hid Hk.
    destruct (get k (map entryOf s)) eqn:E.
    - apply get_Some_In in E. change k with (fst (k, r0)). now apply in_map.
    - rewrite <- Hfind in E. unfold s in E.
      rewrite findById_merge in E by assumption.
      destruct (lastWithId k n) eqn:El; [discriminate|].
      exfalso. exact (proj1 (lastWithId_None k n) El r Hin Hid). }
  apply ext.
  - assumption.
  - apply keyed_forEach. assumption.
  - intros k Hin.
    assert (Hk : k <> "").
    { rewrite Hkeys in Hin. destruct HM as [Hall _].
      unfold keys in Hin. apply in_map_iff in Hin as (e & <- & He).
      rewrite Forall_forall in Hall. now destruct (Hall e He). }
    rewrite get_forEach by assumption.
    destruct (lastWithId k n) eqn:El; [|reflexivity].
    rewrite <- Hfind. unfold s. rewrite findById_merge by assumption.
    now rewrite El.
Qed.

Lemma merge_again c n : merge (merge c n) n = merge c n.
Proof.
  unfold mergeReviews at 1.
  change (forEach_set n (forEach_set (merge c n) empty)) with (mapOf (merge c n) n).
  rewrite mapOf_merge, values_entries.
  unfold mergeReviews. apply sort_idempotent. apply byDateDesc_anti.
Qed.

End Repeat.

(** * Main results *)

(** ** The merge *)

Section MergeResults.
Import Sample.
Variable Date_parse : string -> option Z.

Local Notation "'merge'" := (mergeReviews Date_parse).

(** C1, as amended.  At every non-empty id the merged list holds one
    record: the last incoming record carrying that id, whole, whatever
    the cache had there; when no incoming record carries the id, the
    last cached record carrying it, unchanged. *)
Theorem mergeReviews_last_writer_wins (cachedReviews newReviews : list review) (k : string) :
  k <> "" ->
  findById k (merge cachedReviews newReviews) =
    match lastWithId k newReviews with
    | Some r => Some r
    | None => lastWithId k cachedReviews
    end
  /\ (forall r, In r (merge cachedReviews newReviews) -> reviewId r = Some k ->
        findById k (merge cachedReviews newReviews) = Some r).
Proof.
  intros Hk. split.
  - now apply findById_merge.
  - intros r Hin Hid. apply findById_unique; [|assumption|assumption].
    apply wellKeyed_merge.
Qed.

Lemma idsOf_In x l :
  In x (idsOf l) <-> exists r k, In r l /\ reviewId r = Some k /\ k <> "" /\ x = Some k.
Proof.
  unfold idsOf. rewrite filter_In, in_map_iff. split.
  - intros [(r & <- & Hin) Ht]. destruct (truthy_inv _ Ht) as (k & Hid & Hk).
    exists r, k. auto.
  - intros (r & k & Hin & Hid & Hk & ->). split.
    + exists r. auto.
    + now apply truthy_Some.
Qed.

Lemma idsOf_merge_incl c n : incl (idsOf c) (idsOf (merge c n)).
Proof.
  intros x Hx. apply idsOf_In in Hx as (r & k & Hin & Hid & Hk & ->).
  assert (Hkey : In k (JsMap.keys (mapOf c n))).
  { unfold mapOf. apply keys_forEach_incl. now apply keys_forEach_in with r. }
  destruct (JsMap.get k (mapOf c n)) as [r'|] eqn:E.
  - apply idsOf_In. exists r', k. repeat split; try assumption.
    + apply (Permutation_in _ (Permutation_sym (merge_perm Date_parse c n))).
      now apply get_in_values with k.
    + apply JsMapFacts.get_Some_In in E.
      destruct (keyed_mapOf c n) as [Hall _]. rewrite Forall_forall in Hall.
      now destruct (Hall _ E).
  - apply JsMapFacts.get_None_iff in E. contradiction.
Qed.

(** C2.  A merge keeps every non-empty id of the cached list and
    yields no id twice; so along any run of merges the ids only
    grow. *)
Theorem mergeReviews_ids_monotone :
  (forall cachedReviews newReviews,
     incl (idsOf cachedReviews) (idsOf (merge cachedReviews newReviews))
     /\ NoDup (map reviewId (merge cachedReviews newReviews)))
  /\ (forall cachedReviews batches,
        incl (idsOf cachedReviews) (idsOf (mergeAll Date_parse cachedReviews batches))).
Proof.
  split.
  - intros c n. split; [apply idsOf_merge_incl|apply wellKeyed_merge].
  - intros c batches. revert c.
    induction batches as [|n batches IH]; intros c; simpl.
    + apply incl_refl.
    + eapply incl_tran; [apply idsOf_merge_incl|apply IH].
Qed.

(** C5.  Merging the same incoming list a second time returns the very
    list the first merge returned. *)
Theorem mergeReviews_idempotent (cachedReviews newReviews : list review) :
  merge (merge cachedReviews newReviews) newReviews = merge cachedReviews newReviews.
Proof. apply merge_again. Qed.

Lemma keyed_on_dated l :
  (forall r, In r l -> dateOf Date_parse r <> None) ->
  keyed_on (byDateDesc Date_parse) (timeOf Date_parse) l.
Proof.
  intros H x y Hx Hy. unfold byDateDesc, timeOf.
  pose proof (H x Hx). pose proof (H y Hy).
  destruct (dateOf Date_parse x), (dateOf Date_parse y); congruence.
Qed.

Lemma descending_parseable l :
  StronglySorted (descending (timeOf Date_parse)) l -> parseableDescending Date_parse l.
Proof.
  unfold parseableDescending.
  induction 1 as [|a l Hs IH Hall]; constructor; [|assumption].
  eapply Forall_impl; [|exact Hall].
  intros b Hab ta tb Ha Hb. unfold descending, timeOf in Hab.
  now rewrite Ha, Hb in Hab.
Qed.

(** X23.  The sort always ends with a rearrangement of the merged
    records.  When every merged record has a date that parses, the
    result is newest first: each record is no older than all after
    it, so strictly newer when the dates differ. *)
Theorem mergeReviews_sorted_when_dated (cachedReviews newReviews : list review) :
  Permutation (merge cachedReviews newReviews)
              (JsMap.values (mapOf cachedReviews newReviews))
  /\ ((forall r, In r (merge cachedReviews newReviews) -> dateOf Date_parse r <> None) ->
      StronglySorted (descending (timeOf Date_parse)) (merge cachedReviews newReviews)
      /\ parseableDescending Date_parse (merge cachedReviews newReviews)).
Proof.
  split; [apply merge_perm|].
  intros Hdated.
  assert (Hk : keyed_on (byDateDesc Date_parse) (timeOf Date_parse)
                 (JsMap.values (mapOf cachedReviews newReviews))).
  { apply keyed_on_dated. intros r Hin. apply Hdated.
    now apply (Permutation_in _ (Permutation_sym (merge_perm Date_parse cachedReviews newReviews))). }
  assert (Hs : StronglySorted (descending (timeOf Date_parse))
                 (merge cachedReviews newReviews)).
  { unfold mergeReviews. fold (mapOf cachedReviews newReviews).
    apply sort_descending; [apply byDateDesc_anti|exact Hk]. }
  split; [exact Hs|now apply descending_parseable].
Qed.

(** X24.  Whatever dates the records carry, no record of the merged
    list is followed at once by a newer one: of two neighbours with
    valid dates the first is not the older. *)
Theorem mergeReviews_neighbours_in_order (cachedReviews newReviews : list review)
    (front back : list review) (x y : review) (tx ty : Z) :
  merge cachedReviews newReviews = front ++ x :: y :: back ->
  dateOf Date_parse x = Some tx ->
  dateOf Date_parse y = Some ty ->
  ty <= tx.
Proof.
  intros E Hx Hy.
  pose proof (sort_chain review (byDateDesc Date_parse) (byDateDesc_anti Date_parse)
                (JsMap.values (mapOf cachedReviews newReviews))) as H.
  change (Array_sort (byDateDesc Date_parse) (JsMap.values (mapOf cachedReviews newReviews)))
    with (merge cachedReviews newReviews) in H.
  rewrite E in H. apply Sorted_app_r in H. apply Sorted_cons2_inv in H.
  unfold inOrder, SortCompare, byDateDesc in H. rewrite Hx, Hy in H. lia.
Qed.

End MergeResults.

(** C1, witness: the review cached with four stars and fetched again
    with five is served with five. *)
Lemma mergeReviews_last_writer_wins_witness :
  findById "r1" (mergeReviews Date_parse_ymd [Sample.r1_four] [Sample.r1_five])
  = Some Sample.r1_five.
Proof.
  rewrite (proj1 (mergeReviews_last_writer_wins Date_parse_ymd
                    [Sample.r1_four] [Sample.r1_five] "r1" ltac:(discriminate))).
  reflexivity.
Defined.

(** C1, counterexample: of two incoming records with the same id the
    first is not in the merged list. *)
Lemma mergeReviews_drops_overwritten_incoming :
  In Sample.r1_four [Sample.r1_four; Sample.r1_five]
  /\ truthy (reviewId Sample.r1_four) = true
  /\ ~ In Sample.r1_four
        (mergeReviews Date_parse_ymd [] [Sample.r1_four; Sample.r1_five]).
Proof.
  split; [now left|]. split; [reflexivity|].
  vm_compute. intros [H|[]]. discriminate H.
Qed.

(** X23, witness: the three dated records come out as 2025-06-01,
    2024-01-01, 2023-03-03. *)
Lemma mergeReviews_sorted_when_dated_witness :
  mergeReviews Date_parse_ymd [Sample.a; Sample.b; Sample.c] []
    = [Sample.b; Sample.a; Sample.c]
  /\ StronglySorted (descending (timeOf Date_parse_ymd))
       (mergeReviews Date_parse_ymd [Sample.a; Sample.b; Sample.c] []).
Proof.
  split; [reflexivity|].
  apply (proj2 (mergeReviews_sorted_when_dated Date_parse_ymd
                  [Sample.a; Sample.b; Sample.c] [])).
  intros r Hin. vm_compute in Hin.
  destruct Hin as [<-|[<-|[<-|[]]]]; discriminate.
Defined.

(** X24, witness: an undated record among dated ones; the sort leaves
    2025-06-01 in front of 2024-01-01. *)
Lemma mergeReviews_neighbours_in_order_witness :
  mergeReviews Date_parse_ymd [Sample.c; Sample.a; Sample.undated; Sample.b] []
    = [] ++ Sample.b :: Sample.a :: [Sample.c; Sample.undated]
  /\ 1704067200000 <= 1748736000000.
Proof.
  assert (E : mergeReviews Date_parse_ymd [Sample.c; Sample.a; Sample.undated; Sample.b] []
              = [] ++ Sample.b :: Sample.a :: [Sample.c; Sample.undated])
    by (vm_compute; reflexivity).
  split; [exact E|].
  apply (mergeReviews_neighbours_in_order Date_parse_ymd
           [Sample.c; Sample.a; Sample.undated; Sample.b] []
           [] [Sample.c; Sample.undated] Sample.b Sample.a
           1748736000000 1704067200000 E);
    vm_compute; reflexivity.
Defined.

(** C6, at the failing input: a record without a date stands between
    an older and a newer one.  The sort compares neighbours; both
    comparisons involve the undated record, give [NaN] and count as
    "equal", so the list is returned as it stands, the older record in
    front of the newer, where the claim has the newest first. *)
Theorem mergeReviews_undated_breaks_order :
  mergeReviews Date_parse_ymd [Sample.c; Sample.undated; Sample.b] []
    = [Sample.c; Sample.undated; Sample.b]
  /\ ~ parseableDescending Date_parse_ymd
         (mergeReviews Date_parse_ymd [Sample.c; Sample.undated; Sample.b] []).
Proof.
  assert (E : mergeReviews Date_parse_ymd [Sample.c; Sample.undated; Sample.b] []
              = [Sample.c; Sample.undated; Sample.b]) by (vm_compute; reflexivity).
  split; [exact E|].
  rewrite E. unfold parseableDescending. intros H.
  inversion H as [|x l Hall _]; subst.
  inversion Hall as [|? ? _ Hall']; subst.
  inversion Hall' as [|? ? Hcb _]; subst.
  assert (Hc : dateOf Date_parse_ymd Sample.c = Some 1677801600000)
    by (vm_compute; reflexivity).
  assert (Hb : dateOf Date_parse_ymd Sample.b = Some 1748736000000)
    by (vm_compute; reflexivity).
  specialize (Hcb _ _ Hc Hb).
  lia.
Qed.

(** ** The average rating *)

Section Rating.

Lemma own_property_undefined : own_property "undefined" starValues = None.
Proof. reflexivity. Qed.

Lemma starOperand_ordinary r :
  inheritedRating r = false -> starOperand r = Num (spec_starValue r).
Proof.
  unfold inheritedRating, starOperand, spec_starValue.
  destruct (starRating r) as [s|]; simpl propertyKey; intros Hi.
  - unfold starValues, own_property.
    rewrite (String.eqb_sym "FIVE"), (String.eqb_sym "FOUR"), (String.eqb_sym "THREE"),
            (String.eqb_sym "TWO"), (String.eqb_sym "ONE").
    destruct (String.eqb s "FIVE"); [reflexivity|].
    destruct (String.eqb s "FOUR"); [reflexivity|].
    destruct (String.eqb s "THREE"); [reflexivity|].
    destruct (String.eqb s "TWO"); [reflexivity|].
    destruct (String.eqb s "ONE"); [reflexivity|].
    now rewrite Hi.
  - reflexivity.
Qed.

Lemma ratingSum_from acc l :
  Forall (fun r => inheritedRating r = false) l ->
  fold_left (fun acc review => js_add acc (starOperand review)) l (ANumber acc)
  = ANumber (acc + spec_ratingSum l).
Proof.
  intros H. revert acc. induction H as [|r l Hr Hl IH]; intros acc; simpl.
  - f_equal. unfold spec_ratingSum. simpl. lia.
  - rewrite (starOperand_ordinary r Hr). simpl. rewrite IH.
    f_equal. unfold spec_ratingSum. simpl. lia.
Qed.

(** When no rating names a member of [Object.prototype], the average
    is the specification's: the star values summed, unrecognised
    ratings counting 0, over the number of records; 0 for none. *)
Lemma averageRating_ordinary l :
  Forall (fun r => inheritedRating r = false) l ->
  averageRatingOf l = Finite (spec_averageRating l).
Proof.
  intros H. unfold averageRatingOf, ratingSum.
  destruct l as [|r l]; [reflexivity|].
  change (0 <? List.length (r :: l))%nat with true. cbv iota.
  rewrite ratingSum_from by assumption. reflexivity.
Qed.

(** Once one rating names such a member the sum is a string and the
    average is [NaN], whatever the other ratings. *)
Lemma js_add_string l :
  fold_left (fun acc review => js_add acc (starOperand review)) l AString = AString.
Proof. induction l as [|r l IH]; simpl; [reflexivity|assumption]. Qed.

End Rating.

(** C7, at the failing input: with one record rated "constructor" and
    one rated FIVE the handler's average is [NaN], where the star
    mapping of the claim gives (0 + 5) / 2; the count is the number of
    records all the same. *)
Theorem averageRating_inherited_rating :
  averageRatingOf [Sample.odd; Sample.a] = NaN
  /\ spec_averageRating [Sample.odd; Sample.a] = (5 # 2)%Q
  /\ sent (reviews_route Date_parse_ymd (Sample.request (Ok (Some [Sample.odd; Sample.a]))) NoFile)
     = Some (200%nat,
             {| p_error := None;
                reviews := [Sample.odd; Sample.a];
                averageRating := NaN;
                totalReviewCount := 2;
                name := Some "Our Business";
                placeId := Some None;
                cached := false;
                info := {| totalCached := 2; newFromGoogle := 2; lastUpdated := None |} |}).
Proof. repeat split. Qed.

(** ** Loading *)

(** C8.  [loadCache] returns on every state of the file and leaves it
    untouched; with no file, with a file that cannot be read and with
    a text that does not parse it returns the empty snapshot; a text
    that parses is returned as parsed. *)
Theorem loadCache_never_raises :
  (forall fs, exists doc, loadCache fs = (Ok doc, fs))
  /\ loadCache NoFile = (Ok emptySnapshot, NoFile)
  /\ loadCache (Content Malformed) = (Ok emptySnapshot, Content Malformed)
  /\ loadCache Unreadable = (Ok emptySnapshot, Unreadable)
  /\ (forall doc, loadCache (Content (Json doc)) = (Ok doc, Content (Json doc))).
Proof.
  repeat split.
  intros [| |[|doc]]; eexists; reflexivity.
Qed.

(** ** The handler *)

Lemma loadCache_persisted fs : loadCache fs = (Ok (persisted fs), fs).
Proof. now destruct fs as [| |[|doc]]. Qed.

Lemma bind_loadCache (B : Type) (k : cacheDoc -> M B) fs :
  bind loadCache k fs = k (persisted fs) fs.
Proof. unfold bind. now rewrite loadCache_persisted. Qed.

(** Runs the handler symbolically: unfolds the route, feeds the
    hypotheses on the configuration, the file and the fetch, and
    reduces the monad. *)
Ltac run_handler :=
  unfold reviews_route, reviews_try, reviews_catch, try_catch;
  repeat first
    [ rewrite bind_loadCache
    | match goal with
      | H : truthy (LOCATION_NAME _) = _ |- _ => rewrite H
      | H : persisted _ = _ |- _ => rewrite H
      | H : fetched _ = _ |- _ => rewrite H
      end
    | progress cbn [negb get_reviews get_lastUpdated call_mergeReviews ret throw bind
                    saveCache try_catch writeFileSync JSON_stringify orEmpty] ].

Section Handler.
Variable Date_parse : string -> option Z.

Local Notation "'merge'" := (mergeReviews Date_parse).
Local Notation "'route'" := (reviews_route Date_parse).

(** The normal cycle: a configured location and a cache document with
    a [reviews] array. *)
Lemma reviews_route_served q fs l lu :
  truthy (LOCATION_NAME q) = true ->
  persisted fs = DocObject (Some l) lu ->
  exists p,
    route q fs =
      (Ok (mkResponse 200 (Payload p)),
       fileAfterWrite q (Json (DocObject (Some (reviews p)) (Some (now q)))) fs)
    /\ p_error p = None
    /\ reviews p = merge l (match fetched q with Ok data => orEmpty data | Throw _ => [] end)
    /\ averageRating p = averageRatingOf (reviews p)
    /\ totalReviewCount p = List.length (reviews p)
    /\ cached p = (match fetched q with Ok _ => false | Throw _ => true end)
    /\ totalCached (info p) = List.length (reviews p)
    /\ newFromGoogle (info p)
       = List.length (match fetched q with Ok data => orEmpty data | Throw _ => [] end)
    /\ lastUpdated (info p) = lu.
Proof.
  intros Hloc Hdoc.
  set (newReviews := match fetched q with Ok data => orEmpty data | Throw _ => [] end).
  set (locationInfo :=
         match location q with Ok data => data | Throw _ => mkLocationInfo None None end).
  exists {| p_error := None;
            reviews := merge l newReviews;
            averageRating := averageRatingOf (merge l newReviews);
            totalReviewCount := List.length (merge l newReviews);
            name := orElse (title locationInfo) (Some "Our Business");
            placeId := Some (orElse (PLACE_ID q)
                               (orElse (metadata_placeId locationInfo) None));
            cached := match fetched q with Ok _ => false | Throw _ => true end;
            info := {| totalCached := List.length (merge l newReviews);
                       newFromGoogle := List.length newReviews;
                       lastUpdated := lu |} |}.
  split.
  - run_handler. subst newReviews locationInfo. unfold fileAfterWrite.
    destruct (diskWritable q), (writeTruncates q), (fetched q); reflexivity.
  - cbn. repeat split.
Qed.

(** A document without a [reviews] array: the merge throws, nothing is
    written, and the catch block answers 500 with an empty list. *)
Lemma reviews_route_missing_reviews q fs lu :
  truthy (LOCATION_NAME q) = true ->
  persisted fs = DocObject None lu ->
  route q fs =
    (Ok (mkResponse 500 (Payload {|
       p_error := Some "Cannot read properties of undefined (reading 'forEach')";
       reviews := [];
       averageRating := Finite 0;
       totalReviewCount := 0;
       name := None;
       placeId := None;
       cached := true;
       info := {| totalCached := 0; newFromGoogle := 0; lastUpdated := lu |} |})),
     fs).
Proof.
  intros Hloc Hdoc. run_handler. reflexivity.
Qed.

(** The document [null]: reading [cache.reviews] throws in the [try]
    and again in the [catch], and the handler sends nothing. *)
Lemma reviews_route_null q fs :
  truthy (LOCATION_NAME q) = true ->
  persisted fs = DocNull ->
  route q fs = (Throw (Error "Cannot read properties of null (reading 'reviews')"), fs).
Proof.
  intros Hloc Hdoc. run_handler. reflexivity.
Qed.

(** Every normal cycle whose write goes through stamps the file with
    the time of the request, whether the fetch threw or not. *)
Lemma reviews_route_stamps_every_cycle q fs l lu :
  truthy (LOCATION_NAME q) = true ->
  persisted fs = DocObject (Some l) lu ->
  diskWritable q = true ->
  exists merged,
    persisted (snd (route q fs)) = DocObject (Some merged) (Some (now q)).
Proof.
  intros Hloc Hdoc Hw.
  destruct (reviews_route_served q fs l lu Hloc Hdoc) as (p & Hrun & _).
  rewrite Hrun. unfold fileAfterWrite. rewrite Hw. now exists (reviews p).
Qed.

Lemma reviews_route_unconfigured q fs :
  truthy (LOCATION_NAME q) = false ->
  route q fs = (Ok (mkResponse 400 (ErrorOnly "LOCATION_NAME not configured")), fs).
Proof.
  intros Hloc. unfold reviews_route, reviews_try, try_catch. now rewrite Hloc.
Qed.

Lemma merge_nothing_new l :
  wellKeyed l -> Permutation (merge l []) l.
Proof.
  intros Hl. unfold mergeReviews. simpl forEach_set at 1.
  rewrite (forEach_wellKeyed l Hl), values_entries. apply sort_perm.
Qed.

End Handler.

Section HandlerResults.
Variable Date_parse : string -> option Z.

Local Notation "'merge'" := (mergeReviews Date_parse).
Local Notation "'route'" := (reviews_route Date_parse).

(** When the fetch fails and the cache document has a [reviews]
    array, the answer is a 200 payload with no error key, [cached]
    true and [newFromGoogle] 0, whose reviews are the merge of the
    cached records with nothing. *)
Lemma reviews_route_fetch_error q fs l lu e :
  truthy (LOCATION_NAME q) = true ->
  fetched q = Throw e ->
  persisted fs = DocObject (Some l) lu ->
  exists p fs',
    route q fs = (Ok (mkResponse 200 (Payload p)), fs')
    /\ p_error p = None
    /\ cached p = true
    /\ newFromGoogle (info p) = 0%nat
    /\ reviews p = merge l []
    /\ (forall r k, reviewId r = Some k -> k <> "" -> lastWithId k l = Some r ->
          In r (reviews p))
    /\ (wellKeyed l -> Permutation (reviews p) l).
Proof.
  intros Hloc Hfetch Hdoc.
  destruct (reviews_route_served Date_parse q fs l lu Hloc Hdoc)
    as (p & Hrun & Herr & Hrev & _ & _ & Hcached & _ & Hnew & _).
  rewrite Hfetch in *.
  exists p. eexists. split; [exact Hrun|].
  repeat split; try assumption.
  - intros r k Hid Hk Hlast. rewrite Hrev.
    pose proof (findById_merge Date_parse l [] k Hk) as Hf.
    simpl in Hf. rewrite Hlast in Hf. now apply findById_Some in Hf.
  - intros Hl. rewrite Hrev. now apply merge_nothing_new.
Qed.

(** C9.  The catch block, for any error and any cache document other
    than [null], answers 500 with the document's records as they are
    stored, average 0, no name and no placeId, and does not touch the
    file; and whenever the handler answers 500 the file is as the
    request found it. *)
Theorem reviews_degraded_response :
  (forall err fs rv lu,
     persisted fs = DocObject rv lu ->
     reviews_catch err fs =
       (Ok (mkResponse 500 (Payload {|
          p_error := Some (message err);
          reviews := orEmpty rv;
          averageRating := Finite 0;
          totalReviewCount := List.length (orEmpty rv);
          name := None;
          placeId := None;
          cached := true;
          info := {| totalCached := List.length (orEmpty rv);
                     newFromGoogle := 0;
                     lastUpdated := lu |} |})),
        fs))
  /\ (forall q fs p fs',
        route q fs = (Ok (mkResponse 500 (Payload p)), fs') ->
        fs' = fs
        /\ averageRating p = Finite 0 /\ name p = None /\ placeId p = None
        /\ cached p = true /\ newFromGoogle (info p) = 0%nat
        /\ exists rv lu, persisted fs = DocObject rv lu /\ reviews p = orEmpty rv).
Proof.
  split.
  - intros err fs rv lu Hdoc. run_handler. reflexivity.
  - intros q fs p fs' Hrun.
    destruct (truthy (LOCATION_NAME q)) eqn:Hloc.
    + destruct (persisted fs) as [|[l|] lu] eqn:Hdoc.
      * rewrite (reviews_route_null Date_parse q fs Hloc Hdoc) in Hrun. discriminate.
      * destruct (reviews_route_served Date_parse q fs l lu Hloc Hdoc) as (p' & Hrun' & _).
        rewrite Hrun' in Hrun. discriminate.
      * rewrite (reviews_route_missing_reviews Date_parse q fs lu Hloc Hdoc) in Hrun.
        injection Hrun as <- <-. repeat split. now exists None, lu.
    + rewrite (reviews_route_unconfigured Date_parse q fs Hloc) in Hrun. discriminate.
Qed.

End HandlerResults.

(** C4, at the failing input: the fetch fails, yet the file is written
    with the time of the request, not with the date it had; and the
    answer reports the date that was loaded, after a failed fetch and
    after a successful one alike. *)
Theorem reviews_lastUpdated_after_failed_fetch :
  snd (reviews_route Date_parse_ymd (Sample.request Sample.fetchFailure)
         (Sample.cacheFile [Sample.a]))
  = Content (Json (DocObject (Some [Sample.a]) (Some "2026-02-01T00:00:00.000Z")))
  /\ option_map (fun sp => lastUpdated (info (snd sp)))
       (sent (reviews_route Date_parse_ymd (Sample.request Sample.fetchFailure)
                (Sample.cacheFile [Sample.a])))
     = Some (Some "2026-01-01T00:00:00.000Z")
  /\ option_map (fun sp => lastUpdated (info (snd sp)))
       (sent (reviews_route Date_parse_ymd (Sample.request (Ok (Some [Sample.b])))
                (Sample.cacheFile [Sample.a])))
     = Some (Some "2026-01-01T00:00:00.000Z").
Proof. repeat split. Qed.

(** C9, witness: three cached records rated FIVE, ONE and FIVE come
    back in stored order with average 0; and a request that finds a
    document without [reviews] is answered 500 with the file left as
    it was. *)
Lemma reviews_degraded_response_witness :
  reviews_catch (Error "boom") (Sample.cacheFile [Sample.a; Sample.c; Sample.b])
  = (Ok (mkResponse 500 (Payload {|
       p_error := Some "boom";
       reviews := [Sample.a; Sample.c; Sample.b];
       averageRating := Finite 0;
       totalReviewCount := 3;
       name := None;
       placeId := None;
       cached := true;
       info := {| totalCached := 3; newFromGoogle := 0;
                  lastUpdated := Some "2026-01-01T00:00:00.000Z" |} |})),
     Sample.cacheFile [Sample.a; Sample.c; Sample.b])
  /\ snd (reviews_route Date_parse_ymd (Sample.request Sample.fetchFailure)
            (Content (Json (DocObject None None))))
     = Content (Json (DocObject None None)).
Proof.
  split.
  - apply (proj1 (reviews_degraded_response Date_parse_ymd)
             (Error "boom") (Sample.cacheFile [Sample.a; Sample.c; Sample.b])
             (Some [Sample.a; Sample.c; Sample.b]) (Some "2026-01-01T00:00:00.000Z")).
    reflexivity.
  - destruct (reviews_route Date_parse_ymd (Sample.request Sample.fetchFailure)
                (Content (Json (DocObject None None)))) as [r fs'] eqn:E.
    simpl. vm_compute in E. injection E as <- <-.
    apply (proj2 (reviews_degraded_response Date_parse_ymd)
             (Sample.request Sample.fetchFailure) (Content (Json (DocObject None None)))
             {| p_error := Some "Cannot read properties of undefined (reading 'forEach')";
                reviews := [];
                averageRating := Finite 0;
                totalReviewCount := 0;
                name := None;
                placeId := None;
                cached := true;
                info := {| totalCached := 0; newFromGoogle := 0; lastUpdated := None |} |}
             (Content (Json (DocObject None None)))).
    reflexivity.
Defined.

(** C10, at the failing input: the file holds the JSON text [null].
    [loadCache] returns [null] as it is, reading [cache.reviews]
    throws, the catch block loads [null] again and throws in turn: the
    handler ends with the exception and no 500 payload is sent. *)
Theorem reviews_null_document_unhandled :
  loadCache (Content (Json DocNull)) = (Ok DocNull, Content (Json DocNull))
  /\ reviews_route Date_parse_ymd (Sample.request (Ok (Some [Sample.a])))
       (Content (Json DocNull))
     = (Throw (Error "Cannot read properties of null (reading 'reviews')"),
        Content (Json DocNull))
  /\ sent (reviews_route Date_parse_ymd (Sample.request (Ok (Some [Sample.a])))
             (Content (Json DocNull))) = None.
Proof. repeat split. Qed.

(** * Further properties *)

(** ** More on the merge *)

Section Lookup2.
Import JsMap JsMapFacts.

Lemma lastWithId_app k l1 l2 :
  lastWithId k (l1 ++ l2) =
  match lastWithId k l2 with
  | Some r => Some r
  | None => lastWithId k l1
  end.
Proof. unfold lastWithId. now rewrite rev_app_distr, find_app. Qed.

(** In a well-keyed list the last record with an id is the only
    one. *)
Lemma lastWithId_wellKeyed k s : wellKeyed s -> lastWithId k s = findById k s.
Proof.
  intros [_ Hnd]. destruct (lastWithId k s) as [r|] eqn:E.
  - apply lastWithId_Some in E as [Hin Hid]. symmetry.
    now apply findById_unique.
  - symmetry. apply findById_None. now apply lastWithId_None.
Qed.

Lemma NoDup_wellKeyed s : wellKeyed s -> NoDup s.
Proof. intros [_ Hnd]. now apply NoDup_map_inv in Hnd. Qed.

(** Two well-keyed lists that hold the same record at every id are
    rearrangements of each other. *)
Lemma wellKeyed_same_lookup s s' :
  wellKeyed s -> wellKeyed s' ->
  (forall k, k <> "" -> findById k s = findById k s') ->
  Permutation s s'.
Proof.
  intros Hs Hs' Hsame.
  assert (Hone : forall a b, wellKeyed a -> wellKeyed b ->
            (forall k, k <> "" -> findById k a = findById k b) ->
            forall r, In r a -> In r b).
  { intros a b [Hall Hnd] _ Hk r Hin.
    rewrite Forall_forall in Hall.
    destruct (truthy_inv _ (Hall r Hin)) as (k & Hid & Hne).
    pose proof (findById_unique k a r Hnd Hin Hid) as Hf.
    rewrite (Hk k Hne) in Hf. now apply findById_Some in Hf. }
  apply NoDup_Permutation; try now apply NoDup_wellKeyed.
  intros r. split.
  - now apply Hone.
  - apply Hone; try assumption. intros k Hk. symmetry. now apply Hsame.
Qed.

Lemma forEach_app l1 l2 m :
  forEach_set (l1 ++ l2) m = forEach_set l2 (forEach_set l1 m).
Proof. unfold forEach_set. apply fold_left_app. Qed.

Lemma existsb_eqb_In k seen : existsb (String.eqb k) seen = true <-> In k seen.
Proof.
  rewrite existsb_exists. split.
  - intros (x & Hin & He). apply String.eqb_eq in He. now subst.
  - intros Hin. exists k. split; [assumption|apply String.eqb_refl].
Qed.

(** The keys after a loop: those before, then the new ids in order of
    first appearance. *)
Lemma keys_forEach_firstSeen l : forall m seen,
  (forall k, In k seen <-> In k (keys m)) ->
  keys (forEach_set l m) = keys m ++ firstSeen seen l.
Proof.
  induction l as [|r l IH]; intros m seen Hseen.
  - simpl. now rewrite app_nil_r.
  - change (forEach_set (r :: l) m) with (forEach_set l (setReview m r)).
    cbn [firstSeen].
    destruct (reviewId r) as [k|] eqn:Hid.
    + destruct (truthy (Some k)) eqn:Ht; cbn [andb].
      * apply truthy_Some in Ht.
        rewrite (setReview_set m r k Hid Ht).
        destruct (existsb (String.eqb k) seen) eqn:Ex; cbn [negb].
        -- apply existsb_eqb_In in Ex. apply Hseen in Ex.
           rewrite (IH (set k r m) seen).
           ++ now rewrite keys_set_present.
           ++ intros k'. rewrite keys_set_present by assumption. apply Hseen.
        -- assert (Hout : ~ In k (keys m)).
           { intros Hin. apply Hseen in Hin. apply existsb_eqb_In in Hin. congruence. }
           rewrite (IH (set k r m) (k :: seen)).
           ++ rewrite keys_set_absent by assumption. now rewrite <- app_assoc.
           ++ intros k'. rewrite keys_set_absent by assumption.
              rewrite in_app_iff. simpl. rewrite Hseen. tauto.
      * rewrite setReview_skip by (now rewrite Hid). now apply IH.
    + rewrite setReview_skip by (now rewrite Hid). now apply IH.
Qed.

Lemma keys_mapOf c n : keys (mapOf c n) = firstSeen [] (c ++ n).
Proof.
  unfold mapOf. rewrite <- forEach_app.
  rewrite (keys_forEach_firstSeen (c ++ n) empty []); [reflexivity|].
  intros k. simpl. tauto.
Qed.

Lemma Sorted_all (A : Type) (R : A -> A -> Prop) (l : list A) :
  (forall a b, In a l -> In b l -> R a b) -> Sorted R l.
Proof.
  induction l as [|x l IH]; intros H; constructor.
  - apply IH. intros a b Ha Hb. apply H; now right.
  - destruct l; constructor. apply H; simpl; auto.
Qed.

Lemma in_values_source c n r :
  In r (values (mapOf c n)) ->
  (In r c \/ In r n) /\ truthy (reviewId r) = true.
Proof.
  intros Hin.
  destruct (in_values_get (mapOf c n) r (keyed_mapOf c n) Hin) as (k & Hid & Hk & Hget).
  split.
  - rewrite get_mapOf in Hget by assumption.
    destruct (lastWithId k n) as [r'|] eqn:En.
    + injection Hget as ->. right. now apply lastWithId_Some in En.
    + left. now apply lastWithId_Some in Hget.
  - rewrite Hid. now apply truthy_Some.
Qed.

Lemma keys_mapOf_ids c n k :
  In k (keys (mapOf c n)) <-> In k (map propertyKey (idsOf (c ++ n))).
Proof.
  split.
  - intros Hin.
    destruct (get k (mapOf c n)) as [r|] eqn:E.
    + pose proof (get_in_values _ _ _ E) as Hv.
      destruct (in_values_get (mapOf c n) r (keyed_mapOf c n) Hv) as (k' & Hid & Hk & Hget).
      apply get_Some_In in E. destruct (keyed_mapOf c n) as [Hall _].
      rewrite Forall_forall in Hall. destruct (Hall _ E) as [Hid' _]. simpl in Hid'.
      apply in_map_iff. exists (Some k). split; [reflexivity|].
      unfold idsOf. apply filter_In. split.
      * rewrite <- Hid'. apply in_map. apply in_or_app.
        destruct (in_values_source c n r Hv) as [[H|H] _]; auto.
      * rewrite Hid' in Hid. injection Hid as <-. now apply truthy_Some.
    + apply get_None_iff in E. contradiction.
  - intros Hin. apply in_map_iff in Hin as (x & <- & Hx).
    unfold idsOf in Hx. apply filter_In in Hx as [Hx Ht].
    apply in_map_iff in Hx as (r & <- & Hr).
    destruct (truthy_inv _ Ht) as (k & Hid & Hk). rewrite Hid. simpl.
    unfold mapOf. apply in_app_or in Hr as [Hr|Hr].
    + apply keys_forEach_incl. now apply keys_forEach_in with r.
    + now apply keys_forEach_in with r.
Qed.

End Lookup2.

Section MergeMore.
Variable Date_parse : string -> option Z.

Local Notation "'merge'" := (mergeReviews Date_parse).

(** X1.  The merge invents nothing and keeps no record without an id:
    every merged record is one of the cached or of the incoming
    records, and its [reviewId] is a non-empty string. *)
Theorem mergeReviews_members (cachedReviews newReviews : list review) (r : review) :
  In r (merge cachedReviews newReviews) ->
  (In r cachedReviews \/ In r newReviews) /\ truthy (reviewId r) = true.
Proof.
  intros Hin. apply in_values_source.
  now apply (Permutation_in _ (merge_perm Date_parse cachedReviews newReviews)).
Qed.

(** X2.  The merged list has one record for each distinct non-empty id
    of the two lists together, so never more records than went in. *)
Theorem mergeReviews_count (cachedReviews newReviews : list review) :
  List.length (merge cachedReviews newReviews) = distinctIds (cachedReviews ++ newReviews)
  /\ (List.length (merge cachedReviews newReviews)
      <= List.length cachedReviews + List.length newReviews)%nat.
Proof.
  assert (Hlen : List.length (merge cachedReviews newReviews)
                 = List.length (JsMap.keys (mapOf cachedReviews newReviews))).
  { rewrite (Permutation_length (merge_perm Date_parse cachedReviews newReviews)).
    unfold JsMap.values, JsMap.keys. now rewrite !length_map. }
  assert (Hperm : Permutation (JsMap.keys (mapOf cachedReviews newReviews))
                    (nodup string_dec (map propertyKey (idsOf (cachedReviews ++ newReviews))))).
  { apply NoDup_Permutation.
    - apply keyed_mapOf.
    - apply NoDup_nodup.
    - intros k. rewrite nodup_In. apply keys_mapOf_ids. }
  split.
  - rewrite Hlen. unfold distinctIds. now apply Permutation_length.
  - rewrite Hlen, (Permutation_length Hperm), <- length_app.
    transitivity (List.length (map propertyKey (idsOf (cachedReviews ++ newReviews)))).
    + apply NoDup_incl_length; [apply NoDup_nodup|].
      intros k Hk. now apply nodup_In in Hk.
    + rewrite length_map. unfold idsOf.
      rewrite <- (length_map reviewId (cachedReviews ++ newReviews)).
      apply filter_length_le.
Qed.

Lemma merge_when_tied c n :
  (forall a b, In a (c ++ n) -> In b (c ++ n) ->
     SortCompare (byDateDesc Date_parse) a b = 0) ->
  merge c n = JsMap.values (mapOf c n).
Proof.
  intros Htie. unfold mergeReviews. fold (mapOf c n).
  apply sort_fixed. apply Sorted_all.
  intros a b Ha Hb. unfold inOrder.
  rewrite Htie; [lia| |]; apply in_or_app.
  - destruct (in_values_source c n b Hb) as [H _]. exact H.
  - destruct (in_values_source c n a Ha) as [H _]. exact H.
Qed.

(** X3.  The map holds the ids in order of first appearance, cached
    records first; an id that comes again keeps its place.  When the
    dates tell no two records apart (none parses, or all are equal)
    that is the order of the merged list. *)
Theorem mergeReviews_first_seen_order (cachedReviews newReviews : list review) :
  JsMap.keys (mapOf cachedReviews newReviews) = firstSeen [] (cachedReviews ++ newReviews)
  /\ ((forall a b, In a (cachedReviews ++ newReviews) -> In b (cachedReviews ++ newReviews) ->
         SortCompare (byDateDesc Date_parse) a b = 0) ->
      map reviewId (merge cachedReviews newReviews)
      = map Some (firstSeen [] (cachedReviews ++ newReviews))).
Proof.
  split; [apply keys_mapOf|].
  intros Htie. rewrite (merge_when_tied _ _ Htie).
  rewrite ids_of_values by apply keyed_mapOf. now rewrite keys_mapOf.
Qed.

Lemma merge_replay c n : merge (merge c n) [] = merge c n.
Proof.
  unfold mergeReviews at 1. cbn [forEach_set fold_left].
  change (fold_left setReview (merge c n) JsMap.empty)
    with (forEach_set (merge c n) JsMap.empty).
  rewrite (forEach_wellKeyed _ (wellKeyed_merge Date_parse c n)).
  rewrite values_entries. unfold mergeReviews.
  apply sort_idempotent. apply byDateDesc_anti.
Qed.

(** X4.  A merged list merged with nothing is returned as it is: a
    cycle that brings no record serves exactly what the cycle before
    it left. *)
Theorem mergeReviews_replay (cachedReviews newReviews : list review) :
  merge (merge cachedReviews newReviews) [] = merge cachedReviews newReviews.
Proof. apply merge_replay. Qed.

(** X5.  Two merges in a row hold the same records as one merge with
    the two incoming lists put end to end; the two results can differ
    only in the order of records. *)
Theorem mergeReviews_batches (cachedReviews first second : list review) :
  Permutation (merge (merge cachedReviews first) second)
              (merge cachedReviews (first ++ second)).
Proof.
  apply wellKeyed_same_lookup; try apply wellKeyed_merge.
  intros k Hk. rewrite !findById_merge by assumption.
  rewrite lastWithId_app.
  destruct (lastWithId k second); [reflexivity|].
  rewrite (lastWithId_wellKeyed k _ (wellKeyed_merge Date_parse cachedReviews first)).
  now apply findById_merge.
Qed.

End MergeMore.

(** X1, witness. *)
Lemma mergeReviews_members_witness :
  (In Sample.r1_five [Sample.r1_four] \/ In Sample.r1_five [Sample.r1_five])
  /\ truthy (reviewId Sample.r1_five) = true.
Proof.
  apply (mergeReviews_members Date_parse_ymd [Sample.r1_four] [Sample.r1_five]).
  vm_compute. now left.
Defined.

(** X3, witness: two cached records whose dates do not parse and an
    edit of the second of them. *)
Lemma mergeReviews_first_seen_order_witness :
  map reviewId (mergeReviews Date_parse_ymd [Sample2.u2; Sample2.u1] [Sample2.u1_edited])
  = [Some "u2"; Some "u1"].
Proof.
  apply (proj2 (mergeReviews_first_seen_order Date_parse_ymd
                  [Sample2.u2; Sample2.u1] [Sample2.u1_edited])).
  intros a b Ha Hb. simpl in Ha, Hb.
  destruct Ha as [<-|[<-|[<-|[]]]]; destruct Hb as [<-|[<-|[<-|[]]]]; reflexivity.
Defined.

(** ** More on the rating *)

Section RatingMore.

Lemma starOperand_inherited r : inheritedRating r = true -> starOperand r = Obj.
Proof.
  unfold inheritedRating, starOperand. intros Hi. rewrite Hi.
  apply existsb_exists in Hi as (name & Hin & He).
  apply String.eqb_eq in He. rewrite He.
  simpl in Hin.
  repeat (destruct Hin as [<-|Hin]; [reflexivity|]). destruct Hin.
Qed.

Lemma spec_starValue_range r : 0 <= spec_starValue r <= 5.
Proof.
  unfold spec_starValue. destruct (starRating r) as [s|]; [|lia].
  repeat (match goal with |- context [if ?b then _ else _] => destruct b end); lia.
Qed.

Lemma spec_ratingSum_range l :
  0 <= spec_ratingSum l <= 5 * Z.of_nat (List.length l).
Proof.
  unfold spec_ratingSum. induction l as [|r l IH]; [simpl; lia|].
  pose proof (spec_starValue_range r).
  cbn [map fold_right List.length]. lia.
Qed.

(** The sum of [reduce] in general: a string as soon as one rating
    names a member of [Object.prototype], else the sum of the star
    values. *)
Lemma ratingSum_general l : forall acc,
  fold_left (fun acc review => js_add acc (starOperand review)) l (ANumber acc)
  = if existsb inheritedRating l then AString else ANumber (acc + spec_ratingSum l).
Proof.
  induction l as [|r l IH]; intros acc; cbn [fold_left existsb].
  - f_equal. unfold spec_ratingSum. simpl. lia.
  - destruct (inheritedRating r) eqn:Hr; cbn [orb].
    + rewrite (starOperand_inherited r Hr). cbn [js_add]. apply js_add_string.
    + rewrite (starOperand_ordinary r Hr). cbn [js_add]. rewrite IH.
      destruct (existsb inheritedRating l); [reflexivity|].
      f_equal. unfold spec_ratingSum. simpl. lia.
Qed.

Lemma averageRatingOf_general l :
  averageRatingOf l =
  match l with
  | [] => Finite 0
  | _ :: _ => if existsb inheritedRating l then NaN else Finite (spec_averageRating l)
  end.
Proof.
  destruct l as [|r l]; [reflexivity|].
  unfold averageRatingOf, ratingSum.
  change (0 <? List.length (r :: l))%nat with true. cbv iota.
  rewrite ratingSum_general.
  now destruct (existsb inheritedRating (r :: l)).
Qed.

Lemma spec_ratingSum_perm l l' : Permutation l l' -> spec_ratingSum l = spec_ratingSum l'.
Proof.
  unfold spec_ratingSum. induction 1; simpl; lia.
Qed.

Lemma existsb_perm (A : Type) (f : A -> bool) l l' :
  Permutation l l' -> existsb f l = existsb f l'.
Proof.
  induction 1; simpl; try congruence.
  now destruct (f x), (f y).
Qed.

Lemma Qdiv_range s (n : nat) :
  (0 < n)%nat -> 0 <= s <= 5 * Z.of_nat n ->
  (0 <= inject_Z s / inject_Z (Z.of_nat n))%Q
  /\ (inject_Z s / inject_Z (Z.of_nat n) <= 5)%Q.
Proof.
  intros Hn Hs.
  assert (Hpos : (0 < inject_Z (Z.of_nat n))%Q).
  { change 0%Q with (inject_Z 0). rewrite <- Zlt_Qlt. lia. }
  split.
  - apply Qle_shift_div_l; [assumption|].
    rewrite Qmult_0_l. change 0%Q with (inject_Z 0). rewrite <- Zle_Qle. lia.
  - apply Qle_shift_div_r; [assumption|].
    change 5%Q with (inject_Z 5). rewrite <- inject_Z_mult, <- Zle_Qle. lia.
Qed.

End RatingMore.

(** X6.  When no rating names a member of [Object.prototype] the
    average is a number between 0 and 5. *)
Theorem averageRating_range (allReviews : list review) :
  Forall (fun r => inheritedRating r = false) allReviews ->
  exists q, averageRatingOf allReviews = Finite q /\ (0 <= q)%Q /\ (q <= 5)%Q.
Proof.
  intros Hord. exists (spec_averageRating allReviews).
  split; [now apply averageRating_ordinary|].
  destruct allReviews as [|r l]; [split; discriminate|].
  unfold spec_averageRating. apply Qdiv_range.
  - simpl. lia.
  - apply spec_ratingSum_range.
Qed.

(** X6, witness: ratings FIVE, FIVE and ONE. *)
Lemma averageRating_range_witness :
  exists q, averageRatingOf [Sample.a; Sample.b; Sample.c] = Finite q
            /\ (0 <= q)%Q /\ (q <= 5)%Q.
Proof.
  apply (averageRating_range [Sample.a; Sample.b; Sample.c]).
  repeat constructor.
Defined.

(** X7.  The average is [NaN] exactly when some record's rating names a
    member of [Object.prototype]; otherwise it is the number the
    specification's star mapping gives. *)
Theorem averageRating_NaN_iff (allReviews : list review) :
  (averageRatingOf allReviews = NaN
   <-> Exists (fun r => inheritedRating r = true) allReviews)
  /\ (averageRatingOf allReviews <> NaN ->
      averageRatingOf allReviews = Finite (spec_averageRating allReviews)).
Proof.
  rewrite averageRatingOf_general.
  destruct allReviews as [|r l].
  - split; [|reflexivity]. split; [discriminate|]. intros H. inversion H.
  - destruct (existsb inheritedRating (r :: l)) eqn:E.
    + split; [|congruence]. split; [|reflexivity]. intros _.
      apply Exists_exists. apply existsb_exists in E as (x & Hin & Hx). now exists x.
    + split; [|reflexivity]. split; [discriminate|]. intros H.
      apply Exists_exists in H as (x & Hin & Hx).
      assert (existsb inheritedRating (r :: l) = true)
        by (apply existsb_exists; now exists x).
      congruence.
Qed.

Lemma averageRatingOf_perm (l l' : list review) :
  Permutation l l' ->
  averageRatingOf l = averageRatingOf l' /\ List.length l = List.length l'.
Proof.
  intros Hp. split; [|now apply Permutation_length].
  rewrite !averageRatingOf_general.
  pose proof (Permutation_length Hp) as Hlen.
  pose proof (existsb_perm _ inheritedRating _ _ Hp) as Hex.
  pose proof (spec_ratingSum_perm _ _ Hp) as Hsum.
  destruct l as [|a l], l' as [|a' l']; try discriminate; [reflexivity|].
  rewrite Hex. unfold spec_averageRating. now rewrite Hsum, Hlen.
Qed.

(** X8.  The average and the count do not depend on the order of the
    records: sorting the merged list does not change them. *)
Theorem averageRating_order_free (l l' : list review) :
  Permutation l l' ->
  averageRatingOf l = averageRatingOf l' /\ List.length l = List.length l'.
Proof. apply averageRatingOf_perm. Qed.

(** X8, witness. *)
Lemma averageRating_order_free_witness :
  averageRatingOf [Sample.a; Sample.c] = averageRatingOf [Sample.c; Sample.a]
  /\ List.length [Sample.a; Sample.c] = List.length [Sample.c; Sample.a].
Proof.
  apply (averageRating_order_free [Sample.a; Sample.c] [Sample.c; Sample.a]).
  apply perm_swap.
Defined.

(** ** More on the handler *)

Section HandlerMore.
Variable Date_parse : string -> option Z.

Local Notation "'merge'" := (mergeReviews Date_parse).
Local Notation "'route'" := (reviews_route Date_parse).

Lemma reviews_route_served_eq q fs l lu :
  truthy (LOCATION_NAME q) = true ->
  persisted fs = DocObject (Some l) lu ->
  route q fs =
    (Ok (mkResponse 200 (Payload (servedPayload Date_parse q l lu))),
     fileAfterWrite q
       (Json (DocObject (Some (merge l (newReviewsOf q))) (Some (now q)))) fs).
Proof.
  intros Hloc Hdoc. run_handler. unfold servedPayload, newReviewsOf, fileAfterWrite.
  destruct (diskWritable q), (writeTruncates q), (fetched q); reflexivity.
Qed.

Lemma persisted_content doc : persisted (Content (Json doc)) = doc.
Proof. reflexivity. Qed.

(** The handler, case by case. *)
Lemma reviews_route_outcome q fs : route q fs = reviews_outcome Date_parse q fs.
Proof.
  unfold reviews_outcome.
  destruct (truthy (LOCATION_NAME q)) eqn:Hloc; cbn [negb].
  - destruct (persisted fs) as [|[l|] lu] eqn:Hdoc.
    + now apply reviews_route_null.
    + now apply reviews_route_served_eq.
    + now apply reviews_route_missing_reviews.
  - now apply reviews_route_unconfigured.
Qed.

End HandlerMore.

Section HandlerProperties.
Variable Date_parse : string -> option Z.

Local Notation "'merge'" := (mergeReviews Date_parse).
Local Notation "'route'" := (reviews_route Date_parse).

Ltac by_outcome :=
  rewrite ?reviews_route_outcome; unfold reviews_outcome;
  cbn [LOCATION_NAME PLACE_ID now fetched location diskWritable writeTruncates
       withDisk withLocation withFetched withWrite].

(** X9.  The handler answers 400 exactly when LOCATION_NAME is unset
    or empty, whatever the cache file, the fetch, the location lookup
    and the write are; it then sends the error alone and leaves the
    file as it is. *)
Theorem reviews_route_400_iff (q : Request) (fs : FileState) :
  (statusOf (route q fs) = Some 400%nat <-> truthy (LOCATION_NAME q) = false)
  /\ (truthy (LOCATION_NAME q) = false ->
      route q fs = (Ok (mkResponse 400 (ErrorOnly "LOCATION_NAME not configured")), fs)).
Proof.
  split; [|apply reviews_route_unconfigured].
  by_outcome. destruct (truthy (LOCATION_NAME q)); cbn [negb]; [|split; reflexivity].
  destruct (persisted fs) as [|[l|] lu]; split; discriminate.
Qed.

(** X10.  The write changes nothing for the caller: the response is
    the same whether the write goes through, fails before the file is
    opened, or fails after truncating it. *)
Theorem reviews_route_write_isolated (q : Request) (fs : FileState)
    (w t w' t' : bool) :
  fst (route (withWrite w t q) fs) = fst (route (withWrite w' t' q) fs).
Proof.
  by_outcome. destruct (truthy (LOCATION_NAME q)); cbn [negb]; [|reflexivity].
  destruct (persisted fs) as [|[l|] lu]; reflexivity.
Qed.

(** X11.  The location lookup supplies [name] and [placeId] and
    nothing else: the file written, the status and every other field
    of the payload are the same whatever the lookup answers; when it
    fails, a 200 answer carries the name "Our Business" and the
    PLACE_ID of the environment, or null. *)
Theorem reviews_route_location_isolated (q : Request) (fs : FileState)
    (loc loc' : result locationInfo) :
  snd (route (withLocation loc q) fs) = snd (route (withLocation loc' q) fs)
  /\ option_map (fun sp => (fst sp, withoutLocation (snd sp)))
       (sent (route (withLocation loc q) fs))
     = option_map (fun sp => (fst sp, withoutLocation (snd sp)))
         (sent (route (withLocation loc' q) fs))
  /\ (forall e p,
        loc = Throw e ->
        sent (route (withLocation loc q) fs) = Some (200%nat, p) ->
        name p = Some "Our Business"
        /\ placeId p = Some (if truthy (PLACE_ID q) then PLACE_ID q else None)).
Proof.
  by_outcome. destruct (truthy (LOCATION_NAME q)); cbn [negb].
  - destruct (persisted fs) as [|[l|] lu]; cbn [sent option_map fst snd];
      (split; [reflexivity|split; [reflexivity|]]); intros e p He Hsent.
    + discriminate.
    + injection Hsent as <-. rewrite He. split; reflexivity.
    + discriminate.
  - split; [reflexivity|split; [reflexivity|]]. intros; discriminate.
Qed.





(** X14.  A request repeated with the same fetch result returns the
    same list of reviews as the first one, whether the first one's
    write went through or failed before the file was opened. *)
Theorem reviews_route_repeatable (q q' : Request) (fs : FileState) :
  truthy (LOCATION_NAME q') = truthy (LOCATION_NAME q) ->
  fetched q' = fetched q ->
  writeIsClean q ->
  reviewsOf (route q' (snd (route q fs))) = reviewsOf (route q fs).
Proof.
  intros Hloc Hfetch Hclean. by_outcome. rewrite Hloc.
  destruct (truthy (LOCATION_NAME q)); cbn [negb snd]; [|reflexivity].
  destruct (persisted fs) as [|[l|] lu] eqn:Hdoc; cbn [snd];
    try (rewrite Hdoc; reflexivity).
  assert (Hnew : newReviewsOf q' = newReviewsOf q)
    by (unfold newReviewsOf; now rewrite Hfetch).
  unfold fileAfterWrite. destruct (diskWritable q) eqn:Hw.
  - rewrite persisted_content. unfold reviewsOf, servedPayload.
    cbn [sent option_map snd reviews].
    rewrite Hnew. now rewrite merge_again.
  - rewrite (Hclean Hw), Hdoc. unfold reviewsOf, servedPayload.
    cbn [sent option_map snd reviews]. now rewrite Hnew.
Qed.

(** X15.  After a request that stored its result, a request whose
    fetch fails serves the same reviews with the same average, flagged
    [cached], with no new record counted, and reports the time of the
    earlier request as [lastUpdated]. *)
Theorem reviews_route_replays_cache (q q' : Request) (fs : FileState)
    (l : list review) (lu : option string) (e : error) :
  truthy (LOCATION_NAME q) = true ->
  truthy (LOCATION_NAME q') = true ->
  persisted fs = DocObject (Some l) lu ->
  diskWritable q = true ->
  fetched q' = Throw e ->
  exists p p',
    sent (route q fs) = Some (200%nat, p)
    /\ sent (route q' (snd (route q fs))) = Some (200%nat, p')
    /\ reviews p' = reviews p
    /\ averageRating p' = averageRating p
    /\ totalReviewCount p' = totalReviewCount p
    /\ cached p' = true
    /\ newFromGoogle (info p') = 0%nat
    /\ lastUpdated (info p') = Some (now q).
Proof.
  intros Hloc Hloc' Hdoc Hw Hfetch.
  rewrite (reviews_route_served_eq Date_parse q fs l lu Hloc Hdoc).
  unfold fileAfterWrite at 1 2. rewrite Hw. cbn [snd].
  rewrite (reviews_route_served_eq Date_parse q' _ (merge l (newReviewsOf q)) (Some (now q))
             Hloc' (persisted_content _)).
  assert (Hn : newReviewsOf q' = []) by (unfold newReviewsOf; now rewrite Hfetch).
  do 2 eexists. split; [reflexivity|]. split; [reflexivity|].
  unfold servedPayload.
  cbn [reviews averageRating totalReviewCount cached info newFromGoogle lastUpdated].
  rewrite Hn, Hfetch, !merge_replay. repeat split.
Qed.

(** X16.  A fetch that succeeds with no [reviews] field is handled as
    an empty fetch: next to a fetch that fails it writes the same
    file and sends the same payload, but for the [cached] flag of a
    200 answer. *)
Theorem reviews_route_empty_fetch (q : Request) (fs : FileState) (e : error) :
  snd (route (withFetched (Ok None) q) fs) = snd (route (withFetched (Throw e) q) fs)
  /\ forall st p,
       sent (route (withFetched (Ok None) q) fs) = Some (st, p) ->
       exists p',
         sent (route (withFetched (Throw e) q) fs) = Some (st, p')
         /\ p_error p' = p_error p /\ reviews p' = reviews p
         /\ averageRating p' = averageRating p
         /\ totalReviewCount p' = totalReviewCount p
         /\ name p' = name p /\ placeId p' = placeId p /\ info p' = info p
         /\ cached p' = true
         /\ (st = 200%nat -> cached p = false).
Proof.
  by_outcome. destruct (truthy (LOCATION_NAME q)); cbn [negb].
  - destruct (persisted fs) as [|[l|] lu]; cbn [sent snd].
    + split; [reflexivity|]. intros; discriminate.
    + split; [reflexivity|]. intros st p [= <- <-].
      eexists. split; [reflexivity|]. repeat split.
    + split; [reflexivity|]. intros st p [= <- <-].
      eexists. split; [reflexivity|]. repeat split. discriminate.
  - split; [reflexivity|]. intros; discriminate.
Qed.

End HandlerProperties.


(** X14, witness: the same fetch twice over an empty cache. *)
Lemma reviews_route_repeatable_witness :
  reviewsOf (reviews_route Date_parse_ymd (Sample.request (Ok (Some [Sample.b; Sample.c])))
               (snd (reviews_route Date_parse_ymd
                       (Sample.request (Ok (Some [Sample.b; Sample.c]))) NoFile)))
  = reviewsOf (reviews_route Date_parse_ymd
                 (Sample.request (Ok (Some [Sample.b; Sample.c]))) NoFile).
Proof.
  apply (reviews_route_repeatable Date_parse_ymd
           (Sample.request (Ok (Some [Sample.b; Sample.c])))
           (Sample.request (Ok (Some [Sample.b; Sample.c]))) NoFile);
    try reflexivity.
  intros Hw. discriminate Hw.
Defined.

(** X15, witness: a fetch of two records, then a failing fetch. *)
Lemma reviews_route_replays_cache_witness :
  exists p p',
    sent (reviews_route Date_parse_ymd (Sample.request (Ok (Some [Sample.b; Sample.c])))
            (Sample.cacheFile [Sample.a])) = Some (200%nat, p)
    /\ sent (reviews_route Date_parse_ymd (Sample.request Sample.fetchFailure)
               (snd (reviews_route Date_parse_ymd
                       (Sample.request (Ok (Some [Sample.b; Sample.c])))
                       (Sample.cacheFile [Sample.a])))) = Some (200%nat, p')
    /\ reviews p' = reviews p
    /\ averageRating p' = averageRating p
    /\ totalReviewCount p' = totalReviewCount p
    /\ cached p' = true
    /\ newFromGoogle (info p') = 0%nat
    /\ lastUpdated (info p') = Some "2026-02-01T00:00:00.000Z".
Proof.
  apply (reviews_route_replays_cache Date_parse_ymd
           (Sample.request (Ok (Some [Sample.b; Sample.c])))
           (Sample.request Sample.fetchFailure)
           (Sample.cacheFile [Sample.a]) [Sample.a] (Some "2026-01-01T00:00:00.000Z")
           (Error "Request failed with status code 503"));
    reflexivity.
Defined.

(** ** Saving *)

(** X17.  [saveCache] never throws: it returns whether the write goes
    through, fails before the file is opened, or fails after
    truncating it. *)
Theorem saveCache_never_throws (writable truncates : bool) (cache : cacheDoc)
    (fs : FileState) :
  exists fs', saveCache writable truncates cache fs = (Ok tt, fs').
Proof.
  destruct writable, truncates; eexists; reflexivity.
Qed.

(** ** The key check and the pass-through routes *)

Section ApiRoutes.

Lemma API_KEY_not_empty env : API_KEY env <> "".
Proof.
  unfold API_KEY. destruct env as [k|]; [|discriminate].
  destruct (truthy (Some k)) eqn:Ht; [|discriminate].
  now apply truthy_Some.
Qed.

Lemma strictEq_true key s : strictEq key s = true <-> key = QueryString s.
Proof.
  destruct key as [|k|]; simpl; try (split; discriminate).
  rewrite String.eqb_eq. split; congruence.
Qed.

Lemma requireApiKey_refused env key next :
  key <> QueryString (API_KEY env) ->
  requireApiKey env key next = (mkApiResponse 403 (ApiError "Access denied"), []).
Proof.
  intros Hne. unfold requireApiKey.
  destruct (strictEq key (API_KEY env)) eqn:E; [|reflexivity].
  apply strictEq_true in E. contradiction.
Qed.

Lemma requireApiKey_accepted env next :
  requireApiKey env (QueryString (API_KEY env)) next = next.
Proof.
  unfold requireApiKey.
  now rewrite (proj2 (strictEq_true _ _) eq_refl).
Qed.

Lemma passThrough_status upstream call :
  api_status (fst (passThrough upstream call)) <> 403%nat
  /\ snd (passThrough upstream call) = [call].
Proof. unfold passThrough. destruct (upstream call); split; simpl; congruence. Qed.

End ApiRoutes.

(** X18.  The key that opens [/accounts] and [/locations] is never
    the empty string: it is the API_KEY of the environment when that
    is set and not empty, and "change-me-in-vercel" otherwise.  A
    request with no key, an empty key or an array or object for a key
    is refused under every configuration. *)
Theorem API_KEY_effective (env_API_KEY : option string) :
  API_KEY env_API_KEY <> ""
  /\ (truthy env_API_KEY = true -> env_API_KEY = Some (API_KEY env_API_KEY))
  /\ (truthy env_API_KEY = false -> API_KEY env_API_KEY = "change-me-in-vercel")
  /\ (forall key next,
        key = QueryAbsent \/ key = QueryString "" \/ key = QueryStructured ->
        requireApiKey env_API_KEY key next
        = (mkApiResponse 403 (ApiError "Access denied"), [])).
Proof.
  split; [apply API_KEY_not_empty|]. split; [|split].
  - destruct env_API_KEY as [k|]; [|discriminate].
    intros Ht. unfold API_KEY. now rewrite Ht.
  - destruct env_API_KEY as [k|]; [|reflexivity].
    intros Ht. unfold API_KEY. now rewrite Ht.
  - intros key next Hkey. apply requireApiKey_refused.
    pose proof (API_KEY_not_empty env_API_KEY) as Hne.
    destruct Hkey as [ -> | [ -> | -> ] ]; congruence.
Qed.

(** X19.  Both routes answer 403 exactly when the key is not the
    string equal to the effective API key, and then they send "Access
    denied" and make no call to Google, whatever ACCOUNT_NAME and
    Google's state are. *)
Theorem api_routes_gate (env_API_KEY ACCOUNT_NAME : option string)
    (key : queryValue) (upstream : Upstream) :
  (api_status (fst (accounts_route env_API_KEY key upstream)) = 403%nat
   <-> key <> QueryString (API_KEY env_API_KEY))
  /\ (api_status (fst (locations_route env_API_KEY ACCOUNT_NAME key upstream)) = 403%nat
      <-> key <> QueryString (API_KEY env_API_KEY))
  /\ (key <> QueryString (API_KEY env_API_KEY) ->
      accounts_route env_API_KEY key upstream
        = (mkApiResponse 403 (ApiError "Access denied"), [])
      /\ locations_route env_API_KEY ACCOUNT_NAME key upstream
        = (mkApiResponse 403 (ApiError "Access denied"), [])).
Proof.
  unfold accounts_route, locations_route.
  destruct (strictEq key (API_KEY env_API_KEY)) eqn:E.
  - apply strictEq_true in E. subst key. rewrite !requireApiKey_accepted.
    split; [|split].
    + split; [|congruence]. intros H. exfalso.
      now apply (proj1 (passThrough_status upstream AccountsList)).
    + split; [|congruence]. intros H. exfalso. revert H.
      destruct ACCOUNT_NAME as [parent|]; [|discriminate].
      destruct (truthy (Some parent)); cbn [negb]; [|discriminate].
      apply passThrough_status.
    + congruence.
  - assert (Hne : key <> QueryString (API_KEY env_API_KEY)).
    { intros H. apply strictEq_true in H. congruence. }
    rewrite !requireApiKey_refused by assumption.
    repeat split; auto.
Qed.

(** X20.  With the right key, [/locations] answers 400 and calls
    nothing when ACCOUNT_NAME is unset or empty; otherwise it makes
    one call, listing the locations of that account with page size
    100, and answers 200 with Google's data or 500 with Google's error
    data, or the error message when there is no such data. *)
Theorem locations_route_accepted (env_API_KEY ACCOUNT_NAME : option string)
    (upstream : Upstream) :
  let out := locations_route env_API_KEY ACCOUNT_NAME
               (QueryString (API_KEY env_API_KEY)) upstream in
  (truthy ACCOUNT_NAME = false ->
   out = (mkApiResponse 400 (ApiError "ACCOUNT_NAME not configured"), []))
  /\ (forall parent,
        ACCOUNT_NAME = Some parent -> parent <> "" ->
        let call := LocationsList parent 100 "name,title,storefrontAddress" in
        snd out = [call]
        /\ (forall data, upstream call = inr data ->
              fst out = mkApiResponse 200 (ApiData data))
        /\ (forall err, upstream call = inl err ->
              fst out = mkApiResponse 500 (ApiError (errorDetail err))
              /\ (truthy (response_data err) = true ->
                  Some (errorDetail err) = response_data err)
              /\ (truthy (response_data err) = false ->
                  errorDetail err = err_message err))).
Proof.
  cbv zeta. unfold locations_route. rewrite requireApiKey_accepted. split.
  - destruct ACCOUNT_NAME as [parent|]; [|reflexivity].
    intros Ht. now rewrite Ht.
  - intros parent -> Hne. rewrite (proj2 (truthy_Some parent) Hne). cbn [negb].
    unfold passThrough. split; [now destruct (upstream _)|]. split.
    + intros data ->. reflexivity.
    + intros err ->. split; [reflexivity|].
      unfold errorDetail. destruct (response_data err) as [d|]; split; intros Ht;
        try rewrite Ht; try reflexivity; discriminate.
Qed.

(** ** The cache never shrinks; the handler before the cache *)

Section Growth.
Variable Date_parse : string -> option Z.

Local Notation "'merge'" := (mergeReviews Date_parse).

Lemma idsOf_wellKeyed s : wellKeyed s -> idsOf s = map reviewId s.
Proof.
  intros [Hall _]. unfold idsOf. induction Hall as [|r s Hr Hs IH]; [reflexivity|].
  simpl. now rewrite Hr, IH.
Qed.

(** X21.  A cache whose records have non-empty, distinct ids never
    gets shorter by a merge. *)
Theorem mergeReviews_never_shrinks (cachedReviews newReviews : list review) :
  wellKeyed cachedReviews ->
  (List.length cachedReviews <= List.length (merge cachedReviews newReviews))%nat.
Proof.
  intros Hc.
  rewrite <- (length_map reviewId cachedReviews), <- (idsOf_wellKeyed _ Hc).
  rewrite <- (length_map reviewId (merge cachedReviews newReviews)).
  rewrite <- (idsOf_wellKeyed _ (wellKeyed_merge Date_parse cachedReviews newReviews)).
  apply NoDup_incl_length.
  - rewrite (idsOf_wellKeyed _ Hc). apply Hc.
  - apply idsOf_merge_incl.
Qed.



End Growth.

(** X21, witness. *)
Lemma mergeReviews_never_shrinks_witness :
  (List.length [Sample.a; Sample.b]
   <= List.length (mergeReviews Date_parse_ymd [Sample.a; Sample.b] [Sample.c; Sample.a]))%nat.
Proof.
  apply (mergeReviews_never_shrinks Date_parse_ymd [Sample.a; Sample.b] [Sample.c; Sample.a]).
  split.
  - repeat constructor.
  - repeat constructor; simpl; intuition discriminate.
Defined.


(** ** The handler on the files it writes *)

Section Reachable.
Variable Date_parse : string -> option Z.

Local Notation "'merge'" := (mergeReviews Date_parse).
Local Notation "'route'" := (reviews_route Date_parse).

Lemma handlerWritten_NoFile : handlerWritten NoFile.
Proof. exists [], None. split; [reflexivity|]. split; constructor. Qed.

Lemma handlerWritten_Malformed : handlerWritten (Content Malformed).
Proof. exists [], None. split; [reflexivity|]. split; constructor. Qed.

(** Whatever the request, the file it leaves is one the handler
    wrote: the only text written is a merge. *)
Lemma handlerWritten_route q fs :
  handlerWritten fs -> handlerWritten (snd (route q fs)).
Proof.
  intros (l & lu & Hdoc & Hl).
  rewrite reviews_route_outcome. unfold reviews_outcome.
  destruct (truthy (LOCATION_NAME q)); cbn [negb snd]; [|now exists l, lu].
  rewrite Hdoc. cbn [snd]. unfold fileAfterWrite.
  destruct (diskWritable q).
  - eexists _, _. split; [apply persisted_content|]. apply wellKeyed_merge.
  - destruct (writeTruncates q); [apply handlerWritten_Malformed|now exists l, lu].
Qed.

Lemma handlerWritten_serveAll requests : forall fs,
  handlerWritten fs -> handlerWritten (serveAll Date_parse requests fs).
Proof.
  induction requests as [|q requests IH]; intros fs Hfs; [assumption|].
  cbn [serveAll fold_left]. apply IH. now apply handlerWritten_route.
Qed.

(** C3.  On a cache file the service has written (any series of
    requests from the first start), a request whose fetch fails is
    answered 200 with every cached record in the payload and nothing
    else, [cached] true and [newFromGoogle] 0, and no error key: the
    fetch error does not reach the caller. *)
Theorem reviews_fail_open_on_fetch_error (requests : list Request) (q : Request)
    (l : list review) (lu : option string) (e : error) :
  truthy (LOCATION_NAME q) = true ->
  fetched q = Throw e ->
  persisted (serveAll Date_parse requests NoFile) = DocObject (Some l) lu ->
  exists p fs',
    route q (serveAll Date_parse requests NoFile) = (Ok (mkResponse 200 (Payload p)), fs')
    /\ p_error p = None
    /\ cached p = true
    /\ newFromGoogle (info p) = 0%nat
    /\ (forall r, In r l -> In r (reviews p))
    /\ Permutation (reviews p) l
    /\ totalReviewCount p = List.length l.
Proof.
  intros Hloc Hfetch Hdoc.
  destruct (handlerWritten_serveAll requests NoFile handlerWritten_NoFile)
    as (l' & lu' & Hdoc' & Hl).
  rewrite Hdoc in Hdoc'. injection Hdoc' as <- <-.
  destruct (reviews_route_served Date_parse q _ l lu Hloc Hdoc)
    as (p & Hrun & Herr & Hrev & _ & Hcount & Hcached & _ & Hnew & _).
  rewrite Hfetch in *.
  pose proof (merge_nothing_new Date_parse l Hl) as Hperm.
  exists p. eexists. split; [exact Hrun|].
  repeat split; try assumption.
  - intros r Hin. rewrite Hrev. now apply (Permutation_in _ (Permutation_sym Hperm)).
  - now rewrite Hrev.
  - rewrite Hcount, Hrev. now apply Permutation_length.
Qed.

End Reachable.

(** C3, witness: a first request stores two fetched records, then the
    fetch fails. *)
Lemma reviews_fail_open_on_fetch_error_witness :
  exists p fs',
    reviews_route Date_parse_ymd (Sample.request Sample.fetchFailure)
      (serveAll Date_parse_ymd [Sample.request (Ok (Some [Sample.a; Sample.b]))] NoFile)
    = (Ok (mkResponse 200 (Payload p)), fs')
    /\ p_error p = None
    /\ cached p = true
    /\ newFromGoogle (info p) = 0%nat
    /\ (forall r, In r [Sample.b; Sample.a] -> In r (reviews p))
    /\ Permutation (reviews p) [Sample.b; Sample.a]
    /\ totalReviewCount p = List.length [Sample.b; Sample.a].
Proof.
  apply (reviews_fail_open_on_fetch_error Date_parse_ymd
           [Sample.request (Ok (Some [Sample.a; Sample.b]))]
           (Sample.request Sample.fetchFailure)
           [Sample.b; Sample.a] (Some "2026-02-01T00:00:00.000Z")
           (Error "Request failed with status code 503"));
    reflexivity.
Defined.


(** Two requests overlapping: the second loaded the empty cache before
    the first saved record [a], and its save, with record [b] alone,
    takes [a] out of the file. *)
Lemma reviews_overlapped_loses_update :
  let first := Sample.request (Ok (Some [Sample.a])) in
  let second := Sample.request (Ok (Some [Sample.b])) in
  let loaded := persisted NoFile in
  let after_first := snd (reviews_overlapped Date_parse_ymd first loaded NoFile) in
  let after_second := snd (reviews_overlapped Date_parse_ymd second loaded after_first) in
  docReviews (persisted after_first) = [Sample.a]
  /\ docReviews (persisted after_second) = [Sample.b].
Proof. split; reflexivity. Qed.
